(** * Flux: shallow embedding of the fluid solver, its drivers and the audio service

    Sources embedded here:
    - [src/constants.ts]: the GLSL fragment shaders, as functions of the
      fragment coordinate [vUv] and of the material's uniforms;
    - [src/components/Fluid.tsx]: the render targets, the ping-pong arrays,
      [renderPass], [applySplat] and the [useFrame] callback;
    - the audio service ([AudioService], second half of the same source file);
    - [src/App.tsx]: the handlers of the synthesiser controls.

    Numbers.  JavaScript numbers (IEEE doubles) and GLSL floats are idealised
    as real numbers: every arithmetic operation is the exact one, and rounding
    is outside the model.  The one exception is the drop test of the music
    driver, whose outcome turns on the last bit of a quotient by 15: the
    low-band sum, its average, the value kept in [lastBass] and the test itself
    are computed in binary64, with the kernel's primitive floats. *)

From Stdlib Require Import Floats Uint63.
From Stdlib Require Import Reals Lra Lia ZArith List Bool String Zfloor.
From Stdlib Require Import Init.Byte.
Import ListNotations.
Open Scope R_scope.

(* ********************************************************************* *)
(** * Part I: the embedding and the definitions the statements use *)
(* ********************************************************************* *)

(* ===================================================================== *)
(** ** GLSL vectors *)
(* ===================================================================== *)

Record Vec2 := vec2 { v2x : R; v2y : R }.

Record Vec3 := vec3 { v3x : R; v3y : R; v3z : R }.

Record Vec4 := vec4 { v4x : R; v4y : R; v4z : R; v4w : R }.

Definition add2 (a b : Vec2) : Vec2 := vec2 (v2x a + v2x b) (v2y a + v2y b).

Definition sub2 (a b : Vec2) : Vec2 := vec2 (v2x a - v2x b) (v2y a - v2y b).

Definition dot2 (a b : Vec2) : R := v2x a * v2x b + v2y a * v2y b.

Definition add3 (a b : Vec3) : Vec3 :=
  vec3 (v3x a + v3x b) (v3y a + v3y b) (v3z a + v3z b).

Definition scale3 (k : R) (a : Vec3) : Vec3 :=
  vec3 (k * v3x a) (k * v3y a) (k * v3z a).

Definition scale4 (k : R) (a : Vec4) : Vec4 :=
  vec4 (k * v4x a) (k * v4y a) (k * v4z a) (k * v4w a).

Definition xy (a : Vec4) : Vec2 := vec2 (v4x a) (v4y a).

Definition xyz (a : Vec4) : Vec3 := vec3 (v4x a) (v4y a) (v4z a).

(** GLSL [mix(a, b, t)], componentwise on [vec4]. *)
Definition mix4 (a b : Vec4) (t : R) : Vec4 :=
  vec4 (v4x a * (1 - t) + v4x b * t) (v4y a * (1 - t) + v4y b * t)
       (v4z a * (1 - t) + v4z b * t) (v4w a * (1 - t) + v4w b * t).

(** Comparisons of numbers as booleans (the tests of [if] and [?:]). *)
Definition Rltb (a b : R) : bool := if Rlt_dec a b then true else false.

Definition Rgtb (a b : R) : bool := Rltb b a.

(* ===================================================================== *)
(** ** Textures and sampling *)
(* ===================================================================== *)

(** The texels of a square texture, by column and row index.  Only indices in
    [0 .. res-1] are ever fetched: the sampler clamps (ClampToEdgeWrapping). *)
Definition Image := Z -> Z -> Vec4.

Record Sampler := mkSampler { s_res : Z; s_img : Image }.

Definition clampZ (n i : Z) : Z := Z.max 0 (Z.min i (n - 1)).

(** [texture2D] of a texture created by [createTarget]: [LinearFilter] for
    minification and magnification, [ClampToEdgeWrapping] on both axes.  The
    four texels around the sample point are blended by the fractional parts of
    the unnormalised coordinate, and texel indices are clamped to the edge. *)
Definition texture2D (s : Sampler) (uv : Vec2) : Vec4 :=
  let n := s_res s in
  let px := v2x uv * IZR n - 0.5 in
  let py := v2y uv * IZR n - 0.5 in
  let i0 := Zfloor px in
  let j0 := Zfloor py in
  let fx := px - IZR i0 in
  let fy := py - IZR j0 in
  let t i j := s_img s (clampZ n i) (clampZ n j) in
  mix4 (mix4 (t i0 j0) (t (i0 + 1)%Z j0) fx)
       (mix4 (t i0 (j0 + 1)%Z) (t (i0 + 1)%Z (j0 + 1)%Z) fx) fy.

(** The fragment coordinate [vUv] interpolated by [BASE_VERTEX_SHADER] over
    the full-screen quad, at the centre of pixel [(i, j)] of a [res] x [res]
    render target. *)
Definition fragCoord (res : Z) (i j : Z) : Vec2 :=
  vec2 ((IZR i + 0.5) / IZR res) ((IZR j + 0.5) / IZR res).

(** One full-screen draw: the fragment shader runs once per pixel. *)
Definition renderQuad (res : Z) (frag : Vec2 -> Vec4) : Image :=
  fun i j => frag (fragCoord res i j).

(* ===================================================================== *)
(** ** The fragment shaders of [src/constants.ts] *)
(* ===================================================================== *)

(** [ADVECTION_SHADER]. *)
Definition ADVECTION_SHADER (uVelocity uSource : Sampler) (texelSize : Vec2)
    (dt dissipation : R) (vUv : Vec2) : Vec4 :=
  let vel := xy (texture2D uVelocity vUv) in
  let coord := vec2 (v2x vUv - dt * v2x vel * v2x texelSize)
                    (v2y vUv - dt * v2y vel * v2y texelSize) in
  scale4 dissipation (texture2D uSource coord).

(** [SPLAT_SHADER]. *)
Definition SPLAT_SHADER (uTarget : Sampler) (aspectRatio : R) (color : Vec3)
    (point : Vec2) (radius : R) (vUv : Vec2) : Vec4 :=
  let p := sub2 vUv point in
  let p := vec2 (v2x p * aspectRatio) (v2y p) in
  let splat := scale3 (exp (- dot2 p p / radius)) color in
  let base := xyz (texture2D uTarget vUv) in
  let out := add3 base splat in
  vec4 (v3x out) (v3y out) (v3z out) 1.

(** [DIVERGENCE_SHADER].  The four boundary tests compare the fragment's own
    coordinate [vUv] with 0 and 1, as the source does. *)
Definition DIVERGENCE_SHADER (uVelocity : Sampler) (texelSize : Vec2)
    (vUv : Vec2) : Vec4 :=
  let L := v4x (texture2D uVelocity (sub2 vUv (vec2 (v2x texelSize) 0))) in
  let R := v4x (texture2D uVelocity (add2 vUv (vec2 (v2x texelSize) 0))) in
  let T := v4y (texture2D uVelocity (add2 vUv (vec2 0 (v2y texelSize)))) in
  let B := v4y (texture2D uVelocity (sub2 vUv (vec2 0 (v2y texelSize)))) in
  let C := xy (texture2D uVelocity vUv) in
  let L := if Rltb (v2x vUv) 0 then - v2x C else L in
  let R := if Rgtb (v2x vUv) 1 then - v2x C else R in
  let T := if Rgtb (v2y vUv) 1 then - v2y C else T in
  let B := if Rltb (v2y vUv) 0 then - v2y C else B in
  let div := 0.5 * (R - L + T - B) in
  vec4 div 0 0 1.

(** [PRESSURE_SHADER]. *)
Definition PRESSURE_SHADER (uPressure uDivergence : Sampler) (texelSize : Vec2)
    (vUv : Vec2) : Vec4 :=
  let L := v4x (texture2D uPressure (sub2 vUv (vec2 (v2x texelSize) 0))) in
  let R := v4x (texture2D uPressure (add2 vUv (vec2 (v2x texelSize) 0))) in
  let T := v4x (texture2D uPressure (add2 vUv (vec2 0 (v2y texelSize)))) in
  let B := v4x (texture2D uPressure (sub2 vUv (vec2 0 (v2y texelSize)))) in
  let divergence := v4x (texture2D uDivergence vUv) in
  let pressure := (L + R + B + T - divergence) * 0.25 in
  vec4 pressure 0 0 1.

(** [GRADIENT_SUBTRACT_SHADER]. *)
Definition GRADIENT_SUBTRACT_SHADER (uPressure uVelocity : Sampler)
    (texelSize : Vec2) (vUv : Vec2) : Vec4 :=
  let L := v4x (texture2D uPressure (sub2 vUv (vec2 (v2x texelSize) 0))) in
  let R := v4x (texture2D uPressure (add2 vUv (vec2 (v2x texelSize) 0))) in
  let T := v4x (texture2D uPressure (add2 vUv (vec2 0 (v2y texelSize)))) in
  let B := v4x (texture2D uPressure (sub2 vUv (vec2 0 (v2y texelSize)))) in
  let velocity := xy (texture2D uVelocity vUv) in
  let velocity := sub2 velocity (vec2 (R - L) (T - B)) in
  vec4 (v2x velocity) (v2y velocity) 0 1.

(* ===================================================================== *)
(** ** Render targets, materials and the GPU state *)
(* ===================================================================== *)

Definition simRes : Z := 256.

Definition dyeRes : Z := 1024.

(** The seven render targets allocated by [createTarget]: two per ping-pong
    array and the single divergence target. *)
Inductive Target :=
| Velocity0 | Velocity1 | Density0 | Density1 | Pressure0 | Pressure1
| Divergence.

Definition Target_eq_dec (a b : Target) : {a = b} + {a <> b}.
Proof. decide equality. Defined.

Definition targetRes (t : Target) : Z :=
  match t with
  | Density0 | Density1 => dyeRes
  | _ => simRes
  end.

Inductive Material :=
| AdvectionMat | SplatMat | DivergenceMat | PressureMat | GradientSubtractMat.

(** Uniforms of each [THREE.ShaderMaterial]; a texture uniform holds the
    texture of a render target, or [null]. *)
Record AdvectionUniforms := mkAdvectionUniforms {
  adv_uVelocity : option Target; adv_uSource : option Target;
  adv_texelSize : Vec2; adv_dt : R; adv_dissipation : R }.

Record SplatUniforms := mkSplatUniforms {
  sp_uTarget : option Target; sp_aspectRatio : R; sp_color : Vec3;
  sp_point : Vec2; sp_radius : R }.

Record DivergenceUniforms := mkDivergenceUniforms {
  dv_uVelocity : option Target; dv_texelSize : Vec2 }.

Record PressureUniforms := mkPressureUniforms {
  pr_uPressure : option Target; pr_uDivergence : option Target;
  pr_texelSize : Vec2 }.

Record GradientSubtractUniforms := mkGradientSubtractUniforms {
  gs_uPressure : option Target; gs_uVelocity : option Target;
  gs_texelSize : Vec2 }.

Record DisplayUniforms := mkDisplayUniforms {
  ds_uTexture : option Target; ds_uVelocity : option Target }.

(** One [gl.render] issued by [renderPass]: the target bound, the material
    drawn and the textures bound to its sampler uniforms at that moment. *)
Record RenderCall := mkRenderCall {
  rc_target : Target; rc_material : Material;
  rc_textures : list (option Target) }.

(** One call of [applySplat], with its arguments. *)
Record Splat := mkSplat {
  splat_x : R; splat_y : R; splat_dx : R; splat_dy : R;
  splat_color : Vec3; splat_radius : R }.

(** A ping-pong array [useRef([a, b])]: index 0 is read, index 1 is written. *)
Definition PingPong := (Target * Target)%type.

Definition reverse (p : PingPong) : PingPong := (snd p, fst p).

Record Gpu := mkGpu {
  store : Target -> Image;            (* texel contents of every target *)
  velocity : PingPong;
  density : PingPong;
  pressure : PingPong;
  advectionMat : AdvectionUniforms;
  splatMat : SplatUniforms;
  divergenceMat : DivergenceUniforms;
  pressureMat : PressureUniforms;
  gradientSubtractMat : GradientSubtractUniforms;
  displayMat : DisplayUniforms;
  renders : list RenderCall;          (* every gl.render so far, oldest first *)
  splats : list Splat                 (* every applySplat so far, oldest first *)
}.

Definition set_store f g :=
  mkGpu f (velocity g) (density g) (pressure g) (advectionMat g) (splatMat g)
    (divergenceMat g) (pressureMat g) (gradientSubtractMat g) (displayMat g)
    (renders g) (splats g).

Definition set_velocity p g :=
  mkGpu (store g) p (density g) (pressure g) (advectionMat g) (splatMat g)
    (divergenceMat g) (pressureMat g) (gradientSubtractMat g) (displayMat g)
    (renders g) (splats g).

Definition set_density p g :=
  mkGpu (store g) (velocity g) p (pressure g) (advectionMat g) (splatMat g)
    (divergenceMat g) (pressureMat g) (gradientSubtractMat g) (displayMat g)
    (renders g) (splats g).

Definition set_pressure p g :=
  mkGpu (store g) (velocity g) (density g) p (advectionMat g) (splatMat g)
    (divergenceMat g) (pressureMat g) (gradientSubtractMat g) (displayMat g)
    (renders g) (splats g).

Definition set_advectionMat u g :=
  mkGpu (store g) (velocity g) (density g) (pressure g) u (splatMat g)
    (divergenceMat g) (pressureMat g) (gradientSubtractMat g) (displayMat g)
    (renders g) (splats g).

Definition set_splatMat u g :=
  mkGpu (store g) (velocity g) (density g) (pressure g) (advectionMat g) u
    (divergenceMat g) (pressureMat g) (gradientSubtractMat g) (displayMat g)
    (renders g) (splats g).

Definition set_divergenceMat u g :=
  mkGpu (store g) (velocity g) (density g) (pressure g) (advectionMat g)
    (splatMat g) u (pressureMat g) (gradientSubtractMat g) (displayMat g)
    (renders g) (splats g).

Definition set_pressureMat u g :=
  mkGpu (store g) (velocity g) (density g) (pressure g) (advectionMat g)
    (splatMat g) (divergenceMat g) u (gradientSubtractMat g) (displayMat g)
    (renders g) (splats g).

Definition set_gradientSubtractMat u g :=
  mkGpu (store g) (velocity g) (density g) (pressure g) (advectionMat g)
    (splatMat g) (divergenceMat g) (pressureMat g) u (displayMat g)
    (renders g) (splats g).

Definition set_displayMat u g :=
  mkGpu (store g) (velocity g) (density g) (pressure g) (advectionMat g)
    (splatMat g) (divergenceMat g) (pressureMat g) (gradientSubtractMat g) u
    (renders g) (splats g).

Definition set_renders l g :=
  mkGpu (store g) (velocity g) (density g) (pressure g) (advectionMat g)
    (splatMat g) (divergenceMat g) (pressureMat g) (gradientSubtractMat g)
    (displayMat g) l (splats g).

Definition set_splats l g :=
  mkGpu (store g) (velocity g) (density g) (pressure g) (advectionMat g)
    (splatMat g) (divergenceMat g) (pressureMat g) (gradientSubtractMat g)
    (displayMat g) (renders g) l.

(** Writing one target leaves the others as they are. *)
Definition upd (st : Target -> Image) (t : Target) (img : Image)
  : Target -> Image :=
  fun t' => if Target_eq_dec t' t then img else st t'.

(** The sampler a texture uniform denotes.  An unbound sampler reads opaque
    black; no pass of this program draws with one. *)
Definition samplerOf (st : Target -> Image) (u : option Target) : Sampler :=
  match u with
  | Some t => mkSampler (targetRes t) (st t)
  | None => mkSampler 1 (fun _ _ => vec4 0 0 0 1)
  end.

(** The fragment program a material runs, with its uniforms as they are now. *)
Definition fragment (g : Gpu) (m : Material) : Vec2 -> Vec4 :=
  match m with
  | AdvectionMat =>
      let u := advectionMat g in
      ADVECTION_SHADER (samplerOf (store g) (adv_uVelocity u))
        (samplerOf (store g) (adv_uSource u)) (adv_texelSize u) (adv_dt u)
        (adv_dissipation u)
  | SplatMat =>
      let u := splatMat g in
      SPLAT_SHADER (samplerOf (store g) (sp_uTarget u)) (sp_aspectRatio u)
        (sp_color u) (sp_point u) (sp_radius u)
  | DivergenceMat =>
      let u := divergenceMat g in
      DIVERGENCE_SHADER (samplerOf (store g) (dv_uVelocity u)) (dv_texelSize u)
  | PressureMat =>
      let u := pressureMat g in
      PRESSURE_SHADER (samplerOf (store g) (pr_uPressure u))
        (samplerOf (store g) (pr_uDivergence u)) (pr_texelSize u)
  | GradientSubtractMat =>
      let u := gradientSubtractMat g in
      GRADIENT_SUBTRACT_SHADER (samplerOf (store g) (gs_uPressure u))
        (samplerOf (store g) (gs_uVelocity u)) (gs_texelSize u)
  end.

Definition boundTextures (g : Gpu) (m : Material) : list (option Target) :=
  match m with
  | AdvectionMat => [adv_uVelocity (advectionMat g); adv_uSource (advectionMat g)]
  | SplatMat => [sp_uTarget (splatMat g)]
  | DivergenceMat => [dv_uVelocity (divergenceMat g)]
  | PressureMat => [pr_uPressure (pressureMat g); pr_uDivergence (pressureMat g)]
  | GradientSubtractMat =>
      [gs_uPressure (gradientSubtractMat g); gs_uVelocity (gradientSubtractMat g)]
  end.

(** [renderPass(target, material)]: draw the full-screen quad with [material]
    into [target]. *)
Definition renderPass (target : Target) (material : Material) (g : Gpu) : Gpu :=
  let img := renderQuad (targetRes target) (fragment g material) in
  set_renders
    (renders g ++ [mkRenderCall target material (boundTextures g material)])
    (set_store (upd (store g) target img) g).

(** [for (let i = 0; i < n; i++) body]. *)
Fixpoint forLoop {S : Type} (n : nat) (body : nat -> S -> S) (s : S) : S :=
  match n with
  | O => s
  | Datatypes.S k => body k (forLoop k body s)
  end.

(* ===================================================================== *)
(** ** [applySplat] and the solver passes of [useFrame] *)
(* ===================================================================== *)

(** [size] of [useThree()]: the canvas size in pixels. *)
Record Size := mkSize { width : R; height : R }.

Module FluidMode.
Inductive t := flux | ignite | frost | mist.
End FluidMode.

(** [applySplat(x, y, dx, dy, color, radius)]. *)
Definition applySplat (size : Size) (x y dx dy : R) (color : Vec3) (radius : R)
    (g : Gpu) : Gpu :=
  let g := set_splats (splats g ++ [mkSplat x y dx dy color radius]) g in
  let g := set_splatMat
             (mkSplatUniforms (Some (fst (velocity g)))
                (width size / height size)
                (vec3 dx (- dy) 1)
                (vec2 x (1 - y))
                radius) g in
  let g := renderPass (snd (velocity g)) SplatMat g in
  let g := set_velocity (reverse (velocity g)) g in
  let g := set_splatMat
             (mkSplatUniforms (Some (fst (density g)))
                (sp_aspectRatio (splatMat g))
                color
                (sp_point (splatMat g))
                (sp_radius (splatMat g))) g in
  let g := renderPass (snd (density g)) SplatMat g in
  set_density (reverse (density g)) g.

Definition velocityDissipation (mode : FluidMode.t) : R :=
  match mode with
  | FluidMode.ignite => 0.98
  | FluidMode.mist => 0.99
  | FluidMode.frost => 0.95
  | FluidMode.flux => 0.99
  end.

Definition densityDissipation (mode : FluidMode.t) : R :=
  match mode with
  | FluidMode.ignite => 0.92
  | FluidMode.mist => 0.98
  | FluidMode.frost => 0.97
  | FluidMode.flux => 0.97
  end.

Definition texel (res : Z) : Vec2 := vec2 (1 / IZR res) (1 / IZR res).

(** 3. Advection (Velocity). *)
Definition advectVelocity (mode : FluidMode.t) (g : Gpu) : Gpu :=
  let g := set_advectionMat
             (mkAdvectionUniforms (Some (fst (velocity g)))
                (Some (fst (velocity g))) (texel simRes)
                (adv_dt (advectionMat g)) (velocityDissipation mode)) g in
  let g := renderPass (snd (velocity g)) AdvectionMat g in
  set_velocity (reverse (velocity g)) g.

(** 4. Advection (Density). *)
Definition advectDensity (mode : FluidMode.t) (g : Gpu) : Gpu :=
  let g := set_advectionMat
             (mkAdvectionUniforms (Some (fst (velocity g)))
                (Some (fst (density g))) (texel dyeRes)
                (adv_dt (advectionMat g)) (densityDissipation mode)) g in
  let g := renderPass (snd (density g)) AdvectionMat g in
  set_density (reverse (density g)) g.

(** 5. Divergence. *)
Definition divergencePass (g : Gpu) : Gpu :=
  let g := set_divergenceMat
             (mkDivergenceUniforms (Some (fst (velocity g))) (texel simRes)) g in
  renderPass Divergence DivergenceMat g.

(** The body of the pressure loop. *)
Definition pressureIteration (g : Gpu) : Gpu :=
  let g := set_pressureMat
             (mkPressureUniforms (Some (fst (pressure g)))
                (pr_uDivergence (pressureMat g))
                (pr_texelSize (pressureMat g))) g in
  let g := renderPass (snd (pressure g)) PressureMat g in
  set_pressure (reverse (pressure g)) g.

(** 6. Pressure. *)
Definition pressurePass (g : Gpu) : Gpu :=
  let g := set_pressureMat
             (mkPressureUniforms (pr_uPressure (pressureMat g))
                (Some Divergence) (texel simRes)) g in
  forLoop 20 (fun _ => pressureIteration) g.

(** 7. Gradient Subtract. *)
Definition gradientSubtract (g : Gpu) : Gpu :=
  let g := set_gradientSubtractMat
             (mkGradientSubtractUniforms (Some (fst (pressure g)))
                (Some (fst (velocity g))) (texel simRes)) g in
  let g := renderPass (snd (velocity g)) GradientSubtractMat g in
  set_velocity (reverse (velocity g)) g.

(** 8. Render to Screen: the display material reads the density texture. *)
Definition bindDisplay (g : Gpu) : Gpu :=
  set_displayMat
    (mkDisplayUniforms (Some (fst (density g))) (ds_uVelocity (displayMat g))) g.

(** Steps 3 to 8 of [useFrame]. *)
Definition solverStep (mode : FluidMode.t) (g : Gpu) : Gpu :=
  bindDisplay
    (gradientSubtract
       (pressurePass
          (divergencePass
             (advectDensity mode (advectVelocity mode g))))).

(** The GPU state when the component mounts: targets freshly allocated (all
    texels zero), arrays in creation order, uniforms as constructed. *)
Definition gpu0 : Gpu :=
  mkGpu (fun _ _ _ => vec4 0 0 0 0)
    (Velocity0, Velocity1) (Density0, Density1) (Pressure0, Pressure1)
    (mkAdvectionUniforms None None (vec2 0 0) 0.016 1)
    (mkSplatUniforms None 1 (vec3 0 0 0) (vec2 0 0) 0.0025)
    (mkDivergenceUniforms None (vec2 0 0))
    (mkPressureUniforms None None (vec2 0 0))
    (mkGradientSubtractUniforms None None (vec2 0 0))
    (mkDisplayUniforms None None)
    [] [].

(** The arrays always hold their own two targets, in one order or the other. *)
Definition isPair (a b : Target) (p : PingPong) : Prop :=
  p = (a, b) \/ p = (b, a).

Definition arraysOk (g : Gpu) : Prop :=
  isPair Velocity0 Velocity1 (velocity g) /\
  isPair Density0 Density1 (density g) /\
  isPair Pressure0 Pressure1 (pressure g).

(* ===================================================================== *)
(** ** The audio service *)
(* ===================================================================== *)

(** *** Web Audio parameters

    An [AudioParam] is its intrinsic value and its automation timeline.  The
    timeline operations follow the Web Audio API: an event is placed after the
    events already scheduled at the same or an earlier time, and
    [cancelScheduledValues(t)] removes the events scheduled at [t] or later. *)

Inductive ParamEvent :=
| SetValueAtTime (value startTime : R)
| SetTargetAtTime (target startTime timeConstant : R).

Definition eventTime (e : ParamEvent) : R :=
  match e with
  | SetValueAtTime _ t => t
  | SetTargetAtTime _ t _ => t
  end.

Record AudioParam := mkParam { p_value : R; p_events : list ParamEvent }.

Fixpoint insertEvent (e : ParamEvent) (l : list ParamEvent) : list ParamEvent :=
  match l with
  | [] => [e]
  | e' :: l' =>
      if Rltb (eventTime e) (eventTime e') then e :: l
      else e' :: insertEvent e l'
  end.

(** [param.value = v]. *)
Definition assignValue (v : R) (p : AudioParam) : AudioParam :=
  mkParam v (p_events p).

Definition setValueAtTime (v t : R) (p : AudioParam) : AudioParam :=
  mkParam (p_value p) (insertEvent (SetValueAtTime v t) (p_events p)).

Definition setTargetAtTime (v t tc : R) (p : AudioParam) : AudioParam :=
  mkParam (p_value p) (insertEvent (SetTargetAtTime v t tc) (p_events p)).

Definition cancelScheduledValues (t : R) (p : AudioParam) : AudioParam :=
  mkParam (p_value p) (filter (fun e => Rltb (eventTime e) t) (p_events p)).

(** *** Nodes *)

Inductive OscillatorType := sine | square | sawtooth | triangle | custom.

Inductive BiquadFilterType :=
| lowpass | highpass | bandpass | lowshelf | highshelf | peaking | notch
| allpass.

Record OscillatorNode := mkOscillatorNode {
  osc_type : OscillatorType;
  osc_frequency : AudioParam;
  osc_detune : AudioParam;
  osc_startTime : R                 (* argument of [osc.start] *)
}.

Record BiquadFilterNode := mkBiquadFilterNode {
  bq_type : BiquadFilterType; bq_frequency : AudioParam; bq_Q : AudioParam }.

Record GainNode := mkGainNode { gain : AudioParam }.

Record DelayNode := mkDelayNode { delayTime : AudioParam }.

Record AnalyserNode := mkAnalyserNode { fftSize : nat }.

Definition frequencyBinCount (a : AnalyserNode) : nat := Nat.div2 (fftSize a).

Record AudioContext := mkAudioContext { currentTime : R }.

(** Nodes as [ctx.create...()] returns them. *)
Definition createGain : GainNode := mkGainNode (mkParam 1 []).

Definition createBiquadFilter : BiquadFilterNode :=
  mkBiquadFilterNode lowpass (mkParam 350 []) (mkParam 1 []).

Definition createDelay : DelayNode := mkDelayNode (mkParam 0 []).

Definition createOscillator : OscillatorNode :=
  mkOscillatorNode sine (mkParam 440 []) (mkParam 0 []) 0.

(** *** Instrument presets *)

Module InstrumentType.
Inductive t := flux | drone | spark | orbit.
End InstrumentType.

Record OscillatorConfig := mkOscillatorConfig {
  oc_type : OscillatorType; oc_freq : R; oc_detune : R }.

Record FilterConfig := mkFilterConfig {
  fc_type : BiquadFilterType; fc_baseFreq : R; fc_modFreq : R; fc_Q : R }.

Record GainConfig := mkGainConfig {
  gc_base : R; gc_mod : R; gc_attack : R }.

Record DelayConfig := mkDelayConfig {
  dc_time : R; dc_feedback : R; dc_mix : R }.

Record InstrumentConfig := mkInstrumentConfig {
  oscillators : list OscillatorConfig;
  filter_ : FilterConfig;
  gain_ : GainConfig;
  delay_ : DelayConfig }.

Definition INSTRUMENTS (type : InstrumentType.t) : InstrumentConfig :=
  match type with
  | InstrumentType.flux =>
      mkInstrumentConfig
        [ mkOscillatorConfig sine 261.63 0;
          mkOscillatorConfig sine 293.66 5;
          mkOscillatorConfig triangle 392.00 (-5) ]
        (mkFilterConfig lowpass 200 2500 0.5)
        (mkGainConfig 0.05 0.35 0.3)
        (mkDelayConfig 0.4 0.3 0.25)
  | InstrumentType.drone =>
      mkInstrumentConfig
        [ mkOscillatorConfig sawtooth 65.41 0;
          mkOscillatorConfig sawtooth 130.81 8;
          mkOscillatorConfig square 98.00 (-8) ]
        (mkFilterConfig lowpass 80 800 2.0)
        (mkGainConfig 0.1 0.3 0.1)
        (mkDelayConfig 0.2 0.4 0.1)
  | InstrumentType.spark =>
      mkInstrumentConfig
        [ mkOscillatorConfig sine 523.25 0;
          mkOscillatorConfig sine 659.25 0;
          mkOscillatorConfig sine 987.77 0 ]
        (mkFilterConfig highpass 2000 (-1500) 1.0)
        (mkGainConfig 0.0 0.2 0.05)
        (mkDelayConfig 0.25 0.6 0.4)
  | InstrumentType.orbit =>
      mkInstrumentConfig
        [ mkOscillatorConfig sine 130.81 0;
          mkOscillatorConfig sine 261.63 2;
          mkOscillatorConfig sine 523.25 (-2) ]
        (mkFilterConfig bandpass 300 1000 5.0)
        (mkGainConfig 0.05 0.4 0.5)
        (mkDelayConfig 0.6 0.5 0.3)
  end.

(** *** The service

    The fields of [AudioService] that the synth and the analyser use.  The
    music player ([playMusic], [toggleMusicPause]) and [resume]/[suspend] act
    on a media element and on the context's run state only; they are not
    embedded.  The wiring of the graph ([connect]) carries no state of its own
    and is left out. *)
Record AudioService := mkAudioService {
  ctx : option AudioContext;
  oscs : list OscillatorNode;
  mainFilter : option BiquadFilterNode;
  mainGain : option GainNode;
  delayNode : option DelayNode;
  delayGain : option GainNode;
  delayFeedback : option GainNode;
  globalGain : option GainNode;
  analyser : option AnalyserNode;
  dataArray : option (list byte);
  currentType : InstrumentType.t;
  masterVolume : R;
  isMuted : bool;
  isInitialized : bool
}.

(** The field initialisers of the class. *)
Definition newAudioService : AudioService :=
  mkAudioService None [] None None None None None None None None
    InstrumentType.flux 0.5 false false.

Definition set_ctx v s :=
  mkAudioService v (oscs s) (mainFilter s) (mainGain s) (delayNode s)
    (delayGain s) (delayFeedback s) (globalGain s) (analyser s) (dataArray s)
    (currentType s) (masterVolume s) (isMuted s) (isInitialized s).

Definition set_oscs v s :=
  mkAudioService (ctx s) v (mainFilter s) (mainGain s) (delayNode s)
    (delayGain s) (delayFeedback s) (globalGain s) (analyser s) (dataArray s)
    (currentType s) (masterVolume s) (isMuted s) (isInitialized s).

Definition set_mainFilter v s :=
  mkAudioService (ctx s) (oscs s) v (mainGain s) (delayNode s)
    (delayGain s) (delayFeedback s) (globalGain s) (analyser s) (dataArray s)
    (currentType s) (masterVolume s) (isMuted s) (isInitialized s).

Definition set_mainGain v s :=
  mkAudioService (ctx s) (oscs s) (mainFilter s) v (delayNode s)
    (delayGain s) (delayFeedback s) (globalGain s) (analyser s) (dataArray s)
    (currentType s) (masterVolume s) (isMuted s) (isInitialized s).

Definition set_delayNode v s :=
  mkAudioService (ctx s) (oscs s) (mainFilter s) (mainGain s) v
    (delayGain s) (delayFeedback s) (globalGain s) (analyser s) (dataArray s)
    (currentType s) (masterVolume s) (isMuted s) (isInitialized s).

Definition set_delayGain v s :=
  mkAudioService (ctx s) (oscs s) (mainFilter s) (mainGain s) (delayNode s)
    v (delayFeedback s) (globalGain s) (analyser s) (dataArray s)
    (currentType s) (masterVolume s) (isMuted s) (isInitialized s).

Definition set_delayFeedback v s :=
  mkAudioService (ctx s) (oscs s) (mainFilter s) (mainGain s) (delayNode s)
    (delayGain s) v (globalGain s) (analyser s) (dataArray s)
    (currentType s) (masterVolume s) (isMuted s) (isInitialized s).

Definition set_globalGain v s :=
  mkAudioService (ctx s) (oscs s) (mainFilter s) (mainGain s) (delayNode s)
    (delayGain s) (delayFeedback s) v (analyser s) (dataArray s)
    (currentType s) (masterVolume s) (isMuted s) (isInitialized s).

Definition set_analyser v s :=
  mkAudioService (ctx s) (oscs s) (mainFilter s) (mainGain s) (delayNode s)
    (delayGain s) (delayFeedback s) (globalGain s) v (dataArray s)
    (currentType s) (masterVolume s) (isMuted s) (isInitialized s).

Definition set_dataArray v s :=
  mkAudioService (ctx s) (oscs s) (mainFilter s) (mainGain s) (delayNode s)
    (delayGain s) (delayFeedback s) (globalGain s) (analyser s) v
    (currentType s) (masterVolume s) (isMuted s) (isInitialized s).

Definition set_currentType v s :=
  mkAudioService (ctx s) (oscs s) (mainFilter s) (mainGain s) (delayNode s)
    (delayGain s) (delayFeedback s) (globalGain s) (analyser s) (dataArray s)
    v (masterVolume s) (isMuted s) (isInitialized s).

Definition set_masterVolume v s :=
  mkAudioService (ctx s) (oscs s) (mainFilter s) (mainGain s) (delayNode s)
    (delayGain s) (delayFeedback s) (globalGain s) (analyser s) (dataArray s)
    (currentType s) v (isMuted s) (isInitialized s).

Definition set_isMuted v s :=
  mkAudioService (ctx s) (oscs s) (mainFilter s) (mainGain s) (delayNode s)
    (delayGain s) (delayFeedback s) (globalGain s) (analyser s) (dataArray s)
    (currentType s) (masterVolume s) v (isInitialized s).

Definition set_isInitialized v s :=
  mkAudioService (ctx s) (oscs s) (mainFilter s) (mainGain s) (delayNode s)
    (delayGain s) (delayFeedback s) (globalGain s) (analyser s) (dataArray s)
    (currentType s) (masterVolume s) (isMuted s) v.

(** The audio clock is driven by the platform: [ctx.currentTime] advances
    between calls. *)
Definition advanceClock (dt : R) (s : AudioService) : AudioService :=
  match ctx s with
  | Some c => set_ctx (Some (mkAudioContext (currentTime c + dt))) s
  | None => s
  end.

(** [getAudioData()].  [spectrum] is what the analyser would report now:
    [getByteFrequencyData] overwrites the bins of [dataArray] with it. *)
Definition getAudioData (spectrum : nat -> byte) (s : AudioService)
  : option (list byte) * AudioService :=
  match analyser s, dataArray s with
  | Some _, Some d =>
      let d' := map spectrum (seq 0 (List.length d)) in
      (Some d', set_dataArray (Some d') s)
  | _, _ => (None, s)
  end.

(** [setMute(mute)]. *)
Definition setMute (mute : bool) (s : AudioService) : AudioService :=
  let s := set_isMuted mute s in
  match globalGain s, ctx s with
  | Some gg, Some c =>
      let target := if mute then 0 else masterVolume s in
      set_globalGain
        (Some (mkGainNode (setTargetAtTime target (currentTime c) 0.1 (gain gg))))
        s
  | _, _ => s
  end.

(** [setMasterVolume(vol)]. *)
Definition setMasterVolume (vol : R) (s : AudioService) : AudioService :=
  let s := set_masterVolume vol s in
  match globalGain s, ctx s with
  | Some gg, Some c =>
      if negb (isMuted s) then
        set_globalGain
          (Some (mkGainNode (setTargetAtTime vol (currentTime c) 0.1 (gain gg))))
          s
      else s
  | _, _ => s
  end.

(** The oscillator [setInstrument] creates for one entry of the preset. *)
Definition newOscillator (now : R) (oscConfig : OscillatorConfig)
  : OscillatorNode :=
  let osc := createOscillator in
  mkOscillatorNode (oc_type oscConfig)
    (assignValue (oc_freq oscConfig) (osc_frequency osc))
    (assignValue (oc_detune oscConfig) (osc_detune osc))
    now.

(** [setInstrument(type)].  The result is [None] where a non-null assertion
    ([this.mainFilter!] and the like) would fail at run time. *)
Definition setInstrument (type : InstrumentType.t) (s : AudioService)
  : option AudioService :=
  match ctx s with
  | None => Some (set_currentType type s)
  | Some c =>
      if negb (isInitialized s) then Some (set_currentType type s)
      else
        let s := set_currentType type s in
        let config := INSTRUMENTS type in
        let now := currentTime c in
        (* 1. stop and disconnect the old oscillators *)
        let s := set_oscs [] s in
        match mainFilter s, mainGain s, delayNode s, delayFeedback s,
              delayGain s with
        | Some mf, Some mg, Some dn, Some df, Some dg =>
            (* 2. create the new oscillators *)
            let s := set_oscs
                       (fold_left (fun acc oc => acc ++ [newOscillator now oc])
                          (oscillators config) (oscs s)) s in
            (* 3. filter settings *)
            let s := set_mainFilter
                       (Some (mkBiquadFilterNode
                          (fc_type (filter_ config))
                          (setValueAtTime (fc_baseFreq (filter_ config)) now
                             (cancelScheduledValues now (bq_frequency mf)))
                          (assignValue (fc_Q (filter_ config)) (bq_Q mf)))) s in
            (* 4. gain reset to silence *)
            let s := set_mainGain
                       (Some (mkGainNode
                          (setValueAtTime 0 now
                             (cancelScheduledValues now (gain mg))))) s in
            (* 5. delay settings *)
            let s := set_delayNode
                       (Some (mkDelayNode
                          (setValueAtTime (dc_time (delay_ config)) now
                             (delayTime dn)))) s in
            let s := set_delayFeedback
                       (Some (mkGainNode
                          (setValueAtTime (dc_feedback (delay_ config)) now
                             (gain df)))) s in
            let s := set_delayGain
                       (Some (mkGainNode
                          (setValueAtTime (dc_mix (delay_ config)) now
                             (gain dg)))) s in
            Some s
        | _, _, _, _, _ => None
        end
  end.

(** [init()]. *)
Definition init (s : AudioService) : option AudioService :=
  if isInitialized s then Some s
  else
    let s := set_ctx (Some (mkAudioContext 0)) s in
    let s := set_globalGain
               (Some (mkGainNode
                  (assignValue (if isMuted s then 0 else masterVolume s)
                     (gain createGain)))) s in
    let a := mkAnalyserNode 256 in       (* createAnalyser(); fftSize = 256 *)
    let s := set_analyser (Some a) s in
    let s := set_dataArray (Some (repeat x00 (frequencyBinCount a))) s in
    let s := set_mainFilter (Some createBiquadFilter) s in
    let s := set_mainGain (Some createGain) s in
    let s := set_delayNode (Some createDelay) s in
    let s := set_delayGain (Some createGain) s in
    let s := set_delayFeedback (Some createGain) s in
    let s := set_isInitialized true s in
    setInstrument (currentType s) s.

(** [forEach((x, i) => ...)] rebuilding each element from itself and its index. *)
Fixpoint mapi {A B : Type} (f : A -> nat -> B) (l : list A) (i : nat) : list B :=
  match l with
  | [] => []
  | a :: l' => f a i :: mapi f l' (Datatypes.S i)
  end.

(** The release time constant of [update]. *)
Definition releaseTime : R := 0.5.

(** [update(velocity)].  The bank has one oscillator per entry of the preset in
    force, so [oscillators[i]] is always defined; the default of [nth] is
    never read. *)
Definition update (velocity : R) (s : AudioService) : AudioService :=
  match ctx s, mainFilter s, mainGain s with
  | Some c, Some mf, Some mg =>
      if negb (isInitialized s) then s
      else
        let time := currentTime c in
        let config := INSTRUMENTS (currentType s) in
        let intensity := Rmin velocity 1.2 in
        let isActive := Rgtb intensity 0.001 in
        (* 1. gain *)
        let targetGain :=
          if isActive then gc_base (gain_ config) + intensity * gc_mod (gain_ config)
          else 0 in
        let rampTime := if isActive then gc_attack (gain_ config) else releaseTime in
        let s := set_mainGain
                   (Some (mkGainNode
                      (setTargetAtTime targetGain time rampTime (gain mg)))) s in
        (* 2. filter *)
        let targetFreq :=
          if isActive
          then fc_baseFreq (filter_ config) + intensity * fc_modFreq (filter_ config)
          else fc_baseFreq (filter_ config) in
        let safeFreq := Rmax 20 (Rmin 20000 targetFreq) in
        let s := set_mainFilter
                   (Some (mkBiquadFilterNode (bq_type mf)
                      (setTargetAtTime safeFreq time 0.2 (bq_frequency mf))
                      (bq_Q mf))) s in
        (* 3. detune wobble *)
        let detuneAmount := intensity * 10 in
        set_oscs
          (mapi (fun osc i =>
                   let dir := if Nat.even i then 1 else -1 in
                   let baseDetune :=
                     oc_detune (nth i (oscillators (INSTRUMENTS (currentType s)))
                                  (mkOscillatorConfig sine 0 0)) in
                   mkOscillatorNode (osc_type osc) (osc_frequency osc)
                     (setTargetAtTime (baseDetune + detuneAmount * dir) time 0.5
                        (osc_detune osc))
                     (osc_startTime osc))
             (oscs s) 0%nat) s
  | _, _, _ => s
  end.

(** The audio graph exists: what [init] establishes and every method keeps. *)
Definition initialized (s : AudioService) : Prop :=
  isInitialized s = true /\ ctx s <> None /\ mainFilter s <> None /\
  mainGain s <> None /\ delayNode s <> None /\ delayFeedback s <> None /\
  delayGain s <> None /\ globalGain s <> None.

(* ===================================================================== *)
(** ** The component state and the drivers of [useFrame] *)
(* ===================================================================== *)

(** [pointer.current]. *)
Record Pointer := mkPointer {
  ptr_x : R; ptr_y : R; ptr_dx : R; ptr_dy : R;
  ptr_moved : bool; ptr_down : bool }.

(** [wanderer.current]. *)
Record Wanderer := mkWanderer { wan_x : R; wan_y : R }.

(** One element of [ambienceAgents.current]. *)
Record Agent := mkAgent {
  ag_x : R; ag_y : R;
  xf1 : R; xf2 : R; yf1 : R; yf2 : R;
  px1 : R; px2 : R; py1 : R; py2 : R }.

(** The refs of the component, the audio service singleton, and the number of
    [Math.random()] draws made so far. *)
Record World := mkWorld {
  gpu : Gpu;
  pointer : Pointer;
  wanderer : Wanderer;
  lastBass : float;
  movementRef : R;
  ambienceAgents : list Agent;
  audioService : AudioService;
  randomDraws : nat
}.

Definition set_gpu v w :=
  mkWorld v (pointer w) (wanderer w) (lastBass w) (movementRef w)
    (ambienceAgents w) (audioService w) (randomDraws w).

Definition set_pointer v w :=
  mkWorld (gpu w) v (wanderer w) (lastBass w) (movementRef w)
    (ambienceAgents w) (audioService w) (randomDraws w).

Definition set_wanderer v w :=
  mkWorld (gpu w) (pointer w) v (lastBass w) (movementRef w)
    (ambienceAgents w) (audioService w) (randomDraws w).

Definition set_lastBass v w :=
  mkWorld (gpu w) (pointer w) (wanderer w) v (movementRef w)
    (ambienceAgents w) (audioService w) (randomDraws w).

Definition set_movementRef v w :=
  mkWorld (gpu w) (pointer w) (wanderer w) (lastBass w) v
    (ambienceAgents w) (audioService w) (randomDraws w).

Definition set_ambienceAgents v w :=
  mkWorld (gpu w) (pointer w) (wanderer w) (lastBass w) (movementRef w)
    v (audioService w) (randomDraws w).

Definition set_audioService v w :=
  mkWorld (gpu w) (pointer w) (wanderer w) (lastBass w) (movementRef w)
    (ambienceAgents w) v (randomDraws w).

Definition set_randomDraws v w :=
  mkWorld (gpu w) (pointer w) (wanderer w) (lastBass w) (movementRef w)
    (ambienceAgents w) (audioService w) v.

(** What one invocation of the frame callback receives from outside: the
    clock, the props and canvas size, and what the analyser reports. *)
Record Frame := mkFrame {
  elapsedTime : R;                   (* state.clock.elapsedTime *)
  delta : R;
  currentMode : FluidMode.t;         (* modeRef.current *)
  isMusicActive : bool;
  ambienceMode : option string;
  size : Size;
  spectrum : nat -> byte
}.

(** Truthiness of [ambienceMode]: neither null nor the empty string. *)
Definition truthy (s : option string) : bool :=
  match s with
  | Some str => negb (String.eqb str EmptyString)
  | None => false
  end.

(** A bin of the [Uint8Array] as a number. *)
Definition byteR (b : byte) : R := IZR (Z.of_N (Byte.to_N b)).

(** [Math.pow(x, y)] for a base [x >= 0] and an exponent [y > 0], the only use
    the drivers make of it. *)
Definition Math_pow (x y : R) : R :=
  if Req_dec_T x 0 then 0 else Rpower x y.

(** [x % 1.0]: the remainder has the sign of [x]. *)
Definition mod1 (x : R) : R :=
  if Rlt_dec x 0 then x + IZR (Zfloor (- x)) else x - IZR (Zfloor x).

(** [let s = 0; for (let i = 0; i < n; i++) s += audioData[i]].  The array has
    [frequencyBinCount] bins, so every index read is in range. *)
Definition sumBins (n : nat) (audioData : list byte) : R :=
  forLoop n (fun i s => s + byteR (nth i audioData x00)) 0.

(** A bin of the [Uint8Array] as the JavaScript number it is read as: the
    double of that integer. *)
Definition byteF (b : byte) : float :=
  PrimFloat.of_uint63 (Uint63.of_Z (Z.of_N (Byte.to_N b))).

(** [let bassSum = 0; for (let i = 0; i < 15; i++) bassSum += audioData[i]],
    in binary64. *)
Definition bassSumOf (audioData : list byte) : float :=
  forLoop 15 (fun i s => (s + byteF (nth i audioData x00))%float) 0%float.

(** [const bassAvg = bassSum / 15], in binary64: the quotient is rounded to
    the nearest double. *)
Definition bassAvgOf (audioData : list byte) : float :=
  (bassSumOf audioData / 15)%float.

Definition volAvgOf (audioData : list byte) : R :=
  sumBins (List.length audioData) audioData / INR (List.length audioData).

(** The pursuit target of an ambience agent at time [t]. *)
Definition ambienceTarget (t : R) (agent : Agent) : R * R :=
  (0.5 + sin (t * xf1 agent + px1 agent) * 0.35
       + sin (t * xf2 agent + px2 agent) * 0.20,
   0.5 + cos (t * yf1 agent + py1 agent) * 0.35
       + cos (t * yf2 agent + py2 agent) * 0.20).

(** The agent after the smooth-follow update of one frame. *)
Definition followTarget (t : R) (agent : Agent) : Agent :=
  let '(tx, ty) := ambienceTarget t agent in
  let dx := tx - ag_x agent in
  let dy := ty - ag_y agent in
  mkAgent (ag_x agent + dx * 0.015) (ag_y agent + dy * 0.015)
    (xf1 agent) (xf2 agent) (yf1 agent) (yf2 agent)
    (px1 agent) (px2 agent) (py1 agent) (py2 agent).

(** The palette of the ambience branch. *)
Definition ambienceColor (mode : string) (t : R) (i : nat) : Vec3 :=
  let cycle := (i mod 4)%nat in
  if String.eqb mode "forest" then
    let color :=
      match cycle with
      | 0%nat => vec3 0.1 0.8 0.2
      | 1%nat => vec3 0.5 0.7 0.1
      | 2%nat => vec3 0.0 0.5 0.3
      | _ => vec3 0.2 0.6 0.1
      end in
    vec3 (v3x color) (v3y color + sin (t + INR i) * 0.05) (v3z color)
  else
    let color :=
      match cycle with
      | 0%nat => vec3 0.0 0.6 0.9
      | 1%nat => vec3 0.1 0.3 0.8
      | 2%nat => vec3 0.3 0.2 1.0
      | _ => vec3 0.0 0.8 0.8
      end in
    vec3 (v3x color) (v3y color) (v3z color + cos (t + INR i) * 0.05).

(** [ambienceAgents.current.forEach((agent, i) => ...)]: every agent is
    updated in place and splatted, in array order. *)
Fixpoint forEachAgent (size : Size) (mode : string) (t : R)
    (agents : list Agent) (i : nat) (g : Gpu) : list Agent * Gpu :=
  match agents with
  | [] => ([], g)
  | agent :: rest =>
      let '(tx, ty) := ambienceTarget t agent in
      let dx := tx - ag_x agent in
      let dy := ty - ag_y agent in
      let agent' := followTarget t agent in
      let color := ambienceColor mode t i in
      let vx := dx * 15.0 in
      let vy := dy * 15.0 in
      let g := applySplat size (ag_x agent') (ag_y agent') vx vy color 0.0035 g in
      let '(rest', g) := forEachAgent size mode t rest (Datatypes.S i) g in
      (agent' :: rest', g)
  end.

Definition ambienceBranch (f : Frame) (mode : string) (w : World) : World :=
  let '(agents, g) :=
    forEachAgent (size f) mode (elapsedTime f) (ambienceAgents w) 0%nat (gpu w) in
  set_gpu g (set_ambienceAgents agents w).

Section Drivers.

(** [random n] is the value the [n]-th call of [Math.random()] returns. *)
Variable random : nat -> R.

(** [THREE.Color.setHSL(h, s, l)] followed by reading [r], [g], [b]: a
    function of the three.js library. *)
Variable setHSL : R -> R -> R -> Vec3.

(** [Math.random()]. *)
Definition Math_random (w : World) : R * World :=
  (random (randomDraws w), set_randomDraws (Datatypes.S (randomDraws w)) w).

(** The base colour of the music branch. *)
Definition musicColor (mode : FluidMode.t) (time : R) : Vec3 :=
  match mode with
  | FluidMode.ignite => vec3 1.0 0.2 0.0
  | FluidMode.frost => vec3 0.1 0.6 1.0
  | FluidMode.mist => vec3 0.8 0.8 0.8
  | FluidMode.flux => setHSL (mod1 (time * 0.5)) 0.8 0.5
  end.

Definition dropParticleCount : nat := 30.

(** The body of the burst loop: one particle at a random place, pushed in a
    random direction. *)
Definition dropParticle (f : Frame) (color : Vec3) (w : World) : World :=
  let intensity := 4.0 in
  let '(rx, w) := Math_random w in
  let '(ry, w) := Math_random w in
  let '(r, w) := Math_random w in
  let angle := r * PI * 2 in
  let '(r, w) := Math_random w in
  let speed := 20.0 + r * 60.0 in
  let bdx := cos angle * speed in
  let bdy := sin angle * speed in
  let flashColor := scale3 intensity color in
  let '(r, w) := Math_random w in
  set_gpu
    (applySplat (size f) rx ry bdx bdy flashColor (0.005 + r * 0.015) (gpu w)) w.

(** [for (let i = 0; i < dropParticleCount; i++) { ... }]. *)
Definition dropBurst (f : Frame) (color : Vec3) (w : World) : World :=
  forLoop dropParticleCount (fun _ => dropParticle f color) w.

(** The test of the drop: [bassAvg > 110 && (bassAvg - lastBass.current) > 20],
    comparisons and subtraction being those of binary64. *)
Definition isDrop (bassAvg lastBass : float) : bool :=
  (110 <? bassAvg)%float && (20 <? bassAvg - lastBass)%float.

(** [excitement]. *)
Definition excitementOf (audioData : list byte) : R :=
  Math_pow (volAvgOf audioData / 255.0) 2.5.

(** The Lissajous target [(tx, ty)] of the wanderer at phase [t]. *)
Definition wanderTarget (t : R) : R * R :=
  (0.5 + sin (t * 0.5) * 0.4 + sin (t * 1.42) * 0.2,
   0.5 + cos (t * 0.36) * 0.4 + cos (t * 1.73) * 0.2).

(** Advance [movementRef] by the wander speed and let the wanderer follow its
    target. *)
Definition moveWanderer (f : Frame) (audioData : list byte) (w : World)
  : World :=
  let time := elapsedTime f in
  let excitement := excitementOf audioData in
  let tVal := time * 1.2 in
  let chaos := sin tVal * cos (tVal * 2.7) + sin (tVal * 1.5) * 0.5 in
  let sporadicFactor := 1.2 + Math_pow (Rabs (chaos + 0.5)) 2.5 * 4.0 in
  let wanderSpeed := (0.8 + excitement * 4.0) * sporadicFactor in
  let w := set_movementRef (movementRef w + delta f * wanderSpeed) w in
  let t := movementRef w in
  let '(tx, ty) := wanderTarget t in
  let smooth := 0.1 in
  set_wanderer
    (mkWanderer
       (wan_x (wanderer w) + (tx - wan_x (wanderer w)) * smooth)
       (wan_y (wanderer w) + (ty - wan_y (wanderer w)) * smooth)) w.

(** [if (volAvg > 2) { ... applySplat(...) }]: the trailing splat. *)
Definition trailSplat (f : Frame) (audioData : list byte) (color : Vec3)
    (w : World) : World :=
  let excitement := excitementOf audioData in
  let '(tx, ty) := wanderTarget (movementRef w) in
  if Rgtb (volAvgOf audioData) 2 then
    let trailDx := (tx - wan_x (wanderer w)) * 40.0 * excitement in
    let trailDy := (ty - wan_y (wanderer w)) * 40.0 * excitement in
    set_gpu
      (applySplat (size f) (wan_x (wanderer w)) (wan_y (wanderer w))
         trailDx trailDy color (0.004 + excitement * 0.005) (gpu w)) w
  else w.

(** The music branch once [getAudioData()] has returned an array. *)
Definition musicReact (f : Frame) (audioData : list byte) (w : World) : World :=
  let bassAvg := bassAvgOf audioData in
  let w := moveWanderer f audioData w in
  let color := musicColor (currentMode f) (elapsedTime f) in
  let w := trailSplat f audioData color w in
  let w := if isDrop bassAvg (lastBass w) then dropBurst f color w else w in
  set_lastBass bassAvg w.

(** The music branch: [const audioData = audioService.getAudioData();
    if (audioData) { ... }]. *)
Definition musicBranch (f : Frame) (w : World) : World :=
  let '(audioData, svc) := getAudioData (spectrum f) (audioService w) in
  let w := set_audioService svc w in
  match audioData with
  | Some d => musicReact f d w
  | None => w
  end.

(** 1. Process Automated Splats (Music or Ambience). *)
Definition automatedSplats (f : Frame) (w : World) : World :=
  if isMusicActive f then
    if truthy (ambienceMode f) then
      match ambienceMode f with
      | Some mode => ambienceBranch f mode w
      | None => w
      end
    else musicBranch f w
  else w.

(** The colour of a pointer splat; [rVal] is one random draw. *)
Definition pointerColor (mode : FluidMode.t) (time rVal : R) : Vec3 :=
  match mode with
  | FluidMode.ignite => vec3 1.0 (0.1 + rVal * 0.3) 0.05
  | FluidMode.frost => vec3 0.05 (0.5 + rVal * 0.4) (0.9 + rVal * 0.1)
  | FluidMode.mist => let grey := 0.5 + rVal * 0.5 in vec3 grey grey grey
  | FluidMode.flux =>
      vec3 (sin (time * 0.5) * 0.5 + 0.5)
           (sin (time * 0.5 + 2.0) * 0.5 + 0.5)
           (sin (time * 0.5 + 4.0) * 0.5 + 0.5)
  end.

(** 2. Input Interaction (Splat).  The optional [onInteract] callback is not
    passed by the application and is left out. *)
Definition inputInteraction (f : Frame) (w : World) : World :=
  if ptr_moved (pointer w) then
    let dx := ptr_dx (pointer w) in
    let dy := ptr_dy (pointer w) in
    let velocityMag := sqrt (dx * dx + dy * dy) in
    let w := set_audioService
               (update (Rmin (velocityMag / 20) 1) (audioService w)) w in
    let u := ptr_x (pointer w) / width (size f) in
    let v := ptr_y (pointer w) / height (size f) in
    let '(rVal, w) := Math_random w in
    let color := pointerColor (currentMode f) (elapsedTime f) rVal in
    let interactRadius := 0.001 + Rmin velocityMag 100 * 0.00005 in
    let w := set_gpu
               (applySplat (size f) u v (dx * 5.0) (dy * 5.0) color
                  interactRadius (gpu w)) w in
    set_pointer
      (mkPointer (ptr_x (pointer w)) (ptr_y (pointer w)) 0 0 false
         (ptr_down (pointer w))) w
  else
    set_audioService (update 0 (audioService w)) w.

(** The callback passed to [useFrame]. *)
Definition useFrame (f : Frame) (w : World) : World :=
  let w := automatedSplats f w in
  let w := inputInteraction f w in
  set_gpu (solverStep (currentMode f) (gpu w)) w.

(** [handleMove]: a pointer or touch move to client position [(x, y)]. *)
Definition handleMove (x y : R) (w : World) : World :=
  let dx := x - ptr_x (pointer w) in
  let dy := y - ptr_y (pointer w) in
  set_pointer (mkPointer x y dx dy true true) w.

(** [handleUp]. *)
Definition handleUp (w : World) : World :=
  set_pointer
    (mkPointer (ptr_x (pointer w)) (ptr_y (pointer w)) (ptr_dx (pointer w))
       (ptr_dy (pointer w)) (ptr_moved (pointer w)) false) w.

(** One agent as [Array.from({ length: 7 }).map(...)] creates it, from ten
    consecutive random draws starting at draw [n]. *)
Definition newAgent (n : nat) : Agent :=
  mkAgent (random n) (random (n + 1))
    (0.15 + random (n + 2) * 0.25) (0.4 + random (n + 3) * 0.4)
    (0.15 + random (n + 4) * 0.25) (0.4 + random (n + 5) * 0.4)
    (random (n + 6) * PI * 2) (random (n + 7) * PI * 2)
    (random (n + 8) * PI * 2) (random (n + 9) * PI * 2).

(** The component when it mounts, given the audio service singleton: the
    seven agents have consumed the first seventy draws. *)
Definition world0 (svc : AudioService) : World :=
  mkWorld gpu0 (mkPointer 0 0 0 0 false false) (mkWanderer 0.5 0.5) 0%float 0
    (map (fun k => newAgent (10 * k)) (seq 0 7)) svc 70.

(** The splat one burst particle emits when [n] draws have been made. *)
Definition burstSplat (color : Vec3) (n : nat) : Splat :=
  mkSplat (random n) (random (n + 1))
    (cos (random (n + 2) * PI * 2) * (20.0 + random (n + 3) * 60.0))
    (sin (random (n + 2) * PI * 2) * (20.0 + random (n + 3) * 60.0))
    (scale3 4.0 color) (0.005 + random (n + 4) * 0.015).

End Drivers.

(* --------------------------------------------------------------------- *)
(** The definitions below are not part of the program: they are the
    reference formulas, predicates and concrete states that the statements
    of Part II are written with. *)
(* --------------------------------------------------------------------- *)

(* ===================================================================== *)
(** ** Reference formulas on texel grids *)
(* ===================================================================== *)

(** Two images agree texel by texel. *)
Definition imgEq (a b : Image) : Prop := forall i j, a i j = b i j.

(** One Jacobi sweep on the simulation grid, written on texel indices: the
    value at [(i, j)] is [(L + R + T + B - divergence) / 4] of the left, right,
    top and bottom neighbours, the neighbour of an edge texel across the edge
    being that texel itself (edge clamp). *)
Definition jacobiStep (div p : Image) : Image :=
  fun i j =>
    let at_ a b := v4x (p (clampZ simRes a) (clampZ simRes b)) in
    let L := at_ (i - 1)%Z j in
    let R := at_ (i + 1)%Z j in
    let T := at_ i (j + 1)%Z in
    let B := at_ i (j - 1)%Z in
    let d := v4x (div (clampZ simRes i) (clampZ simRes j)) in
    vec4 ((L + R + T + B - d) / 4) 0 0 1.

(** The state of the pressure loop after [k] iterations. *)
Definition pressureLoopState (g : Gpu) (k : nat) : Gpu :=
  forLoop k (fun _ => pressureIteration)
    (set_pressureMat
       (mkPressureUniforms (pr_uPressure (pressureMat g))
          (Some Divergence) (texel simRes)) g).

(* ===================================================================== *)
(** ** The divergence pass *)
(* ===================================================================== *)

(** What the divergence draw computes on texel indices: central differences
    of the edge-clamped neighbours. *)
Definition divergenceClamped (v : Image) : Image :=
  fun i j =>
    let at_ a b := v (clampZ simRes a) (clampZ simRes b) in
    let L := v4x (at_ (i - 1)%Z j) in
    let R := v4x (at_ (i + 1)%Z j) in
    let T := v4y (at_ i (j + 1)%Z) in
    let B := v4y (at_ i (j - 1)%Z) in
    vec4 (0.5 * (R - L + T - B)) 0 0 1.

(** The divergence with the boundary condition in the specification's words:
    [0.5 * ((R - L) + (T - B))] of the neighbours' components, where a
    neighbour that falls outside the grid contributes the negation of the
    cell's own component. *)
Definition divergenceFreeSlip (v : Image) : Image :=
  fun i j =>
    let C := v i j in
    let L := if (i =? 0)%Z then - v4x C else v4x (v (i - 1)%Z j) in
    let R := if (i =? simRes - 1)%Z then - v4x C else v4x (v (i + 1)%Z j) in
    let T := if (j =? simRes - 1)%Z then - v4y C else v4y (v i (j + 1)%Z) in
    let B := if (j =? 0)%Z then - v4y C else v4y (v i (j - 1)%Z) in
    vec4 (0.5 * ((R - L) + (T - B))) 0 0 1.

(** A velocity field flowing uniformly to the right at unit speed. *)
Definition uniformFlow : Image := fun _ _ => vec4 1 0 0 1.

(** The GPU state at mount with that field in the active velocity buffer. *)
Definition gpuUniformFlow : Gpu :=
  set_store (upd (store gpu0) Velocity0 uniformFlow) gpu0.

(* ===================================================================== *)
(** ** The splat *)
(* ===================================================================== *)

(** Squared distance, in aspect-corrected texture coordinates, between the
    centre of texel [(i, j)] of a [res] x [res] grid and the splat point
    [(x, 1 - y)]. *)
Definition splatDistance2 (size : Size) (res : Z) (x y : R) (i j : Z) : R :=
  let px := ((IZR i + 0.5) / IZR res - x) * (width size / height size) in
  let py := (IZR j + 0.5) / IZR res - (1 - y) in
  px * px + py * py.

(** The Gaussian weight [exp(-distance^2 / radius)]. *)
Definition gaussianWeight (size : Size) (res : Z) (x y radius : R) (i j : Z) : R :=
  exp (- splatDistance2 size res x y i j / radius).

(** [base] plus the weighted quantity [q], texel by texel, alpha set to 1. *)
Definition addGaussian (res : Z) (weight : Z -> Z -> R) (q : Vec3)
    (base : Image) : Image :=
  fun i j =>
    let b := base (clampZ res i) (clampZ res j) in
    vec4 (v4x b + weight i j * v3x q) (v4y b + weight i j * v3y q)
         (v4z b + weight i j * v3z q) 1.

(* ===================================================================== *)
(** ** Timelines *)
(* ===================================================================== *)

(** The value an [AudioParam] takes at time [t]: the events scheduled at or
    before [t] act in timeline order on the intrinsic value; a set-value event
    holds its value, a set-target event approaches its target exponentially
    from the value reached at its start time. *)
Definition applyEvent (f : R -> R) (e : ParamEvent) : R -> R :=
  match e with
  | SetValueAtTime v _ => fun _ => v
  | SetTargetAtTime target t0 tc =>
      fun t => target + (f t0 - target) * exp (- (t - t0) / tc)
  end.

Definition valueAt (p : AudioParam) (t : R) : R :=
  fold_left applyEvent
    (filter (fun e => negb (Rltb t (eventTime e))) (p_events p))
    (fun _ => p_value p) t.

(** No event of the timeline lies after [now]. *)
Definition settledBy (now : R) (p : AudioParam) : Prop :=
  Forall (fun e => eventTime e <= now) (p_events p).

(* ===================================================================== *)
(** ** Applying a preset *)
(* ===================================================================== *)

(** Waveform, frequency and detune of every oscillator of the bank. *)
Definition bank (s : AudioService)
  : list (OscillatorType * AudioParam * AudioParam) :=
  map (fun o => (osc_type o, osc_frequency o, osc_detune o)) (oscs s).

(** The bank a preset prescribes: its waveforms, frequencies and detunes, with
    no automation scheduled. *)
Definition presetBank (type : InstrumentType.t)
  : list (OscillatorType * AudioParam * AudioParam) :=
  map (fun oc => (oc_type oc, mkParam (oc_freq oc) [], mkParam (oc_detune oc) []))
      (oscillators (INSTRUMENTS type)).

(** The delay line has no automation scheduled after the current time.  Every
    method schedules at [ctx.currentTime], so this holds in every state the
    service reaches. *)
Definition delaySettled (s : AudioService) : Prop :=
  forall c dn df dg,
    ctx s = Some c -> delayNode s = Some dn -> delayFeedback s = Some df ->
    delayGain s = Some dg ->
    settledBy (currentTime c) (delayTime dn) /\
    settledBy (currentTime c) (gain df) /\
    settledBy (currentTime c) (gain dg).

(** The preset [type] is in force: the bank is the preset's, the filter has
    the preset's type and Q, and from the current time on the filter cutoff
    holds the preset's base frequency and the main gain holds 0. *)
Definition presetApplied (type : InstrumentType.t) (s : AudioService) : Prop :=
  let config := INSTRUMENTS type in
  currentType s = type /\
  bank s = presetBank type /\
  exists c mf mg,
    ctx s = Some c /\ mainFilter s = Some mf /\ mainGain s = Some mg /\
    bq_type mf = fc_type (filter_ config) /\
    p_value (bq_Q mf) = fc_Q (filter_ config) /\
    forall t, currentTime c <= t ->
      valueAt (bq_frequency mf) t = fc_baseFreq (filter_ config) /\
      valueAt (gain mg) t = 0.

(** The delay line of preset [type] is in force: from the current time on the
    delay time, feedback and mix hold the preset's values. *)
Definition delayApplied (type : InstrumentType.t) (s : AudioService) : Prop :=
  let config := INSTRUMENTS type in
  exists c dn df dg,
    ctx s = Some c /\ delayNode s = Some dn /\ delayFeedback s = Some df /\
    delayGain s = Some dg /\
    forall t, currentTime c <= t ->
      valueAt (delayTime dn) t = dc_time (delay_ config) /\
      valueAt (gain df) t = dc_feedback (delay_ config) /\
      valueAt (gain dg) t = dc_mix (delay_ config).

(** The service right after [init()] on a fresh instance. *)
Definition audio0 : AudioService :=
  mkAudioService
    (Some (mkAudioContext 0))
    [ mkOscillatorNode sine (mkParam 261.63 []) (mkParam 0 []) 0;
      mkOscillatorNode sine (mkParam 293.66 []) (mkParam 5 []) 0;
      mkOscillatorNode triangle (mkParam 392.00 []) (mkParam (-5) []) 0 ]
    (Some (mkBiquadFilterNode lowpass
             (mkParam 350 [SetValueAtTime 200 0]) (mkParam 0.5 [])))
    (Some (mkGainNode (mkParam 1 [SetValueAtTime 0 0])))
    (Some (mkDelayNode (mkParam 0 [SetValueAtTime 0.4 0])))
    (Some (mkGainNode (mkParam 1 [SetValueAtTime 0.25 0])))
    (Some (mkGainNode (mkParam 1 [SetValueAtTime 0.3 0])))
    (Some (mkGainNode (mkParam 0.5 [])))
    (Some (mkAnalyserNode 256))
    (Some (repeat x00 128))
    InstrumentType.flux 0.5 false true.

(* ===================================================================== *)
(** ** [update]: the gain ramp *)
(* ===================================================================== *)

(** The preset in force after selecting [orbit] on a fresh engine. *)
Definition audioOrbit : AudioService :=
  mkAudioService
    (Some (mkAudioContext 0))
    [ mkOscillatorNode sine (mkParam 130.81 []) (mkParam 0 []) 0;
      mkOscillatorNode sine (mkParam 261.63 []) (mkParam 2 []) 0;
      mkOscillatorNode sine (mkParam 523.25 []) (mkParam (-2) []) 0 ]
    (Some (mkBiquadFilterNode bandpass
             (mkParam 350 [SetValueAtTime 300 0]) (mkParam 5.0 [])))
    (Some (mkGainNode (mkParam 1 [SetValueAtTime 0 0])))
    (Some (mkDelayNode (mkParam 0 [SetValueAtTime 0.4 0; SetValueAtTime 0.6 0])))
    (Some (mkGainNode (mkParam 1 [SetValueAtTime 0.25 0; SetValueAtTime 0.3 0])))
    (Some (mkGainNode (mkParam 1 [SetValueAtTime 0.3 0; SetValueAtTime 0.5 0])))
    (Some (mkGainNode (mkParam 0.5 [])))
    (Some (mkAnalyserNode 256))
    (Some (repeat x00 128))
    InstrumentType.orbit 0.5 false true.

(** Target and time constant of the ramp scheduled last on the main gain. *)
Definition lastRamp (s : AudioService) : option (R * R) :=
  match mainGain s with
  | Some mg =>
      match last (p_events (gain mg)) (SetValueAtTime 0 0) with
      | SetTargetAtTime target _ tc => Some (target, tc)
      | SetValueAtTime _ _ => None
      end
  | None => None
  end.

(* ===================================================================== *)
(** ** Mute and master volume *)
(* ===================================================================== *)

(** A muted, initialised engine: [audio0] after [setMute(true)]. *)
Definition audioMuted : AudioService := setMute true audio0.

(* ===================================================================== *)
(** ** The music driver *)
(* ===================================================================== *)

(** A frame in which the music branch runs. *)
Definition musicFrame (f : Frame) : Prop :=
  isMusicActive f = true /\ truthy (ambienceMode f) = false.

(** The splats a music frame adds between [w] and [w']: the trailing splat
    (one if the overall average of [d] exceeds 2, none otherwise), then a
    burst of exactly 30 splats if [drop] holds and no burst otherwise. *)
Definition emitsTrailAndBurst (w w' : World) (d : list byte) (drop : bool)
  : Prop :=
  exists trail burst,
    splats (gpu w') = splats (gpu w) ++ trail ++ burst /\
    List.length trail = (if Rgtb (volAvgOf d) 2 then 1%nat else 0%nat) /\
    List.length burst = (if drop then 30%nat else 0%nat).

(* ===================================================================== *)
(** ** Concrete frames and states *)
(* ===================================================================== *)

(** A random source and a stand-in for the library's HSL conversion, for the
    concrete runs below. *)
Definition halves : nat -> R := fun _ => 1 / 2.

Definition greyHSL : R -> R -> R -> Vec3 := fun _ _ l => vec3 l l l.

(** A music frame in which every bin of the analyser reads [b]. *)
Definition toneFrame (b : byte) : Frame :=
  mkFrame 1 0.016 FluidMode.ignite true None (mkSize 800 600) (fun _ => b).

(** A frame with no music playing, on an 800 x 600 canvas. *)
Definition quietFrame : Frame :=
  mkFrame 1 0.016 FluidMode.flux false None (mkSize 800 600) (fun _ => x00).

(** A pointer resting at (390, 300) has moved to (400, 300). *)
Definition worldAfterMove : World :=
  handleMove 400 300
    (set_pointer (mkPointer 390 300 0 0 false false) (world0 halves audio0)).

(* ===================================================================== *)
(** ** The ambience agents *)
(* ===================================================================== *)

(** The band [-0.05, 1.05] of the agents' coordinates. *)
Definition inBand (a : R) : Prop := -0.05 <= a <= 1.05.

Definition agentInBand (agent : Agent) : Prop :=
  inBand (ag_x agent) /\ inBand (ag_y agent).

(* ===================================================================== *)
(** ** States the initialised service reaches *)
(* ===================================================================== *)

(** The states reached from [init()] on a fresh instance by calls of the
    public methods, the audio clock advancing in between. *)
Inductive reachable : AudioService -> Prop :=
| reach_init : reachable audio0
| reach_clock dt s : 0 <= dt -> reachable s -> reachable (advanceClock dt s)
| reach_setInstrument type s s' :
    reachable s -> setInstrument type s = Some s' -> reachable s'
| reach_update v s : reachable s -> reachable (update v s)
| reach_setMute m s : reachable s -> reachable (setMute m s)
| reach_setMasterVolume v s : reachable s -> reachable (setMasterVolume v s)
| reach_getAudioData sp s :
    reachable s -> reachable (snd (getAudioData sp s)).

(* --------------------------------------------------------------------- *)
(** The definitions below serve the further properties of Part III. *)
(* --------------------------------------------------------------------- *)

(* ===================================================================== *)
(** ** Draws and buffers *)
(* ===================================================================== *)

(** A draw is separated when none of the textures bound to its samplers is
    the target it writes. *)
Definition separated (rc : RenderCall) : Prop :=
  ~ In (Some (rc_target rc)) (rc_textures rc).

(** The target and its textures are kept apart in every draw so far, and the
    arrays are well formed. *)
Definition gpuOk (g : Gpu) : Prop :=
  arraysOk g /\ Forall separated (renders g).

(** Draws issued so far, less two for every splat applied so far. *)
Definition drawBalance (g : Gpu) : Z :=
  (Z.of_nat (List.length (renders g))
   - 2 * Z.of_nat (List.length (splats g)))%Z.

(** Texel [(i, j)] belongs to a [res] x [res] grid. *)
Definition inGrid (res i j : Z) : Prop :=
  (0 <= i < res)%Z /\ (0 <= j < res)%Z.

(** Every channel of [v] has magnitude at most [M]. *)
Definition within (M : R) (v : Vec4) : Prop :=
  Rabs (v4x v) <= M /\ Rabs (v4y v) <= M /\ Rabs (v4z v) <= M /\
  Rabs (v4w v) <= M.

(** Every texel of the grid has all its channels within [M]. *)
Definition imageWithin (res : Z) (M : R) (img : Image) : Prop :=
  forall i j, inGrid res i j -> within M (img i j).

(** The first channel of every texel of the grid has magnitude at most [M]. *)
Definition xWithin (res : Z) (M : R) (img : Image) : Prop :=
  forall i j, inGrid res i j -> Rabs (v4x (img i j)) <= M.

(** Both velocity components of every texel of the grid have magnitude at
    most [V]. *)
Definition speedWithin (res : Z) (V : R) (img : Image) : Prop :=
  forall i j, inGrid res i j ->
    Rabs (v4x (img i j)) <= V /\ Rabs (v4y (img i j)) <= V.

(** What the gradient-subtraction draw computes on texel indices: the
    velocity less the central pressure differences of the edge-clamped
    neighbours. *)
Definition gradientClamped (P V : Image) : Image :=
  fun i j =>
    let at_ (img : Image) a b := img (clampZ simRes a) (clampZ simRes b) in
    let L := v4x (at_ P (i - 1)%Z j) in
    let R := v4x (at_ P (i + 1)%Z j) in
    let T := v4x (at_ P i (j + 1)%Z) in
    let B := v4x (at_ P i (j - 1)%Z) in
    vec4 (v4x (at_ V i j) - (R - L)) (v4y (at_ V i j) - (T - B)) 0 1.

(** The fluid is still: the active velocity buffer has zero components and
    the active pressure buffer is zero, on the whole grid. *)
Definition still (g : Gpu) : Prop :=
  (forall i j, inGrid simRes i j ->
     v4x (store g (fst (velocity g)) i j) = 0 /\
     v4y (store g (fst (velocity g)) i j) = 0) /\
  (forall i j, inGrid simRes i j ->
     v4x (store g (fst (pressure g)) i j) = 0).

(** [applySplat] called with the six values of a recorded splat. *)
Definition applySplatOf (size : Size) (s : Splat) (g : Gpu) : Gpu :=
  applySplat size (splat_x s) (splat_y s) (splat_dx s) (splat_dy s)
    (splat_color s) (splat_radius s) g.

(* ===================================================================== *)
(** ** The drivers *)
(* ===================================================================== *)

(** The splat the ambience branch applies for [agent], the [i]-th of the
    array: at the agent's new position, pushed along its step. *)
Definition agentSplat (mode : string) (t : R) (agent : Agent) (i : nat)
  : Splat :=
  mkSplat (ag_x (followTarget t agent)) (ag_y (followTarget t agent))
    ((fst (ambienceTarget t agent) - ag_x agent) * 15)
    ((snd (ambienceTarget t agent) - ag_y agent) * 15)
    (ambienceColor mode t i) 0.0035.

(** A frame in which the ambience branch runs in mode [mode]. *)
Definition ambienceFrame (mode : string) (f : Frame) : Prop :=
  isMusicActive f = true /\ ambienceMode f = Some mode /\
  String.eqb mode EmptyString = false.

(** An ambience frame of the river palette. *)
Definition riverFrame : Frame :=
  mkFrame 1 0.016 FluidMode.flux true (Some "river"%string) (mkSize 800 600)
    (fun _ => x00).

(** The band [-0.1, 1.1] of the wanderer's coordinates. *)
Definition inWanderBand (a : R) : Prop := -0.1 <= a <= 1.1.

(** The trailing splat of the music branch, [w] being the state after the
    wanderer has moved. *)
Definition trailOf (d : list byte) (color : Vec3) (w : World) : Splat :=
  let excitement := excitementOf d in
  mkSplat (wan_x (wanderer w)) (wan_y (wanderer w))
    ((fst (wanderTarget (movementRef w)) - wan_x (wanderer w)) * 40
     * excitement)
    ((snd (wanderTarget (movementRef w)) - wan_y (wanderer w)) * 40
     * excitement)
    color (0.004 + excitement * 0.005).

(** What every particle of a drop burst satisfies, [color] being the base
    colour of the frame: a place in the unit square, a push of magnitude in
    [20, 80), a radius in [0.005, 0.02), four times the base colour. *)
Definition burstParticleOk (color : Vec3) (s : Splat) : Prop :=
  0 <= splat_x s < 1 /\ 0 <= splat_y s < 1 /\
  20 * 20 <= splat_dx s * splat_dx s + splat_dy s * splat_dy s < 80 * 80 /\
  0.005 <= splat_radius s < 0.02 /\
  splat_color s = scale3 4 color.

(** What the trailing splat satisfies: applied where the wanderer is, with a
    radius in [0.004, 0.009] and a push of at most 48 along each axis. *)
Definition trailOk (w : World) (s : Splat) : Prop :=
  splat_x s = wan_x (wanderer w) /\ splat_y s = wan_y (wanderer w) /\
  0.004 <= splat_radius s <= 0.009 /\
  Rabs (splat_dx s) <= 48 /\ Rabs (splat_dy s) <= 48.

(* ===================================================================== *)
(** ** The audio service over its runs *)
(* ===================================================================== *)

(** The value the automation scheduled last on a parameter heads to; the
    intrinsic value if none is scheduled. *)
Definition finalTarget (p : AudioParam) : R :=
  match last (p_events p) (SetValueAtTime (p_value p) 0) with
  | SetValueAtTime v _ => v
  | SetTargetAtTime v _ _ => v
  end.

(** Waveform and frequency of every oscillator of the bank. *)
Definition notes (s : AudioService) : list (OscillatorType * AudioParam) :=
  map (fun o => (osc_type o, osc_frequency o)) (oscs s).

(** The waveforms and frequencies a preset prescribes. *)
Definition presetNotes (type : InstrumentType.t)
  : list (OscillatorType * AudioParam) :=
  map (fun oc => (oc_type oc, mkParam (oc_freq oc) []))
    (oscillators (INSTRUMENTS type)).

(** The output gain heads to silence when the service is muted and to the
    master volume otherwise. *)
Definition outputFollowsControls (s : AudioService) : Prop :=
  exists gg, globalGain s = Some gg /\
             finalTarget (gain gg) = (if isMuted s then 0 else masterVolume s).

(** The service as [init()] has built it when it reaches its last statement,
    the call of [setInstrument]: context and nodes created, the output gain
    given its value, the snapshot buffer allocated, the flag set. *)
Definition graphBuilt (s : AudioService) : AudioService :=
  mkAudioService (Some (mkAudioContext 0)) (oscs s)
    (Some createBiquadFilter) (Some createGain) (Some createDelay)
    (Some createGain) (Some createGain)
    (Some (mkGainNode
             (assignValue (if isMuted s then 0 else masterVolume s)
                (gain createGain))))
    (Some (mkAnalyserNode 256)) (Some (repeat x00 128))
    (currentType s) (masterVolume s) (isMuted s) true.

(* ===================================================================== *)
(** ** The application's synthesiser controls *)
(* ===================================================================== *)

(** The state hooks of [App] that its synthesiser handlers read and write,
    and the [audioService] singleton.  The music player's handlers
    ([handleFileUpload], [toggleMusicPlay], [playDemoTrack],
    [handleAmbiencePlay]) go through [playMusic] and are not embedded. *)
Record App := mkApp {
  started : bool;
  muted : bool;
  volume : R;
  instrument : InstrumentType.t;
  service : AudioService
}.

(** [useState] initial values and the fresh singleton. *)
Definition app0 : App :=
  mkApp false false 0.5 InstrumentType.flux newAudioService.

(** [handleStart]: [init(); setMasterVolume(volume); resume(); setStarted(true)].
    [resume()] acts on the context's run state only. *)
Definition handleStart (a : App) : option App :=
  match init (service a) with
  | Some s =>
      Some (mkApp true (muted a) (volume a) (instrument a)
              (setMasterVolume (volume a) s))
  | None => None
  end.

(** [toggleMute]. *)
Definition toggleMute (a : App) : App :=
  let newMuteState := negb (muted a) in
  mkApp (started a) newMuteState (volume a) (instrument a)
    (setMute newMuteState (service a)).

(** [handleVolumeChange], [val] being the parsed value of the slider. *)
Definition handleVolumeChange (val : R) (a : App) : App :=
  mkApp (started a) (muted a) val (instrument a)
    (setMasterVolume val (service a)).

(** [handleInstrumentChange(inst)]. *)
Definition handleInstrumentChange (inst : InstrumentType.t) (a : App)
  : option App :=
  match setInstrument inst (service a) with
  | Some s => Some (mkApp (started a) (muted a) (volume a) inst s)
  | None => None
  end.

(** Time passing between two events: the audio clock advances. *)
Definition elapse (dt : R) (a : App) : App :=
  mkApp (started a) (muted a) (volume a) (instrument a)
    (advanceClock dt (service a)).

(** The states the application reaches by its synthesiser handlers, in any
    order, time passing in between. *)
Inductive appReach : App -> Prop :=
| app_mount : appReach app0
| app_elapse dt a : 0 <= dt -> appReach a -> appReach (elapse dt a)
| app_start a a' : appReach a -> handleStart a = Some a' -> appReach a'
| app_mute a : appReach a -> appReach (toggleMute a)
| app_volume val a : appReach a -> appReach (handleVolumeChange val a)
| app_instrument inst a a' :
    appReach a -> handleInstrumentChange inst a = Some a' -> appReach a'.

(** The output gain has nothing scheduled after the current time and heads
    to silence when the service is muted, to the master volume otherwise. *)
Definition outputSettled (s : AudioService) : Prop :=
  exists c gg,
    ctx s = Some c /\ globalGain s = Some gg /\
    settledBy (currentTime c) (gain gg) /\
    finalTarget (gain gg) = (if isMuted s then 0 else masterVolume s).

(** The hooks and the service agree. *)
Definition uiAgrees (a : App) : Prop :=
  isMuted (service a) = muted a /\
  masterVolume (service a) = volume a /\
  currentType (service a) = instrument a /\
  isInitialized (service a) = started a.

(* ===================================================================== *)
(** ** The dye *)
(* ===================================================================== *)

(** A colour with no negative channel. *)
Definition nonneg3 (c : Vec3) : Prop :=
  0 <= v3x c /\ 0 <= v3y c /\ 0 <= v3z c.

(** No texel of the active density buffer has a negative colour channel. *)
Definition dyeNonneg (g : Gpu) : Prop :=
  forall i j, inGrid dyeRes i j ->
    0 <= v4x (store g (fst (density g)) i j) /\
    0 <= v4y (store g (fst (density g)) i j) /\
    0 <= v4z (store g (fst (density g)) i j).

(** The arrays are well formed and the dye is nowhere negative. *)
Definition dyeOk (g : Gpu) : Prop := arraysOk g /\ dyeNonneg g.

(* ===================================================================== *)
(** ** The display shader *)
(* ===================================================================== *)

(** GLSL [pow(x, y)], defined for a base [x >= 0] and an exponent [y > 0],
    the only use the display shader makes of it. *)
Definition glsl_pow (x y : R) : R :=
  if Req_dec_T x 0 then 0 else Rpower x y.

(** [DISPLAY_SHADER]: Reinhard tone mapping, gamma 2.2 and a vignette.  The
    [uVelocity] uniform is declared and not read. *)
Definition DISPLAY_SHADER (uTexture : Sampler) (vUv : Vec2) : Vec4 :=
  let c := xyz (texture2D uTexture vUv) in
  let uv := vec2 (v2x vUv * (1.0 - v2y vUv)) (v2y vUv * (1.0 - v2x vUv)) in
  let vig := v2x uv * v2y uv * 20.0 in
  let vig := glsl_pow vig 0.2 in
  let mapped := vec3 (v3x c / (v3x c + 1.0)) (v3y c / (v3y c + 1.0))
                     (v3z c / (v3z c + 1.0)) in
  let mapped := vec3 (glsl_pow (v3x mapped) (1.0 / 2.2))
                     (glsl_pow (v3y mapped) (1.0 / 2.2))
                     (glsl_pow (v3z mapped) (1.0 / 2.2)) in
  vec4 (v3x mapped * vig) (v3y mapped * vig) (v3z mapped * vig) 1.0.

(** The greatest value of the vignette factor, reached at the centre of the
    screen: [pow(1.25, 0.2)]. *)
Definition vignetteMax : R := glsl_pow 1.25 0.2.

(* ===================================================================== *)
(** ** The low-band sum in doubles *)
(* ===================================================================== *)

(** The double of an integer. *)
Definition ofZ (z : Z) : float := PrimFloat.of_uint63 (Uint63.of_Z z).

(** A bin as an integer, and the integer sum of the first [n] bins. *)
Definition byteZ (b : byte) : Z := Z.of_N (Byte.to_N b).

Definition sumZ (n : nat) (audioData : list byte) : Z :=
  forLoop n (fun i s => (s + byteZ (nth i audioData x00))%Z) 0%Z.

(** The integers [0, ..., n - 1]. *)
Definition zrange (n : nat) : list Z := map Z.of_nat (seq 0 n).

(** Adding the doubles of [s] and [b] in binary64 gives the double of
    [s + b]. *)
Definition addOk (s b : Z) : bool :=
  PrimFloat.Leibniz.eqb (ofZ s + ofZ b)%float (ofZ (s + b)).

(** If the average of the low-band sum [z], in binary64, exceeds 110, then
    [z] exceeds 1650. *)
Definition loudOk (z : Z) : bool :=
  implb (110 <? ofZ z / 15)%float (1650 <? z)%Z.

(** A music frame whose bins read [hi] below index [k] and [lo] from there
    on: for [k <= 15] the low-band sum is [k * hi + (15 - k) * lo]. *)
Definition stepFrame (k : nat) (hi lo : byte) : Frame :=
  mkFrame 1 0.016 FluidMode.ignite true None (mkSize 800 600)
    (fun i => if (i <? k)%nat then hi else lo).

(** The component at mount, but for the last bass value: the one a frame
    whose low-band sum is 1351 leaves behind. *)
Definition worldAfterBass1351 : World :=
  set_lastBass (ofZ 1351 / 15)%float (world0 halves audio0).

(* ===================================================================== *)
(** ** Concrete buffers *)
(* ===================================================================== *)

(** The state at mount with the uniform flow in the active velocity buffer
    and the colour (1, 0.5, 0.25) in every texel of the active density
    buffer. *)
Definition gpuDyed : Gpu :=
  set_store
    (upd (store gpuUniformFlow) Density0 (fun _ _ => vec4 1 0.5 0.25 1))
    gpuUniformFlow.

(** The state at mount with 1 in every texel of the active pressure buffer
    and -2 in every texel of the divergence target. *)
Definition gpuPressed : Gpu :=
  set_store
    (upd (upd (store gpu0) Pressure0 (fun _ _ => vec4 1 0 0 1))
       Divergence (fun _ _ => vec4 (-2) 0 0 1))
    gpu0.

(** A dye texture holding the colour (1, 3, 0) in every texel. *)
Definition dyeSample : Sampler := mkSampler dyeRes (fun _ _ => vec4 1 3 0 1).

(* ********************************************************************* *)
(** * Part II: lemmas and theorems *)
(* ********************************************************************* *)

(* ===================================================================== *)
(** ** Sampling at texel centres *)
(* ===================================================================== *)

Lemma mix4_0 a b : mix4 a b 0 = a.
Proof. destruct a; unfold mix4; simpl; f_equal; ring. Qed.

(** Sampling exactly at a texel centre (possibly outside the texture) returns
    the edge-clamped texel, unfiltered. *)
Lemma texture2D_centre (s : Sampler) (uv : Vec2) (a b : Z) :
  v2x uv * IZR (s_res s) - 0.5 = IZR a ->
  v2y uv * IZR (s_res s) - 0.5 = IZR b ->
  texture2D s uv = s_img s (clampZ (s_res s) a) (clampZ (s_res s) b).
Proof.
  intros Ha Hb. unfold texture2D. cbv zeta. rewrite Ha, Hb, !ZfloorZ.
  replace (IZR a - IZR a) with 0 by ring.
  replace (IZR b - IZR b) with 0 by ring.
  now rewrite !mix4_0.
Qed.

Lemma clampZ_id n i : (0 <= i < n)%Z -> clampZ n i = i.
Proof. unfold clampZ; lia. Qed.

(** Closes the side conditions of [texture2D_centre] at a fragment coordinate
    offset by whole texels. *)
Ltac centre_side :=
  simpl; rewrite ?plus_IZR, ?minus_IZR; field; apply not_0_IZR; lia.

(** Sampling at the fragment's own texel and at its four neighbours, one
    texel away: the coordinate is a texel centre, so the fetch is exact. *)
Lemma sample_C res img i j :
  (0 < res)%Z ->
  texture2D (mkSampler res img) (fragCoord res i j)
  = img (clampZ res i) (clampZ res j).
Proof. intros. apply (texture2D_centre (mkSampler res img)); centre_side. Qed.

Lemma sample_L res img i j :
  (0 < res)%Z ->
  texture2D (mkSampler res img)
    (sub2 (fragCoord res i j) (vec2 (v2x (texel res)) 0))
  = img (clampZ res (i - 1)) (clampZ res j).
Proof. intros. apply (texture2D_centre (mkSampler res img)); centre_side. Qed.

Lemma sample_R res img i j :
  (0 < res)%Z ->
  texture2D (mkSampler res img)
    (add2 (fragCoord res i j) (vec2 (v2x (texel res)) 0))
  = img (clampZ res (i + 1)) (clampZ res j).
Proof. intros. apply (texture2D_centre (mkSampler res img)); centre_side. Qed.

Lemma sample_T res img i j :
  (0 < res)%Z ->
  texture2D (mkSampler res img)
    (add2 (fragCoord res i j) (vec2 0 (v2y (texel res))))
  = img (clampZ res i) (clampZ res (j + 1)).
Proof. intros. apply (texture2D_centre (mkSampler res img)); centre_side. Qed.

Lemma sample_B res img i j :
  (0 < res)%Z ->
  texture2D (mkSampler res img)
    (sub2 (fragCoord res i j) (vec2 0 (v2y (texel res))))
  = img (clampZ res i) (clampZ res (j - 1)).
Proof. intros. apply (texture2D_centre (mkSampler res img)); centre_side. Qed.

Lemma simRes_pos : (0 < simRes)%Z.
Proof. reflexivity. Qed.

Lemma PRESSURE_SHADER_texel (p d : Image) (i j : Z) :
  PRESSURE_SHADER (mkSampler simRes p) (mkSampler simRes d) (texel simRes)
    (fragCoord simRes i j) = jacobiStep d p i j.
Proof.
  unfold PRESSURE_SHADER, jacobiStep. cbv zeta.
  rewrite sample_L, sample_R, sample_T, sample_B, sample_C
    by exact simRes_pos.
  f_equal. lra.
Qed.

(* ===================================================================== *)
(** ** The pressure loop *)
(* ===================================================================== *)

Lemma upd_same st t img : upd st t img t = img.
Proof. unfold upd. destruct (Target_eq_dec t t); congruence. Qed.

Lemma upd_other st t img t' : t' <> t -> upd st t img t' = st t'.
Proof. unfold upd. destruct (Target_eq_dec t' t); congruence. Qed.

Lemma jacobiStep_ext d d' p p' :
  imgEq d d' -> imgEq p p' -> imgEq (jacobiStep d p) (jacobiStep d' p').
Proof. intros Hd Hp i j. unfold jacobiStep. now rewrite !Hp, Hd. Qed.

(** What one iteration of the loop does, given the uniforms set before it. *)
Lemma pressureIteration_spec (g : Gpu) :
  isPair Pressure0 Pressure1 (pressure g) ->
  pr_uDivergence (pressureMat g) = Some Divergence ->
  pr_texelSize (pressureMat g) = texel simRes ->
  let g' := pressureIteration g in
  renders g' =
    renders g ++ [mkRenderCall (snd (pressure g)) PressureMat
                    [Some (fst (pressure g)); Some Divergence]] /\
  imgEq (store g' (snd (pressure g)))
        (jacobiStep (store g Divergence) (store g (fst (pressure g)))) /\
  (forall t, t <> snd (pressure g) -> store g' t = store g t) /\
  pressure g' = reverse (pressure g) /\
  pr_uDivergence (pressureMat g') = Some Divergence /\
  pr_texelSize (pressureMat g') = texel simRes.
Proof.
  intros Hp Hd Ht g'. subst g'. unfold pressureIteration. simpl.
  rewrite Hd, Ht. repeat split.
  - intros i j. rewrite upd_same. unfold renderQuad. simpl.
    destruct Hp as [-> | ->]; simpl; apply PRESSURE_SHADER_texel.
  - intros t Hne. now apply upd_other.
Qed.

Lemma isPair_reverse a b p : isPair a b p -> isPair a b (reverse p).
Proof. intros [-> | ->]; [right | left]; reflexivity. Qed.

Lemma pressureLoopState_S g k :
  pressureLoopState g (S k) = pressureIteration (pressureLoopState g k).
Proof. reflexivity. Qed.

(** Invariant of the loop: after [k] iterations the active buffer holds the
    [k]-th Jacobi iterate of the buffer that was active on entry. *)
Lemma pressureLoop_invariant (g : Gpu) (k : nat) :
  isPair Pressure0 Pressure1 (pressure g) ->
  let gk := pressureLoopState g k in
  isPair Pressure0 Pressure1 (pressure gk) /\
  pr_uDivergence (pressureMat gk) = Some Divergence /\
  pr_texelSize (pressureMat gk) = texel simRes /\
  store gk Divergence = store g Divergence /\
  List.length (renders gk) = (List.length (renders g) + k)%nat /\
  pressure gk = Nat.iter k reverse (pressure g) /\
  imgEq (store gk (fst (pressure gk)))
        (Nat.iter k (jacobiStep (store g Divergence))
           (store g (fst (pressure g)))).
Proof.
  intros Hp. induction k as [|k IH]; cbv zeta.
  - unfold pressureLoopState. simpl. repeat split; auto.
  - cbv zeta in IH. destruct IH as (Hk & Hd & Ht & HD & Hl & Hr & Hi).
    rewrite pressureLoopState_S.
    destruct (pressureIteration_spec _ Hk Hd Ht) as (R1 & R2 & R3 & R4 & R5 & R6).
    repeat split; auto.
    + rewrite R4. now apply isPair_reverse.
    + rewrite R3; [exact HD|]. destruct Hk as [-> | ->]; discriminate.
    + rewrite R1, List.length_app, Hl. simpl. lia.
    + rewrite R4, Hr. reflexivity.
    + rewrite R4. unfold reverse at 1. cbn [fst].
      rewrite Nat.iter_succ. intros i j. rewrite (R2 i j).
      apply jacobiStep_ext; [|exact Hi]. rewrite HD. intros ? ?; reflexivity.
Qed.

(** C1. In every solver step the pressure pass runs exactly 20 Jacobi
    iterations: the pass is the loop state after 20 iterations; each iteration
    issues one draw that reads the currently active pressure buffer and the
    divergence target and writes [(L + R + T + B - divergence) / 4] into the
    inactive pressure buffer, leaving every other target as it was, and then
    swaps the two buffers; the pass adds exactly 20 draws, and afterwards the
    active pressure buffer holds the 20th iterate. *)
Theorem pressure_pass_20_jacobi_iterations (g : Gpu) :
  arraysOk g ->
  pressurePass g = pressureLoopState g 20 /\
  (forall k, (k < 20)%nat ->
     let before := pressureLoopState g k in
     let after := pressureLoopState g (S k) in
     renders after =
       renders before ++ [mkRenderCall (snd (pressure before)) PressureMat
                            [Some (fst (pressure before)); Some Divergence]] /\
     imgEq (store after (snd (pressure before)))
           (jacobiStep (store before Divergence)
              (store before (fst (pressure before)))) /\
     (forall t, t <> snd (pressure before) -> store after t = store before t) /\
     pressure after = reverse (pressure before)) /\
  List.length (renders (pressurePass g)) = (List.length (renders g) + 20)%nat /\
  store (pressurePass g) Divergence = store g Divergence /\
  imgEq (store (pressurePass g) (fst (pressure (pressurePass g))))
        (Nat.iter 20 (jacobiStep (store g Divergence))
           (store g (fst (pressure g)))).
Proof.
  intros (_ & _ & Hp). split; [reflexivity|]. split.
  - intros k _ before after. subst before after.
    destruct (pressureLoop_invariant g k Hp) as (Hk & Hd & Ht & _).
    rewrite pressureLoopState_S.
    destruct (pressureIteration_spec _ Hk Hd Ht) as (R1 & R2 & R3 & R4 & _).
    auto.
  - change (pressurePass g) with (pressureLoopState g 20).
    destruct (pressureLoop_invariant g 20 Hp) as (_ & _ & _ & HD & Hl & _ & Hi).
    auto.
Qed.

Lemma arraysOk_gpu0 : arraysOk gpu0.
Proof. repeat split; left; reflexivity. Qed.

Lemma pressure_pass_20_jacobi_iterations_witness :
  arraysOk gpu0 /\
  List.length (renders (pressurePass gpu0)) = (List.length (renders gpu0) + 20)%nat.
Proof.
  assert (H : arraysOk gpu0) by (repeat split; left; reflexivity).
  split; [exact H|].
  exact (proj1 (proj2 (proj2 (pressure_pass_20_jacobi_iterations gpu0 H)))).
Defined.

(* ===================================================================== *)
(** ** The divergence pass *)
(* ===================================================================== *)

Lemma Rltb_false a b : b <= a -> Rltb a b = false.
Proof. intros H. unfold Rltb. destruct (Rlt_dec a b); [lra | reflexivity]. Qed.

Lemma Rltb_true a b : a < b -> Rltb a b = true.
Proof. intros H. unfold Rltb. destruct (Rlt_dec a b); [reflexivity | lra]. Qed.

(** A fragment coordinate of a full-screen draw lies strictly inside the unit
    square. *)
Lemma fragCoord_inside res i j :
  (0 <= i < res)%Z -> (0 <= j < res)%Z ->
  0 < v2x (fragCoord res i j) < 1 /\ 0 < v2y (fragCoord res i j) < 1.
Proof.
  intros [Hi0 Hi1] [Hj0 Hj1]. simpl.
  assert (Hr : 0 < IZR res) by (apply IZR_lt; lia).
  apply IZR_le in Hi0, Hj0.
  assert (IZR i + 1 <= IZR res) by (rewrite <- plus_IZR; apply IZR_le; lia).
  assert (IZR j + 1 <= IZR res) by (rewrite <- plus_IZR; apply IZR_le; lia).
  repeat split.
  - apply Rdiv_lt_0_compat; lra.
  - apply Rmult_lt_reg_r with (IZR res); [lra|].
    unfold Rdiv. rewrite Rmult_assoc, Rinv_l by lra. lra.
  - apply Rdiv_lt_0_compat; lra.
  - apply Rmult_lt_reg_r with (IZR res); [lra|].
    unfold Rdiv. rewrite Rmult_assoc, Rinv_l by lra. lra.
Qed.

(** On every pixel of the draw none of the four boundary tests of the shader
    holds, and the result is the central difference of clamped neighbours. *)
Lemma DIVERGENCE_SHADER_texel (v : Image) (i j : Z) :
  (0 <= i < simRes)%Z -> (0 <= j < simRes)%Z ->
  DIVERGENCE_SHADER (mkSampler simRes v) (texel simRes) (fragCoord simRes i j)
  = divergenceClamped v i j.
Proof.
  intros Hi Hj. unfold DIVERGENCE_SHADER, divergenceClamped. cbv zeta.
  destruct (fragCoord_inside simRes i j Hi Hj) as [[X0 X1] [Y0 Y1]].
  unfold Rgtb. rewrite !Rltb_false by lra.
  rewrite sample_L, sample_R, sample_T, sample_B by exact simRes_pos.
  reflexivity.
Qed.

Lemma divergencePass_store (g : Gpu) (i j : Z) :
  isPair Velocity0 Velocity1 (velocity g) ->
  (0 <= i < simRes)%Z -> (0 <= j < simRes)%Z ->
  store (divergencePass g) Divergence i j
  = divergenceClamped (store g (fst (velocity g))) i j.
Proof.
  intros Hv Hi Hj. unfold divergencePass, renderPass. simpl.
  rewrite upd_same. unfold renderQuad. simpl.
  destruct Hv as [-> | ->]; simpl; now apply DIVERGENCE_SHADER_texel.
Qed.

(** Away from the boundary the two formulas agree. *)
Lemma divergence_interior (v : Image) (i j : Z) :
  (0 < i < simRes - 1)%Z -> (0 < j < simRes - 1)%Z ->
  divergenceClamped v i j = divergenceFreeSlip v i j.
Proof.
  intros Hi Hj. unfold divergenceClamped, divergenceFreeSlip. cbv zeta.
  rewrite !clampZ_id by lia.
  destruct (Z.eqb_spec i 0); [lia|]. destruct (Z.eqb_spec i (simRes - 1)); [lia|].
  destruct (Z.eqb_spec j 0); [lia|]. destruct (Z.eqb_spec j (simRes - 1)); [lia|].
  f_equal. lra.
Qed.

(** On the left edge the two formulas differ by the edge texel's own
    horizontal velocity: the code reads it un-negated. *)
Lemma divergence_left_edge (v : Image) (j : Z) :
  (0 < j < simRes - 1)%Z ->
  v4x (divergenceFreeSlip v 0%Z j) - v4x (divergenceClamped v 0%Z j)
  = v4x (v 0%Z j).
Proof.
  intros Hj. unfold divergenceClamped, divergenceFreeSlip. cbv zeta.
  rewrite (clampZ_id simRes j) by lia.
  rewrite (clampZ_id simRes (j + 1)) by lia.
  rewrite (clampZ_id simRes (j - 1)) by lia.
  destruct (Z.eqb_spec j 0); [lia|]. destruct (Z.eqb_spec j (simRes - 1)); [lia|].
  simpl.
  change (clampZ simRes 1) with 1%Z. change (clampZ simRes (-1)) with 0%Z.
  change (clampZ simRes 0) with 0%Z. lra.
Qed.

(** C2 (the code departs from the claim).  On a velocity field flowing
    uniformly to the right, the divergence pass writes 0 in the corner texel
    [(0, 0)], where the boundary rule of the claim (outside neighbour replaced
    by the negated own component) gives 1: the boundary tests of the shader
    never hold on a pixel of the draw, and the clamped sampler returns the
    boundary texel's own, un-negated, value. *)
Theorem divergence_pass_boundary_not_negated :
  store (divergencePass gpuUniformFlow) Divergence 0%Z 0%Z = vec4 0 0 0 1 /\
  divergenceFreeSlip (store gpuUniformFlow (fst (velocity gpuUniformFlow)))
    0%Z 0%Z = vec4 1 0 0 1.
Proof.
  split.
  - rewrite divergencePass_store;
      [ | left; reflexivity | unfold simRes; lia | unfold simRes; lia ].
    unfold divergenceClamped, gpuUniformFlow, uniformFlow. simpl.
    f_equal. lra.
  - unfold divergenceFreeSlip, gpuUniformFlow, uniformFlow. simpl.
    f_equal. lra.
Qed.

(* ===================================================================== *)
(** ** The splat *)
(* ===================================================================== *)

Lemma SPLAT_SHADER_texel size res (base : Image) color x y radius i j :
  (0 < res)%Z ->
  SPLAT_SHADER (mkSampler res base) (width size / height size) color
    (vec2 x (1 - y)) radius (fragCoord res i j)
  = addGaussian res (gaussianWeight size res x y radius) color base i j.
Proof.
  intros Hr. unfold SPLAT_SHADER, addGaussian, gaussianWeight, splatDistance2.
  cbv zeta. rewrite sample_C by assumption. reflexivity.
Qed.

(** C3. [applySplat] issues exactly two draws.  The first reads the active
    velocity buffer and writes into the inactive one, at every texel, the
    active value plus [exp(-distance^2/radius) * (dx, -dy, 1)]; the velocity
    buffers then swap.  The second does the same on the density buffers with
    [color] as the deposited quantity, with the same point, radius and aspect
    ratio; the density buffers then swap.  No other target is written. *)
Theorem applySplat_spec (size : Size) (x y dx dy : R) (color : Vec3)
    (radius : R) (g : Gpu) :
  arraysOk g ->
  let g' := applySplat size x y dx dy color radius g in
  renders g' =
    renders g ++
      [mkRenderCall (snd (velocity g)) SplatMat [Some (fst (velocity g))];
       mkRenderCall (snd (density g)) SplatMat [Some (fst (density g))]] /\
  velocity g' = reverse (velocity g) /\
  density g' = reverse (density g) /\
  pressure g' = pressure g /\
  imgEq (store g' (snd (velocity g)))
        (addGaussian simRes (gaussianWeight size simRes x y radius)
           (vec3 dx (- dy) 1) (store g (fst (velocity g)))) /\
  imgEq (store g' (snd (density g)))
        (addGaussian dyeRes (gaussianWeight size dyeRes x y radius)
           color (store g (fst (density g)))) /\
  (forall t, t <> snd (velocity g) -> t <> snd (density g) ->
     store g' t = store g t) /\
  splats g' = splats g ++ [mkSplat x y dx dy color radius].
Proof.
  intros (Hv & Hd & _) g'. subst g'. unfold applySplat. simpl.
  repeat split.
  - rewrite <- app_assoc. reflexivity.
  - intros i j.
    destruct Hv as [-> | ->], Hd as [-> | ->]; unfold upd; simpl;
      unfold renderQuad; simpl; apply SPLAT_SHADER_texel; reflexivity.
  - intros i j.
    destruct Hv as [-> | ->], Hd as [-> | ->]; unfold upd; simpl;
      unfold renderQuad; simpl; apply SPLAT_SHADER_texel; reflexivity.
  - intros t H1 H2. simpl in H1, H2. rewrite !upd_other; auto.
Qed.

Lemma applySplat_spec_witness :
  arraysOk gpu0 /\
  velocity (applySplat (mkSize 800 600) 0.5 0.5 50 0 (vec3 1 0 0) 0.001 gpu0)
  = (Velocity1, Velocity0).
Proof.
  assert (H : arraysOk gpu0) by (repeat split; left; reflexivity).
  split; [exact H|].
  exact (proj1 (proj2
    (applySplat_spec (mkSize 800 600) 0.5 0.5 50 0 (vec3 1 0 0) 0.001 gpu0 H))).
Defined.

(* ===================================================================== *)
(** ** Timelines *)
(* ===================================================================== *)

Lemma insertEvent_last (e : ParamEvent) (l : list ParamEvent) :
  Forall (fun e' => eventTime e' <= eventTime e) l ->
  insertEvent e l = l ++ [e].
Proof.
  induction 1 as [|e' l He' _ IH]; simpl; [reflexivity|].
  rewrite Rltb_false by exact He'. now rewrite IH.
Qed.

Lemma settledBy_mono now now' p :
  now <= now' -> settledBy now p -> settledBy now' p.
Proof.
  intros Hle H. unfold settledBy in *. eapply Forall_impl; [|exact H].
  simpl. intros; lra.
Qed.

Lemma settledBy_cancel now p : settledBy now (cancelScheduledValues now p).
Proof.
  unfold settledBy, cancelScheduledValues. simpl. apply Forall_forall.
  intros e He. apply filter_In in He. destruct He as [_ He].
  unfold Rltb in He. destruct (Rlt_dec (eventTime e) now); [lra|discriminate].
Qed.

Lemma setValueAtTime_settled v now p :
  settledBy now p ->
  p_events (setValueAtTime v now p) = p_events p ++ [SetValueAtTime v now] /\
  settledBy now (setValueAtTime v now p).
Proof.
  intros H. unfold setValueAtTime. simpl.
  rewrite insertEvent_last by exact H. split; [reflexivity|].
  unfold settledBy. simpl. apply Forall_app. split; [exact H|].
  constructor; [simpl; lra | constructor].
Qed.

(** After a set-value event is scheduled last at [now], the parameter holds
    that value from [now] on. *)
Lemma valueAt_setValueAtTime v now p t :
  settledBy now p -> now <= t ->
  valueAt (setValueAtTime v now p) t = v.
Proof.
  intros H Ht. unfold valueAt.
  rewrite (proj1 (setValueAtTime_settled v now p H)).
  rewrite filter_app, fold_left_app. simpl.
  rewrite Rltb_false by exact Ht. reflexivity.
Qed.

(* ===================================================================== *)
(** ** Applying a preset *)
(* ===================================================================== *)

Lemma fold_left_push {A B : Type} (f : A -> B) (l : list A) (acc : list B) :
  fold_left (fun acc a => acc ++ [f a]) l acc = acc ++ map f l.
Proof.
  revert acc. induction l as [|a l IH]; intros acc; simpl.
  - now rewrite app_nil_r.
  - rewrite IH, <- app_assoc. reflexivity.
Qed.

Lemma not_None_Some {A : Type} (o : option A) : o <> None -> exists a, o = Some a.
Proof. destruct o; [eauto | congruence]. Qed.

(** On an initialised service [setInstrument] succeeds and puts the preset in
    force, whatever the state before; the delay line follows when it had no
    automation scheduled in the future. *)
Lemma setInstrument_applies (type : InstrumentType.t) (s : AudioService) :
  initialized s ->
  exists s', setInstrument type s = Some s' /\
             initialized s' /\ presetApplied type s' /\
             ctx s' = ctx s /\ globalGain s' = globalGain s /\
             (delaySettled s -> delaySettled s' /\ delayApplied type s').
Proof.
  intros (Hi & Hc & Hf & Hg & Hd & Hfb & Hdg & Hgg).
  apply not_None_Some in Hc, Hf, Hg, Hd, Hfb, Hdg.
  destruct Hc as [c Hc], Hf as [mf Hf], Hg as [mg Hg], Hd as [dn Hd],
    Hfb as [df Hfb], Hdg as [dg Hdg].
  unfold setInstrument. rewrite Hc, Hi. simpl. rewrite Hf, Hg, Hd, Hfb, Hdg.
  eexists. split; [reflexivity|]. simpl.
  pose proof (settledBy_cancel (currentTime c) (bq_frequency mf)) as C1.
  pose proof (settledBy_cancel (currentTime c) (gain mg)) as C2.
  split; [|split; [|split; [|split]]].
  - repeat split; simpl; try congruence.
  - unfold presetApplied. cbv zeta. simpl. split; [reflexivity|]. split.
    + unfold bank, presetBank. simpl. rewrite fold_left_push. simpl.
      rewrite map_map. reflexivity.
    + exists c. do 2 eexists. rewrite Hc.
      repeat (split; [reflexivity|]). simpl.
      intros t Ht. split; apply valueAt_setValueAtTime; assumption.
  - simpl. congruence.
  - reflexivity.
  - intros Hs. destruct (Hs c dn df dg Hc Hd Hfb Hdg) as (S1 & S2 & S3). split.
    + intros c' dn' df' dg'. simpl. intros E1 E2 E3 E4.
      rewrite Hc in E1. inversion E1; inversion E2; inversion E3; inversion E4.
      subst. simpl.
      repeat split; apply setValueAtTime_settled; assumption.
    + unfold delayApplied. cbv zeta. simpl.
      exists c. do 3 eexists. rewrite Hc.
      repeat (split; [reflexivity|]). simpl.
      intros t Ht. repeat split; apply valueAt_setValueAtTime; assumption.
Qed.

Lemma advanceClock_initialized dt s : initialized s -> initialized (advanceClock dt s).
Proof.
  intros (Hi & Hc & H). unfold advanceClock.
  destruct (ctx s) eqn:E; [|congruence].
  repeat split; simpl; try tauto; congruence.
Qed.

Lemma advanceClock_delaySettled dt s :
  0 <= dt -> delaySettled s -> delaySettled (advanceClock dt s).
Proof.
  intros Hdt Hs. unfold advanceClock. destruct (ctx s) as [c|] eqn:E; [|exact Hs].
  intros c' dn df dg. simpl. intros E1 E2 E3 E4. inversion E1; subst. simpl.
  destruct (Hs c dn df dg E E2 E3 E4) as (S1 & S2 & S3).
  repeat split; eapply settledBy_mono; try eassumption; lra.
Qed.

(** C6. On an initialised audio engine, selecting preset A, then B, then A
    again (the audio clock advancing in between) succeeds at every step and
    leaves the oscillator bank's waveforms, frequencies and detunes equal to
    those of the first selection of A, which are the preset table's; every
    selection puts its preset in force from the table alone, whatever the
    state before: bank, filter type, Q and cutoff, and main gain at silence;
    and so for the delay time, feedback and mix when, as in every state the
    engine reaches, no delay automation is scheduled in the future. *)
Theorem setInstrument_round_trip (A B : InstrumentType.t) (d1 d2 : R)
    (s : AudioService) :
  initialized s ->
  exists s1 s2 s3,
    setInstrument A s = Some s1 /\
    setInstrument B (advanceClock d1 s1) = Some s2 /\
    setInstrument A (advanceClock d2 s2) = Some s3 /\
    bank s3 = bank s1 /\
    bank s1 = presetBank A /\
    presetApplied A s1 /\ presetApplied B s2 /\ presetApplied A s3 /\
    (delaySettled s -> 0 <= d1 -> 0 <= d2 ->
     delayApplied A s1 /\ delayApplied B s2 /\ delayApplied A s3).
Proof.
  intros Hi.
  destruct (setInstrument_applies A s Hi) as (s1 & E1 & I1 & P1 & _ & _ & D1).
  destruct (setInstrument_applies B (advanceClock d1 s1)
              (advanceClock_initialized d1 s1 I1))
    as (s2 & E2 & I2 & P2 & _ & _ & D2).
  destruct (setInstrument_applies A (advanceClock d2 s2)
              (advanceClock_initialized d2 s2 I2))
    as (s3 & E3 & I3 & P3 & _ & _ & D3).
  exists s1, s2, s3. repeat (split; [assumption|]).
  pose proof (proj1 (proj2 P1)) as B1. pose proof (proj1 (proj2 P3)) as B3.
  split; [congruence|]. split; [exact B1|].
  repeat (split; [assumption|]).
  intros Hs H1 H2.
  destruct (D1 Hs) as [S1 A1].
  destruct (D2 (advanceClock_delaySettled d1 s1 H1 S1)) as [S2 A2].
  destruct (D3 (advanceClock_delaySettled d2 s2 H2 S2)) as [S3 A3].
  auto.
Qed.

Lemma init_newAudioService : init newAudioService = Some audio0.
Proof. reflexivity. Qed.

Lemma initialized_audio0 : initialized audio0.
Proof. repeat split; simpl; discriminate. Qed.

Lemma delaySettled_audio0 : delaySettled audio0.
Proof.
  intros c dn df dg E1 E2 E3 E4. simpl in *.
  inversion E1; inversion E2; inversion E3; inversion E4; subst; simpl.
  repeat split; constructor; simpl; try lra; constructor.
Qed.

Lemma setInstrument_round_trip_witness :
  initialized audio0 /\
  exists s1 s2 s3,
    setInstrument InstrumentType.orbit audio0 = Some s1 /\
    setInstrument InstrumentType.drone (advanceClock 1 s1) = Some s2 /\
    setInstrument InstrumentType.orbit (advanceClock 2 s2) = Some s3 /\
    bank s3 = bank s1 /\
    bank s1 = presetBank InstrumentType.orbit /\
    presetApplied InstrumentType.orbit s1 /\
    presetApplied InstrumentType.drone s2 /\
    presetApplied InstrumentType.orbit s3 /\
    (delaySettled audio0 -> 0 <= 1 -> 0 <= 2 ->
     delayApplied InstrumentType.orbit s1 /\
     delayApplied InstrumentType.drone s2 /\
     delayApplied InstrumentType.orbit s3).
Proof.
  assert (Hi : initialized audio0) by (repeat split; simpl; discriminate).
  split; [exact Hi|].
  exact (setInstrument_round_trip InstrumentType.orbit InstrumentType.drone
           1 2 audio0 Hi).
Defined.

(* ===================================================================== *)
(** ** The gain ramp of [update] *)
(* ===================================================================== *)

Lemma setInstrument_orbit_audio0 :
  setInstrument InstrumentType.orbit audio0 = Some audioOrbit.
Proof.
  unfold setInstrument, audio0, audioOrbit. simpl.
  unfold setValueAtTime, cancelScheduledValues. simpl.
  rewrite !Rltb_false by lra. reflexivity.
Qed.

Lemma update_mainGain (v : R) (s : AudioService) c mf mg :
  ctx s = Some c -> mainFilter s = Some mf -> mainGain s = Some mg ->
  isInitialized s = true ->
  let config := INSTRUMENTS (currentType s) in
  let intensity := Rmin v 1.2 in
  mainGain (update v s) =
    Some (mkGainNode
            (setTargetAtTime
               (if Rgtb intensity 0.001
                then gc_base (gain_ config) + intensity * gc_mod (gain_ config)
                else 0)
               (currentTime c)
               (if Rgtb intensity 0.001 then gc_attack (gain_ config)
                else releaseTime)
               (gain mg))).
Proof.
  intros Hc Hf Hg Hi. unfold update. rewrite Hc, Hf, Hg, Hi. reflexivity.
Qed.

(** C7 (as the code has it).  On an initialised engine, for every preset,
    [update(velocity)] schedules on the main gain one ramp at the current
    time: with [intensity = min(velocity, 1.2)], toward
    [base + intensity * mod] with the preset's attack time constant when
    [intensity > 0.001], and toward 0 with the release time constant 0.5
    otherwise.  The release time constant is never smaller than the preset's
    attack, and is strictly larger for every preset except [orbit], whose
    attack is 0.5 as well. *)
Theorem update_gain_ramp (v : R) (s : AudioService) c mf mg :
  ctx s = Some c -> mainFilter s = Some mf -> mainGain s = Some mg ->
  isInitialized s = true ->
  let config := INSTRUMENTS (currentType s) in
  let intensity := Rmin v 1.2 in
  (intensity > 0.001 ->
     mainGain (update v s) =
       Some (mkGainNode
               (setTargetAtTime
                  (gc_base (gain_ config) + intensity * gc_mod (gain_ config))
                  (currentTime c) (gc_attack (gain_ config)) (gain mg)))) /\
  (intensity <= 0.001 ->
     mainGain (update v s) =
       Some (mkGainNode
               (setTargetAtTime 0 (currentTime c) releaseTime (gain mg)))) /\
  gc_attack (gain_ config) <= releaseTime /\
  (gc_attack (gain_ config) < releaseTime <->
     currentType s <> InstrumentType.orbit).
Proof.
  intros Hc Hf Hg Hi config intensity.
  pose proof (update_mainGain v s c mf mg Hc Hf Hg Hi) as H. cbv zeta in H.
  fold config intensity in H.
  split; [|split; [|split]].
  - intros Ha. rewrite H. unfold Rgtb. now rewrite Rltb_true by lra.
  - intros Ha. rewrite H. unfold Rgtb. now rewrite Rltb_false by lra.
  - subst config. unfold releaseTime. destruct (currentType s); simpl; lra.
  - subst config. unfold releaseTime.
    destruct (currentType s); simpl; split; intros; try lra; try discriminate;
      congruence.
Qed.

Lemma update_gain_ramp_witness :
  gc_attack (gain_ (INSTRUMENTS (currentType audio0))) <= releaseTime.
Proof.
  exact (proj1 (proj2 (proj2
    (update_gain_ramp 1 audio0 (mkAudioContext 0)
       (mkBiquadFilterNode lowpass
          (mkParam 350 [SetValueAtTime 200 0]) (mkParam 0.5 []))
       (mkGainNode (mkParam 1 [SetValueAtTime 0 0]))
       eq_refl eq_refl eq_refl eq_refl)))).
Defined.

(** C7, the claim as stated fails: with the [orbit] preset in force, the ramp
    toward silence scheduled by [update(0)] has the same time constant, 0.5,
    as the ramp scheduled by [update(1)]; release is not strictly slower than
    attack. *)
Lemma release_not_slower_than_attack_for_orbit :
  exists attack release,
    lastRamp (update 1 audioOrbit) = Some (0.05 + 1 * 0.4, attack) /\
    lastRamp (update 0 audioOrbit) = Some (0, release) /\
    ~ attack < release.
Proof.
  exists 0.5, 0.5.
  assert (E : forall v,
             mainGain (update v audioOrbit) =
             Some (mkGainNode
                     (setTargetAtTime
                        (if Rgtb (Rmin v 1.2) 0.001
                         then 0.05 + Rmin v 1.2 * 0.4 else 0)
                        0
                        (if Rgtb (Rmin v 1.2) 0.001 then 0.5 else releaseTime)
                        (mkParam 1 [SetValueAtTime 0 0])))).
  { intros v. reflexivity. }
  unfold lastRamp. rewrite !E.
  unfold setTargetAtTime, releaseTime. simpl.
  rewrite !Rltb_false by lra. simpl.
  rewrite (Rmin_left 1 1.2), (Rmin_left 0 1.2) by lra.
  unfold Rgtb. rewrite (Rltb_true 0.001 1), (Rltb_false 0.001 0) by lra.
  split; [reflexivity|]. split; [reflexivity|lra].
Qed.

(* ===================================================================== *)
(** ** Mute and master volume *)
(* ===================================================================== *)

(** C10. While the engine is muted, [setMasterVolume(v)] only records [v]:
    the state afterwards is the state before with [masterVolume] replaced, so
    nothing is scheduled on the output gain.  A following [setMute(false)]
    clears the mute flag and, when the output gain exists, schedules on it one
    ramp toward the volume recorded last, with time constant 0.1; a volume
    recorded earlier while muted leaves no trace. *)
Theorem setMasterVolume_while_muted (v w : R) (s : AudioService) :
  isMuted s = true ->
  setMasterVolume v s = set_masterVolume v s /\
  globalGain (setMasterVolume v s) = globalGain s /\
  setMasterVolume v (setMasterVolume w s) = setMasterVolume v s /\
  forall gg c, globalGain s = Some gg -> ctx s = Some c ->
    setMute false (setMasterVolume v s) =
    set_globalGain
      (Some (mkGainNode (setTargetAtTime v (currentTime c) 0.1 (gain gg))))
      (set_isMuted false (set_masterVolume v s)).
Proof.
  intros Hm.
  assert (E : forall u s', isMuted s' = true ->
                setMasterVolume u s' = set_masterVolume u s').
  { intros u s' H. unfold setMasterVolume. simpl. rewrite H. simpl.
    destruct (globalGain s'), (ctx s'); reflexivity. }
  split; [now apply E|]. split; [now rewrite E|]. split.
  - rewrite (E w s Hm), !E by (simpl; assumption). reflexivity.
  - intros gg c Hg Hc. rewrite (E v s Hm). unfold setMute. simpl.
    rewrite Hg, Hc. reflexivity.
Qed.

Lemma setMasterVolume_while_muted_witness :
  isMuted audioMuted = true /\
  globalGain (setMasterVolume 0.8 audioMuted) = globalGain audioMuted.
Proof.
  split; [reflexivity|].
  exact (proj1 (proj2
    (setMasterVolume_while_muted 0.8 0.8 audioMuted eq_refl))).
Defined.

(** On the muted engine the output gain keeps its ramp toward 0 when the
    volume is set to 0.8, and unmuting schedules the ramp toward 0.8 after
    it. *)
Lemma muted_volume_example :
  globalGain (setMasterVolume 0.8 audioMuted)
  = Some (mkGainNode (mkParam 0.5 [SetTargetAtTime 0 0 0.1])) /\
  masterVolume (setMasterVolume 0.8 audioMuted) = 0.8 /\
  globalGain (setMute false (setMasterVolume 0.8 audioMuted))
  = Some (mkGainNode
            (mkParam 0.5 [SetTargetAtTime 0 0 0.1; SetTargetAtTime 0.8 0 0.1])).
Proof.
  split; [reflexivity|]. split; [reflexivity|].
  unfold setMute, setMasterVolume. simpl. unfold setTargetAtTime. simpl.
  rewrite Rltb_false by lra. reflexivity.
Qed.

(* ===================================================================== *)
(** ** Frame lemmas: what each stage leaves alone *)
(* ===================================================================== *)

Lemma pressureIteration_splats g : splats (pressureIteration g) = splats g.
Proof. reflexivity. Qed.

Lemma pressureLoopState_splats g k : splats (pressureLoopState g k) = splats g.
Proof.
  induction k as [|k IH]; [reflexivity|].
  rewrite pressureLoopState_S, pressureIteration_splats. exact IH.
Qed.

Lemma pressurePass_splats g : splats (pressurePass g) = splats g.
Proof. exact (pressureLoopState_splats g 20). Qed.

Lemma advectVelocity_splats mode g : splats (advectVelocity mode g) = splats g.
Proof. reflexivity. Qed.

Lemma advectDensity_splats mode g : splats (advectDensity mode g) = splats g.
Proof. reflexivity. Qed.

Lemma divergencePass_splats g : splats (divergencePass g) = splats g.
Proof. reflexivity. Qed.

Lemma gradientSubtract_splats g : splats (gradientSubtract g) = splats g.
Proof. reflexivity. Qed.

Lemma bindDisplay_splats g : splats (bindDisplay g) = splats g.
Proof. reflexivity. Qed.

Lemma solverStep_splats mode g : splats (solverStep mode g) = splats g.
Proof.
  unfold solverStep.
  rewrite bindDisplay_splats, gradientSubtract_splats, pressurePass_splats,
    divergencePass_splats, advectDensity_splats, advectVelocity_splats.
  reflexivity.
Qed.

Arguments solverStep : simpl never.

Arguments pressurePass : simpl never.

Lemma forEachAgent_agents size mode t agents i g :
  fst (forEachAgent size mode t agents i g) = map (followTarget t) agents.
Proof.
  revert i g. induction agents as [|agent rest IH]; intros i g; simpl.
  - reflexivity.
  - destruct (ambienceTarget t agent) as [tx ty] eqn:E.
    match goal with
    | |- context [forEachAgent size mode t rest ?j ?h] =>
        specialize (IH j h); destruct (forEachAgent size mode t rest j h)
    end.
    simpl in *. now rewrite IH.
Qed.

Lemma forEachAgent_splats size mode t agents i g :
  List.length (splats (snd (forEachAgent size mode t agents i g)))
  = (List.length (splats g) + List.length agents)%nat.
Proof.
  revert i g. induction agents as [|agent rest IH]; intros i g; simpl.
  - lia.
  - destruct (ambienceTarget t agent) as [tx ty] eqn:E.
    match goal with
    | |- context [forEachAgent size mode t rest ?j ?h] =>
        specialize (IH j h); destruct (forEachAgent size mode t rest j h)
    end.
    simpl in *. rewrite IH, List.length_app. simpl. lia.
Qed.

Section DriverFacts.

Variable random : nat -> R.

Variable setHSL : R -> R -> R -> Vec3.

Lemma dropParticle_spec f color w :
  let w' := dropParticle random f color w in
  splats (gpu w') = splats (gpu w) ++ [burstSplat random color (randomDraws w)] /\
  randomDraws w' = (randomDraws w + 5)%nat /\
  pointer w' = pointer w /\ wanderer w' = wanderer w /\
  lastBass w' = lastBass w /\ movementRef w' = movementRef w /\
  ambienceAgents w' = ambienceAgents w /\ audioService w' = audioService w.
Proof.
  unfold dropParticle, Math_random, burstSplat. simpl.
  replace (randomDraws w + 1)%nat with (S (randomDraws w)) by lia.
  replace (randomDraws w + 2)%nat with (S (S (randomDraws w))) by lia.
  replace (randomDraws w + 3)%nat with (S (S (S (randomDraws w)))) by lia.
  replace (randomDraws w + 4)%nat with (S (S (S (S (randomDraws w))))) by lia.
  repeat split. lia.
Qed.

(** The burst loop emits [n] splats after [n] iterations and touches nothing
    but the GPU and the random source. *)
Lemma dropLoop_spec f color w n :
  let w' := forLoop n (fun _ => dropParticle random f color) w in
  splats (gpu w')
  = splats (gpu w)
    ++ map (fun k => burstSplat random color (randomDraws w + 5 * k)) (seq 0 n) /\
  randomDraws w' = (randomDraws w + 5 * n)%nat /\
  pointer w' = pointer w /\ wanderer w' = wanderer w /\
  lastBass w' = lastBass w /\ movementRef w' = movementRef w /\
  ambienceAgents w' = ambienceAgents w /\ audioService w' = audioService w.
Proof.
  induction n as [|n IH]; cbv zeta.
  - simpl. rewrite app_nil_r. repeat split. lia.
  - cbv zeta in IH. destruct IH as (I1 & I2 & I3 & I4 & I5 & I6 & I7 & I8).
    change (forLoop (S n) (fun _ => dropParticle random f color) w)
      with (dropParticle random f color
              (forLoop n (fun _ => dropParticle random f color) w)).
    destruct (dropParticle_spec f color
                (forLoop n (fun _ => dropParticle random f color) w))
      as (D1 & D2 & D3 & D4 & D5 & D6 & D7 & D8).
    repeat split; try congruence.
    + rewrite D1, I1, I2, seq_S, map_app, <- app_assoc. reflexivity.
    + rewrite D2, I2. lia.
Qed.

Lemma inputInteraction_frame f w :
  let w' := inputInteraction random f w in
  wanderer w' = wanderer w /\ lastBass w' = lastBass w /\
  movementRef w' = movementRef w /\ ambienceAgents w' = ambienceAgents w /\
  analyser (audioService w') = analyser (audioService w) /\
  dataArray (audioService w') = dataArray (audioService w).
Proof.
  assert (U : forall v s, analyser (update v s) = analyser s /\
                          dataArray (update v s) = dataArray s).
  { intros v s. unfold update.
    destruct (ctx s), (mainFilter s), (mainGain s); try (split; reflexivity).
    destruct (isInitialized s); split; reflexivity. }
  unfold inputInteraction. destruct (ptr_moved (pointer w)); simpl;
    repeat split; apply U.
Qed.

Lemma moveWanderer_frame f d w :
  let w' := moveWanderer f d w in
  gpu w' = gpu w /\ pointer w' = pointer w /\ lastBass w' = lastBass w /\
  ambienceAgents w' = ambienceAgents w /\ audioService w' = audioService w /\
  randomDraws w' = randomDraws w.
Proof. unfold moveWanderer. simpl. repeat split. Qed.

Lemma trailSplat_spec f d color w :
  let w' := trailSplat f d color w in
  (exists trail,
     splats (gpu w') = splats (gpu w) ++ trail /\
     List.length trail = if Rgtb (volAvgOf d) 2 then 1%nat else 0%nat) /\
  pointer w' = pointer w /\ wanderer w' = wanderer w /\
  lastBass w' = lastBass w /\ movementRef w' = movementRef w /\
  ambienceAgents w' = ambienceAgents w /\ audioService w' = audioService w /\
  randomDraws w' = randomDraws w.
Proof.
  unfold trailSplat. simpl. destruct (Rgtb (volAvgOf d) 2); simpl.
  - split; [eexists; split; [reflexivity|reflexivity]|]. repeat split.
  - split; [exists []; split; [now rewrite app_nil_r|reflexivity]|].
    repeat split.
Qed.

Lemma dropBurst_spec f color w :
  let w' := dropBurst random f color w in
  splats (gpu w')
  = splats (gpu w)
    ++ map (fun k => burstSplat random color (randomDraws w + 5 * k))
         (seq 0 dropParticleCount) /\
  randomDraws w' = (randomDraws w + 5 * dropParticleCount)%nat /\
  pointer w' = pointer w /\ wanderer w' = wanderer w /\
  lastBass w' = lastBass w /\ movementRef w' = movementRef w /\
  ambienceAgents w' = ambienceAgents w /\ audioService w' = audioService w.
Proof. exact (dropLoop_spec f color w dropParticleCount). Qed.

(** What the music branch does with an array: the splats it emits are the
    trailing splat, if any, followed by the burst, if the drop test holds; the
    last bass value becomes this frame's low-band average. *)
Lemma musicReact_spec f d w :
  let w' := musicReact random setHSL f d w in
  lastBass w' = bassAvgOf d /\
  pointer w' = pointer w /\
  ambienceAgents w' = ambienceAgents w /\
  audioService w' = audioService w /\
  exists trail burst,
    splats (gpu w') = splats (gpu w) ++ trail ++ burst /\
    List.length trail = (if Rgtb (volAvgOf d) 2 then 1%nat else 0%nat) /\
    List.length burst
    = (if isDrop (bassAvgOf d) (lastBass w) then 30%nat else 0%nat).
Proof.
  unfold musicReact.
  pose proof (moveWanderer_frame f d w) as M.
  pose proof (trailSplat_spec f d
                (musicColor setHSL (currentMode f) (elapsedTime f))
                (moveWanderer f d w)) as T.
  pose proof (dropBurst_spec f
                (musicColor setHSL (currentMode f) (elapsedTime f))
                (trailSplat f d
                   (musicColor setHSL (currentMode f) (elapsedTime f))
                   (moveWanderer f d w))) as D.
  revert M T D.
  generalize (dropBurst random f
                (musicColor setHSL (currentMode f) (elapsedTime f))
                (trailSplat f d
                   (musicColor setHSL (currentMode f) (elapsedTime f))
                   (moveWanderer f d w))) as w3.
  generalize (trailSplat f d
                (musicColor setHSL (currentMode f) (elapsedTime f))
                (moveWanderer f d w)) as w2.
  generalize (moveWanderer f d w) as w1.
  generalize (musicColor setHSL (currentMode f) (elapsedTime f)) as color.
  intros color w1 w2 w3 (M1 & M2 & M3 & M4 & M5 & M6)
    ((trail & T1 & T2) & T3 & T4 & T5 & T6 & T7 & T8 & T9)
    (D1 & D2 & D3 & D4 & D5 & D6 & D7 & D8).
  rewrite T5, M3.
  destruct (isDrop (bassAvgOf d) (lastBass w)); simpl.
  - repeat split; try congruence.
    exists trail. eexists. rewrite D1, T1, M1, <- app_assoc.
    split; [reflexivity|]. split; [exact T2|].
    rewrite length_map, length_seq. reflexivity.
  - repeat split; try congruence.
    exists trail, []. rewrite T1, M1, app_nil_r. auto.
Qed.

Lemma automatedSplats_pointer f w :
  pointer (automatedSplats random setHSL f w) = pointer w.
Proof.
  unfold automatedSplats. destruct (isMusicActive f); [|reflexivity].
  destruct (truthy (ambienceMode f)).
  - destruct (ambienceMode f); [|reflexivity]. unfold ambienceBranch.
    destruct (forEachAgent _ _ _ _ _ _). reflexivity.
  - unfold musicBranch.
    destruct (getAudioData (spectrum f) (audioService w)) as [[d|] svc];
      [|reflexivity].
    destruct (musicReact_spec f d (set_audioService svc w)) as (_ & P & _).
    exact P.
Qed.

End DriverFacts.

(* ===================================================================== *)
(** ** The music driver *)
(* ===================================================================== *)

Section MusicDriver.

Variable random : nat -> R.

Variable setHSL : R -> R -> R -> Vec3.

Lemma getAudioData_None sp s :
  fst (getAudioData sp s) = None -> getAudioData sp s = (None, s).
Proof.
  unfold getAudioData. destruct (analyser s), (dataArray s); simpl;
    intros H; try reflexivity; discriminate.
Qed.

Lemma set_audioService_same w : set_audioService (audioService w) w = w.
Proof. destruct w; reflexivity. Qed.

(** C8. When no analyser exists the snapshot accessor returns null and leaves
    the service as it is; and in a frame of the music driver whose snapshot is
    null, the automated-splat stage returns the state it was given: no splat
    is emitted, and wanderer, phase and last bass value are unchanged. *)
Theorem music_frame_without_snapshot (f : Frame) (w : World) :
  musicFrame f ->
  (analyser (audioService w) = None ->
     getAudioData (spectrum f) (audioService w) = (None, audioService w)) /\
  (fst (getAudioData (spectrum f) (audioService w)) = None ->
     automatedSplats random setHSL f w = w /\
     splats (gpu (automatedSplats random setHSL f w)) = splats (gpu w) /\
     wanderer (automatedSplats random setHSL f w) = wanderer w /\
     lastBass (automatedSplats random setHSL f w) = lastBass w).
Proof.
  intros [Hm Ha]. split.
  - intros Hn. unfold getAudioData. now rewrite Hn.
  - intros Hn.
    assert (E : automatedSplats random setHSL f w = w).
    { unfold automatedSplats, musicBranch. rewrite Hm, Ha.
      rewrite (getAudioData_None _ _ Hn). apply set_audioService_same. }
    rewrite E. auto.
Qed.

Lemma automatedSplats_music (f : Frame) (w : World) a d :
  musicFrame f ->
  analyser (audioService w) = Some a -> dataArray (audioService w) = Some d ->
  automatedSplats random setHSL f w
  = musicReact random setHSL f (map (spectrum f) (seq 0 (List.length d)))
      (set_audioService
         (set_dataArray (Some (map (spectrum f) (seq 0 (List.length d))))
            (audioService w)) w).
Proof.
  intros [Hm Ha] HA HD. unfold automatedSplats, musicBranch, getAudioData.
  rewrite Hm, Ha, HA, HD. reflexivity.
Qed.

Lemma isDrop_iff b l :
  isDrop b l = true
  <-> (110 <? b)%float = true /\ (20 <? b - l)%float = true.
Proof. unfold isDrop. apply andb_true_iff. Qed.

(** Two consecutive frames of the music driver: the first leaves its low-band
    average in [lastBass], and each frame tests its own average against the
    value it finds there. *)
Lemma consecutive_music_frames (f1 f2 : Frame) (w : World) a d :
  musicFrame f1 -> musicFrame f2 ->
  analyser (audioService w) = Some a -> dataArray (audioService w) = Some d ->
  let d1 := map (spectrum f1) (seq 0 (List.length d)) in
  let d2 := map (spectrum f2) (seq 0 (List.length d)) in
  let w1 := useFrame random setHSL f1 w in
  let w2 := automatedSplats random setHSL f2 w1 in
  lastBass w1 = bassAvgOf d1 /\
  emitsTrailAndBurst w (automatedSplats random setHSL f1 w) d1
    (isDrop (bassAvgOf d1) (lastBass w)) /\
  emitsTrailAndBurst w1 w2 d2 (isDrop (bassAvgOf d2) (bassAvgOf d1)).
Proof.
  intros F1 F2 HA HD d1 d2 w1 w2.
  (* first frame *)
  pose proof (automatedSplats_music f1 w a d F1 HA HD) as E1.
  fold d1 in E1.
  pose proof (musicReact_spec random setHSL f1 d1
                (set_audioService (set_dataArray (Some d1) (audioService w)) w))
    as S1.
  cbv zeta in S1. rewrite <- E1 in S1.
  destruct S1 as (L1 & _ & _ & A1 & trail1 & burst1 & Q1 & Q2 & Q3).
  change (gpu (set_audioService ?x ?y)) with (gpu y) in Q1.
  change (lastBass (set_audioService ?x ?y)) with (lastBass y) in Q3.
  pose proof (inputInteraction_frame random f1
                (automatedSplats random setHSL f1 w)) as I1.
  cbv zeta in I1. destruct I1 as (_ & IL & _ & _ & IA & ID).
  assert (Hw1 : lastBass w1 = bassAvgOf d1 /\
                analyser (audioService w1) = Some a /\
                dataArray (audioService w1) = Some d1).
  { subst w1. unfold useFrame.
    generalize dependent (inputInteraction random f1
                            (automatedSplats random setHSL f1 w)).
    intros w' IL IA ID. cbv zeta.
    change (lastBass (set_gpu ?g ?x)) with (lastBass x).
    change (audioService (set_gpu ?g ?x)) with (audioService x).
    rewrite IL, IA, ID, L1, A1.
    repeat split. exact HA. }
  destruct Hw1 as (HL & HA1 & HD1). clearbody w1.
  (* second frame *)
  pose proof (automatedSplats_music f2 w1 a d1 F2 HA1 HD1) as E2.
  assert (Hlen : List.length d1 = List.length d)
    by (unfold d1; now rewrite length_map, length_seq).
  rewrite Hlen in E2. fold d2 in E2.
  pose proof (musicReact_spec random setHSL f2 d2
                (set_audioService (set_dataArray (Some d2) (audioService w1)) w1))
    as S2.
  cbv zeta in S2. rewrite <- E2 in S2. fold w2 in S2.
  destruct S2 as (L2 & _ & _ & _ & trail & burst & P1 & P2 & P3).
  clearbody w2.
  change (gpu (set_audioService ?x ?y)) with (gpu y) in P1.
  change (lastBass (set_audioService ?x ?y)) with (lastBass y) in P3.
  rewrite HL in P3.
  split; [exact HL|].
  split; [exists trail1, burst1; auto|].
  exists trail, burst; auto.
Qed.

(** C4. Take two consecutive frames of the music driver, both with a snapshot
    of at least 15 bins, whose low-band averages, the doubles the program
    computes, are [b_prev] and [b_curr].  After the first frame the last bass
    value is [b_prev].  On the second frame the driver emits a burst of
    exactly 30 splats if the drop test holds for [b_curr] against [b_prev],
    and no burst otherwise; the drop test holds if and only if
    [b_curr > 110] and [b_curr - b_prev > 20], the comparisons and the
    subtraction being the program's, those of binary64.  The first frame does
    the same against the last bass value it finds.  In particular, from a
    last bass value of 0, the averages 50 then 130 give no burst and then one
    burst of 30, and the averages 100 then 115 give no burst. *)
Theorem drop_burst_iff (f1 f2 : Frame) (w : World) a d :
  musicFrame f1 -> musicFrame f2 ->
  analyser (audioService w) = Some a -> dataArray (audioService w) = Some d ->
  (15 <= List.length d)%nat ->
  let d1 := map (spectrum f1) (seq 0 (List.length d)) in
  let d2 := map (spectrum f2) (seq 0 (List.length d)) in
  let b_prev := bassAvgOf d1 in
  let b_curr := bassAvgOf d2 in
  let w1 := useFrame random setHSL f1 w in
  let w2 := automatedSplats random setHSL f2 w1 in
  lastBass w1 = b_prev /\
  emitsTrailAndBurst w (automatedSplats random setHSL f1 w) d1
    (isDrop b_prev (lastBass w)) /\
  emitsTrailAndBurst w1 w2 d2 (isDrop b_curr b_prev) /\
  (isDrop b_curr b_prev = true
   <-> (110 <? b_curr)%float = true /\ (20 <? b_curr - b_prev)%float = true) /\
  (isDrop 50 0 = false /\ isDrop 130 50 = true) /\
  (isDrop 100 0 = false /\ isDrop 115 100 = false).
Proof.
  intros F1 F2 HA HD _ d1 d2 b_prev b_curr w1 w2.
  destruct (consecutive_music_frames f1 f2 w a d F1 F2 HA HD) as (H1 & H2 & H3).
  split; [exact H1|]. split; [exact H2|]. split; [exact H3|].
  split; [apply isDrop_iff|].
  repeat split; vm_compute; reflexivity.
Qed.

(** Frames in which the music branch does not run, or runs without a
    snapshot, leave the last bass value alone: the frames compared by the drop
    test are consecutive frames of the music driver. *)
Lemma lastBass_kept_outside_music (f : Frame) (w : World) :
  ~ musicFrame f \/ fst (getAudioData (spectrum f) (audioService w)) = None ->
  lastBass (useFrame random setHSL f w) = lastBass w.
Proof.
  intros H.
  assert (E : lastBass (automatedSplats random setHSL f w) = lastBass w).
  { unfold automatedSplats.
    destruct (isMusicActive f) eqn:Em; [|reflexivity].
    destruct (truthy (ambienceMode f)) eqn:Ea.
    - destruct (ambienceMode f); [|reflexivity]. unfold ambienceBranch.
      destruct (forEachAgent _ _ _ _ _ _). reflexivity.
    - destruct H as [H|H]; [exfalso; apply H; split; assumption|].
      unfold musicBranch. rewrite (getAudioData_None _ _ H). reflexivity. }
  pose proof (inputInteraction_frame random f
                (automatedSplats random setHSL f w)) as I.
  cbv zeta in I. destruct I as (_ & IL & _).
  unfold useFrame.
  generalize dependent (inputInteraction random f
                          (automatedSplats random setHSL f w)).
  intros w' IL. cbv zeta.
  change (lastBass (set_gpu ?g ?x)) with (lastBass x). congruence.
Qed.

End MusicDriver.

Lemma music_frame_without_snapshot_witness :
  let w := world0 halves newAudioService in
  musicFrame (toneFrame x82) /\
  analyser (audioService w) = None /\
  automatedSplats halves greyHSL (toneFrame x82) w = w.
Proof.
  intros w.
  assert (F : musicFrame (toneFrame x82)) by (split; reflexivity).
  split; [exact F|]. split; [reflexivity|].
  exact (proj1 (proj2 (music_frame_without_snapshot halves greyHSL
                         (toneFrame x82) w F) eq_refl)).
Defined.

(* ===================================================================== *)
(** ** Concrete runs of the music driver *)
(* ===================================================================== *)

Lemma sumBins_tone (b : byte) (n k : nat) :
  (k <= n)%nat ->
  sumBins k (map (fun _ => b) (seq 0 n)) = INR k * byteR b.
Proof.
  intros Hk. unfold sumBins. induction k as [|k IH].
  - simpl. lra.
  - change (forLoop (S k) ?body ?s0) with (body k (forLoop k body s0)).
    cbv beta. rewrite IH by lia.
    rewrite (nth_indep _ x00 b) by (rewrite length_map, length_seq; lia).
    rewrite (map_nth (fun _ : nat => b) (seq 0 n) 0%nat k).
    rewrite S_INR. lra.
Qed.

(** The low-band averages of the four tones of the specification's example,
    as the program computes them. *)
Lemma bassAvgOf_tones :
  bassAvgOf (map (fun _ => x32) (seq 0 128)) = 50%float /\
  bassAvgOf (map (fun _ => x82) (seq 0 128)) = 130%float /\
  bassAvgOf (map (fun _ => x64) (seq 0 128)) = 100%float /\
  bassAvgOf (map (fun _ => x73) (seq 0 128)) = 115%float.
Proof. repeat split; vm_compute; reflexivity. Qed.

Lemma drop_burst_iff_witness :
  let w := world0 halves audio0 in
  let w1 := useFrame halves greyHSL (toneFrame x32) w in
  let w2 := automatedSplats halves greyHSL (toneFrame x82) w1 in
  musicFrame (toneFrame x32) /\ musicFrame (toneFrame x82) /\
  analyser (audioService w) = Some (mkAnalyserNode 256) /\
  dataArray (audioService w) = Some (repeat x00 128) /\
  (15 <= List.length (repeat x00 128))%nat /\
  lastBass w1 = 50%float /\
  emitsTrailAndBurst w (automatedSplats halves greyHSL (toneFrame x32) w)
    (map (fun _ => x32) (seq 0 128)) false /\
  emitsTrailAndBurst w1 w2 (map (fun _ => x82) (seq 0 128)) true.
Proof.
  intros w w1 w2.
  assert (F1 : musicFrame (toneFrame x32)) by (split; reflexivity).
  assert (F2 : musicFrame (toneFrame x82)) by (split; reflexivity).
  assert (HA : analyser (audioService w) = Some (mkAnalyserNode 256))
    by reflexivity.
  assert (HD : dataArray (audioService w) = Some (repeat x00 128))
    by reflexivity.
  assert (HL : (15 <= List.length (repeat x00 128))%nat)
    by (rewrite repeat_length; lia).
  repeat (split; [assumption|]).
  pose proof (drop_burst_iff halves greyHSL (toneFrame x32) (toneFrame x82)
                w (mkAnalyserNode 256) (repeat x00 128) F1 F2 HA HD HL) as H.
  cbv zeta in H. rewrite repeat_length in H.
  change (spectrum (toneFrame x32)) with (fun _ : nat => x32) in H.
  change (spectrum (toneFrame x82)) with (fun _ : nat => x82) in H.
  destruct bassAvgOf_tones as (T32 & T82 & _).
  rewrite T32, T82 in H.
  change (lastBass w) with 0%float in H.
  destruct H as (H1 & H2 & H3 & _ & (E1 & E2) & _).
  rewrite E1 in H2. rewrite E2 in H3.
  repeat split; assumption.
Defined.

(** The second run of the specification's example: bins reading 100, then
    115, give a trailing splat and no burst in either frame. *)
Lemma no_burst_100_115_example :
  let w := world0 halves audio0 in
  let w1 := useFrame halves greyHSL (toneFrame x64) w in
  let w2 := automatedSplats halves greyHSL (toneFrame x73) w1 in
  lastBass w1 = 100%float /\
  emitsTrailAndBurst w (automatedSplats halves greyHSL (toneFrame x64) w)
    (map (fun _ => x64) (seq 0 128)) false /\
  emitsTrailAndBurst w1 w2 (map (fun _ => x73) (seq 0 128)) false.
Proof.
  intros w w1 w2.
  assert (F1 : musicFrame (toneFrame x64)) by (split; reflexivity).
  assert (F2 : musicFrame (toneFrame x73)) by (split; reflexivity).
  pose proof (consecutive_music_frames halves greyHSL (toneFrame x64)
                (toneFrame x73) w (mkAnalyserNode 256) (repeat x00 128)
                F1 F2 eq_refl eq_refl) as H.
  cbv zeta in H. rewrite repeat_length in H.
  change (spectrum (toneFrame x64)) with (fun _ : nat => x64) in H.
  change (spectrum (toneFrame x73)) with (fun _ : nat => x73) in H.
  destruct bassAvgOf_tones as (_ & _ & T64 & T73).
  rewrite T64, T73 in H.
  change (lastBass w) with 0%float in H.
  change (isDrop 100 0) with false in H.
  change (isDrop 115 100) with false in H.
  exact H.
Qed.

(** A run on which the last bit decides.  The low-band sums 1632 and then
    1932 have exact averages 108.8 and 128.8, exactly 20 apart; the doubles
    the program holds, [0x1.b333333333333p+6] and [0x1.019999999999ap+7], are
    [0x1.4000000000004p+4] apart, that is 20.000000000000014: the test
    succeeds and the second frame emits the burst. *)
Lemma drop_on_rounded_averages_example :
  let w := world0 halves audio0 in
  let w1 := useFrame halves greyHSL (stepFrame 12 x6d x6c) w in
  let w2 := automatedSplats halves greyHSL (stepFrame 12 x81 x80) w1 in
  bassSumOf (map (spectrum (stepFrame 12 x6d x6c)) (seq 0 128)) = 1632%float /\
  bassSumOf (map (spectrum (stepFrame 12 x81 x80)) (seq 0 128)) = 1932%float /\
  (1932 - 1632) / 15 = 20 /\
  lastBass w1 = 0x1.b333333333333p+6%float /\
  (bassAvgOf (map (spectrum (stepFrame 12 x81 x80)) (seq 0 128)) - lastBass w1
   = 0x1.4000000000004p+4)%float /\
  emitsTrailAndBurst w1 w2 (map (spectrum (stepFrame 12 x81 x80)) (seq 0 128))
    true.
Proof.
  intros w w1 w2.
  assert (F1 : musicFrame (stepFrame 12 x6d x6c)) by (split; reflexivity).
  assert (F2 : musicFrame (stepFrame 12 x81 x80)) by (split; reflexivity).
  pose proof (consecutive_music_frames halves greyHSL (stepFrame 12 x6d x6c)
                (stepFrame 12 x81 x80) w (mkAnalyserNode 256) (repeat x00 128)
                F1 F2 eq_refl eq_refl) as H.
  cbv zeta in H. rewrite repeat_length in H.
  destruct H as (H1 & _ & H3). fold w1 in H1, H3. fold w2 in H3.
  assert (A1 : bassAvgOf (map (spectrum (stepFrame 12 x6d x6c)) (seq 0 128))
               = 0x1.b333333333333p+6%float) by (vm_compute; reflexivity).
  assert (A2 : bassAvgOf (map (spectrum (stepFrame 12 x81 x80)) (seq 0 128))
               = 0x1.019999999999ap+7%float) by (vm_compute; reflexivity).
  rewrite A1 in H1, H3. rewrite A2 in H3.
  change (isDrop 0x1.019999999999ap+7 0x1.b333333333333p+6) with true in H3.
  split; [vm_compute; reflexivity|]. split; [vm_compute; reflexivity|].
  split; [lra|]. split; [exact H1|]. rewrite H1, A2.
  split; [vm_compute; reflexivity | exact H3].
Qed.

(* ===================================================================== *)
(** ** The pointer driver *)
(* ===================================================================== *)

Section PointerDriver.

Variable random : nat -> R.

Variable setHSL : R -> R -> R -> Vec3.

(** The pointer stage when the pointer has moved. *)
Lemma inputInteraction_moved (f : Frame) (w : World) :
  ptr_moved (pointer w) = true ->
  let w' := inputInteraction random f w in
  (exists color radius,
     splats (gpu w') =
       splats (gpu w) ++
         [mkSplat (ptr_x (pointer w) / width (size f))
                  (ptr_y (pointer w) / height (size f))
                  (ptr_dx (pointer w) * 5) (ptr_dy (pointer w) * 5)
                  color radius]) /\
  pointer w' =
    mkPointer (ptr_x (pointer w)) (ptr_y (pointer w)) 0 0 false
      (ptr_down (pointer w)).
Proof.
  intros Hm. unfold inputInteraction. rewrite Hm. simpl. split.
  - do 2 eexists. f_equal. f_equal. f_equal; lra.
  - reflexivity.
Qed.

(** The pointer stage when the pointer is at rest. *)
Lemma inputInteraction_rest (f : Frame) (w : World) :
  ptr_moved (pointer w) = false ->
  gpu (inputInteraction random f w) = gpu w /\
  pointer (inputInteraction random f w) = pointer w.
Proof. intros Hm. unfold inputInteraction. rewrite Hm. split; reflexivity. Qed.

Lemma useFrame_pointer (f : Frame) (w : World) :
  pointer (useFrame random setHSL f w)
  = pointer (inputInteraction random f (automatedSplats random setHSL f w)).
Proof.
  unfold useFrame.
  generalize (inputInteraction random f (automatedSplats random setHSL f w)).
  intros w'. reflexivity.
Qed.

Lemma useFrame_splats (f : Frame) (w : World) :
  splats (gpu (useFrame random setHSL f w))
  = splats (gpu (inputInteraction random f
                   (automatedSplats random setHSL f w))).
Proof.
  unfold useFrame.
  generalize (inputInteraction random f (automatedSplats random setHSL f w)).
  intros w'. cbv zeta.
  change (gpu (set_gpu ?g ?x)) with g. apply solverStep_splats.
Qed.

(** C5. In a frame in which the pointer has moved, the pointer stage emits
    exactly one splat, at the pointer position divided by the canvas size,
    with force vector 5 times the recorded delta; after the frame the moved
    flag is cleared and the stored delta is zero; and in the next frame, with
    no movement in between, the pointer stage emits no splat.  A delta of
    (10, 0) at normalised position (0.5, 0.5) thus gives the force (50, 0). *)
Theorem pointer_driver_one_event (f f' : Frame) (w : World) :
  ptr_moved (pointer w) = true ->
  let wa := automatedSplats random setHSL f w in
  let w1 := useFrame random setHSL f w in
  let wa' := automatedSplats random setHSL f' w1 in
  (exists color radius,
     splats (gpu w1) =
       splats (gpu wa) ++
         [mkSplat (ptr_x (pointer w) / width (size f))
                  (ptr_y (pointer w) / height (size f))
                  (ptr_dx (pointer w) * 5) (ptr_dy (pointer w) * 5)
                  color radius] /\
     (ptr_x (pointer w) / width (size f) = 0.5 ->
      ptr_y (pointer w) / height (size f) = 0.5 ->
      ptr_dx (pointer w) = 10 -> ptr_dy (pointer w) = 0 ->
      splats (gpu w1) = splats (gpu wa) ++ [mkSplat 0.5 0.5 50 0 color radius])) /\
  ptr_moved (pointer w1) = false /\
  ptr_dx (pointer w1) = 0 /\ ptr_dy (pointer w1) = 0 /\
  splats (gpu (useFrame random setHSL f' w1)) = splats (gpu wa').
Proof.
  intros Hm wa w1 wa'.
  assert (Hp : pointer wa = pointer w) by apply automatedSplats_pointer.
  assert (Hma : ptr_moved (pointer wa) = true) by (rewrite Hp; exact Hm).
  destruct (inputInteraction_moved f wa Hma) as ((color & radius & Hs) & Hq).
  cbv zeta in Hs, Hq. rewrite Hp in Hs, Hq.
  assert (P1 : pointer w1 =
               mkPointer (ptr_x (pointer w)) (ptr_y (pointer w)) 0 0 false
                 (ptr_down (pointer w))).
  { unfold w1. rewrite useFrame_pointer. exact Hq. }
  assert (S1 : splats (gpu w1) = splats (gpu (inputInteraction random f wa))).
  { unfold w1. apply useFrame_splats. }
  clearbody w1. rewrite <- S1 in Hs. clear S1.
  split; [|split; [|split; [|split]]]; try (rewrite P1; reflexivity).
  - exists color, radius. split; [exact Hs|].
    intros Hx Hy Hdx Hdy. rewrite Hs, Hx, Hy, Hdx, Hdy.
    f_equal. f_equal. f_equal; lra.
  - rewrite useFrame_splats. fold wa'.
    assert (Hm' : ptr_moved (pointer wa') = false).
    { unfold wa'. rewrite automatedSplats_pointer, P1. reflexivity. }
    destruct (inputInteraction_rest f' wa' Hm') as [G _]. now rewrite G.
Qed.

End PointerDriver.

Lemma pointer_driver_one_event_witness :
  ptr_moved (pointer worldAfterMove) = true /\
  ptr_moved (pointer (useFrame halves greyHSL quietFrame worldAfterMove))
  = false.
Proof.
  split; [reflexivity|].
  exact (proj1 (proj2
    (pointer_driver_one_event halves greyHSL quietFrame quietFrame
       worldAfterMove eq_refl))).
Defined.

(** The run of the specification's example: one move of delta (10, 0) at
    position (0.5, 0.5) emits one splat with force (50, 0), and the next frame
    emits none. *)
Lemma pointer_move_10_0_example :
  let w1 := useFrame halves greyHSL quietFrame worldAfterMove in
  let w2 := useFrame halves greyHSL quietFrame w1 in
  (exists color radius,
     splats (gpu w1) = [mkSplat 0.5 0.5 50 0 color radius]) /\
  splats (gpu w2) = splats (gpu w1).
Proof.
  intros w1 w2.
  pose (wa := automatedSplats halves greyHSL quietFrame worldAfterMove).
  assert (Hma : ptr_moved (pointer wa) = true)
    by (unfold wa; rewrite automatedSplats_pointer; reflexivity).
  destruct (inputInteraction_moved halves quietFrame wa Hma)
    as ((color & radius & Hs) & Hq).
  cbv zeta in Hs, Hq.
  assert (S1 : splats (gpu w1)
               = splats (gpu (inputInteraction halves quietFrame wa)))
    by apply useFrame_splats.
  assert (P1 : ptr_moved (pointer w1) = false)
    by (unfold w1; rewrite useFrame_pointer; fold wa; rewrite Hq;
        reflexivity).
  split.
  - exists color, radius. rewrite S1, Hs.
    change (splats (gpu wa)) with (@nil Splat). cbn [app].
    f_equal. f_equal; simpl; lra.
  - unfold w2. rewrite useFrame_splats.
    assert (Hm' : ptr_moved
                    (pointer (automatedSplats halves greyHSL quietFrame w1))
                  = false)
      by (rewrite automatedSplats_pointer; exact P1).
    destruct (inputInteraction_rest halves quietFrame _ Hm') as [G _].
    rewrite G. clearbody w1. reflexivity.
Qed.

(* ===================================================================== *)
(** ** The ambience agents *)
(* ===================================================================== *)

Lemma ambienceTarget_inBand (t : R) (agent : Agent) :
  inBand (fst (ambienceTarget t agent)) /\
  inBand (snd (ambienceTarget t agent)).
Proof.
  unfold ambienceTarget, inBand. simpl.
  pose proof (SIN_bound (t * xf1 agent + px1 agent)).
  pose proof (SIN_bound (t * xf2 agent + px2 agent)).
  pose proof (COS_bound (t * yf1 agent + py1 agent)).
  pose proof (COS_bound (t * yf2 agent + py2 agent)).
  split; lra.
Qed.

Lemma followTarget_position (t : R) (agent : Agent) :
  ag_x (followTarget t agent)
  = ag_x agent + 0.015 * (fst (ambienceTarget t agent) - ag_x agent) /\
  ag_y (followTarget t agent)
  = ag_y agent + 0.015 * (snd (ambienceTarget t agent) - ag_y agent).
Proof. unfold followTarget, ambienceTarget. simpl. split; lra. Qed.

Lemma followTarget_inBand (t : R) (agent : Agent) :
  agentInBand agent -> agentInBand (followTarget t agent).
Proof.
  intros [Hx Hy].
  destruct (followTarget_position t agent) as [Ex Ey].
  destruct (ambienceTarget_inBand t agent) as [Tx Ty].
  unfold agentInBand, inBand in *. rewrite Ex, Ey. split; lra.
Qed.

Lemma ambienceBranch_agents (f : Frame) (mode : string) (w : World) :
  ambienceAgents (ambienceBranch f mode w)
  = map (followTarget (elapsedTime f)) (ambienceAgents w).
Proof.
  unfold ambienceBranch.
  pose proof (forEachAgent_agents (size f) mode (elapsedTime f)
                (ambienceAgents w) 0%nat (gpu w)) as H.
  destruct (forEachAgent (size f) mode (elapsedTime f) (ambienceAgents w)
              0%nat (gpu w)) as [agents g].
  exact H.
Qed.

Lemma newAgent_inBand (random : nat -> R) (n : nat) :
  (forall k, 0 <= random k < 1) -> agentInBand (newAgent random n).
Proof.
  intros H. unfold agentInBand, inBand, newAgent. simpl.
  pose proof (H n). pose proof (H (n + 1)%nat). split; lra.
Qed.

Section AmbienceDriver.

Variable random : nat -> R.

Variable setHSL : R -> R -> R -> Vec3.

Lemma musicBranch_agents (f : Frame) (w : World) :
  ambienceAgents (musicBranch random setHSL f w) = ambienceAgents w.
Proof.
  unfold musicBranch.
  destruct (getAudioData (spectrum f) (audioService w)) as [[d|] svc];
    [|reflexivity].
  destruct (musicReact_spec random setHSL f d (set_audioService svc w))
    as (_ & _ & P & _).
  exact P.
Qed.

(** The agents after a frame: followed once in an ambience frame, untouched
    in every other frame. *)
Lemma useFrame_agents (f : Frame) (w : World) :
  ambienceAgents (useFrame random setHSL f w)
  = if isMusicActive f && truthy (ambienceMode f)
    then map (followTarget (elapsedTime f)) (ambienceAgents w)
    else ambienceAgents w.
Proof.
  unfold useFrame.
  pose proof (inputInteraction_frame random f
                (automatedSplats random setHSL f w)) as I.
  cbv zeta in I. destruct I as (_ & _ & _ & IA & _).
  generalize dependent (inputInteraction random f
                          (automatedSplats random setHSL f w)).
  intros w' IA. cbv zeta. change (ambienceAgents (set_gpu ?g ?x))
    with (ambienceAgents x).
  rewrite IA. unfold automatedSplats.
  destruct (isMusicActive f); [|reflexivity].
  destruct (truthy (ambienceMode f)) eqn:T; simpl.
  - destruct (ambienceMode f); [|discriminate]. apply ambienceBranch_agents.
  - apply musicBranch_agents.
Qed.

(** C9. Every agent's per-frame update is [p' = p + 0.015 * (target - p)] on
    both coordinates, the target being 0.5 plus two sine (for x) or cosine
    (for y) terms of amplitudes 0.35 and 0.20; each target coordinate lies in
    [-0.05, 1.05]; the agents as created from random draws in [0, 1) lie in
    [-0.05, 1.05]; and if every agent lies in [-0.05, 1.05] before a frame,
    every agent does after it, whatever the frame. *)
Theorem ambience_agents_stay_in_band (f : Frame) (w : World) :
  Forall agentInBand (ambienceAgents w) ->
  (forall t agent,
     ambienceTarget t agent =
       (0.5 + sin (t * xf1 agent + px1 agent) * 0.35
            + sin (t * xf2 agent + px2 agent) * 0.20,
        0.5 + cos (t * yf1 agent + py1 agent) * 0.35
            + cos (t * yf2 agent + py2 agent) * 0.20) /\
     inBand (fst (ambienceTarget t agent)) /\
     inBand (snd (ambienceTarget t agent)) /\
     ag_x (followTarget t agent)
     = ag_x agent + 0.015 * (fst (ambienceTarget t agent) - ag_x agent) /\
     ag_y (followTarget t agent)
     = ag_y agent + 0.015 * (snd (ambienceTarget t agent) - ag_y agent)) /\
  (forall mode,
     ambienceAgents (ambienceBranch f mode w)
     = map (followTarget (elapsedTime f)) (ambienceAgents w)) /\
  Forall agentInBand (ambienceAgents (useFrame random setHSL f w)) /\
  (forall svc, (forall k, 0 <= random k < 1) ->
     Forall agentInBand (ambienceAgents (world0 random svc))).
Proof.
  intros H. split; [|split; [|split]].
  - intros t agent. split; [reflexivity|].
    destruct (ambienceTarget_inBand t agent) as [Tx Ty].
    destruct (followTarget_position t agent) as [Ex Ey]. auto.
  - intros mode. apply ambienceBranch_agents.
  - rewrite useFrame_agents.
    destruct (isMusicActive f && truthy (ambienceMode f)); [|exact H].
    apply Forall_forall. intros a Ha. apply in_map_iff in Ha.
    destruct Ha as (a0 & <- & Ha0). apply followTarget_inBand.
    revert a0 Ha0. now apply Forall_forall.
  - intros svc Hr. unfold world0. cbn [ambienceAgents].
    apply Forall_forall. intros a Ha. apply in_map_iff in Ha.
    destruct Ha as (k & <- & _). now apply newAgent_inBand.
Qed.

End AmbienceDriver.

Lemma ambience_agents_stay_in_band_witness :
  let a := mkAgent 0 1 0.2 0.5 0.2 0.5 0 0 0 0 in
  let w := set_ambienceAgents [a] (world0 halves audio0) in
  let f := mkFrame 1 0.016 FluidMode.flux true (Some "river"%string)
             (mkSize 800 600) (fun _ => x00) in
  Forall agentInBand (ambienceAgents w) /\
  Forall agentInBand (ambienceAgents (useFrame halves greyHSL f w)).
Proof.
  intros a w f.
  assert (H : Forall agentInBand (ambienceAgents w)).
  { constructor; [|constructor]. unfold agentInBand, inBand. simpl.
    split; lra. }
  split; [exact H|].
  exact (proj1 (proj2 (proj2
    (ambience_agents_stay_in_band halves greyHSL f w H)))).
Defined.

(* ===================================================================== *)
(** ** The ping-pong arrays stay well formed *)
(* ===================================================================== *)

Lemma applySplat_arraysOk size x y dx dy color radius g :
  arraysOk g -> arraysOk (applySplat size x y dx dy color radius g).
Proof.
  intros (Hv & Hd & Hp). unfold applySplat, arraysOk. simpl.
  repeat split; try assumption; now apply isPair_reverse.
Qed.

Lemma pressureLoopState_arrays g k :
  velocity (pressureLoopState g k) = velocity g /\
  density (pressureLoopState g k) = density g /\
  (isPair Pressure0 Pressure1 (pressure g) ->
   isPair Pressure0 Pressure1 (pressure (pressureLoopState g k))).
Proof.
  induction k as [|k (IV & ID & IP)].
  - repeat split. auto.
  - rewrite pressureLoopState_S.
    change (velocity (pressureIteration ?h)) with (velocity h).
    change (density (pressureIteration ?h)) with (density h).
    change (pressure (pressureIteration ?h)) with (reverse (pressure h)).
    repeat split; try assumption. intros H. apply isPair_reverse. auto.
Qed.

Lemma solverStep_arraysOk mode g : arraysOk g -> arraysOk (solverStep mode g).
Proof.
  intros (Hv & Hd & Hp). unfold solverStep.
  set (g1 := advectVelocity mode g).
  assert (A1 : arraysOk g1).
  { unfold g1, advectVelocity, arraysOk. simpl.
    repeat split; try assumption. now apply isPair_reverse. }
  clearbody g1. set (g2 := advectDensity mode g1).
  assert (A2 : arraysOk g2).
  { destruct A1 as (? & ? & ?). unfold g2, advectDensity, arraysOk. simpl.
    repeat split; try assumption. now apply isPair_reverse. }
  clearbody g2. set (g3 := divergencePass g2).
  assert (A3 : arraysOk g3).
  { destruct A2 as (? & ? & ?). unfold g3, divergencePass, arraysOk. simpl.
    repeat split; assumption. }
  clearbody g3. change (pressurePass g3) with (pressureLoopState g3 20).
  destruct (pressureLoopState_arrays g3 20) as (PV & PD & PP).
  destruct A3 as (V3 & D3 & P3).
  generalize dependent (pressureLoopState g3 20). intros g4 PV PD PP.
  unfold bindDisplay, gradientSubtract, arraysOk. simpl.
  rewrite PV, PD. repeat split; auto. now apply isPair_reverse.
Qed.

Lemma forEachAgent_arraysOk size mode t agents i g :
  arraysOk g -> arraysOk (snd (forEachAgent size mode t agents i g)).
Proof.
  revert i g. induction agents as [|agent rest IH]; intros i g Hg; simpl.
  - exact Hg.
  - destruct (ambienceTarget t agent) as [tx ty] eqn:E.
    match goal with
    | |- context [forEachAgent size mode t rest ?j ?h] =>
        assert (Hh : arraysOk h) by (now apply applySplat_arraysOk);
        specialize (IH j h Hh); destruct (forEachAgent size mode t rest j h)
    end.
    exact IH.
Qed.

Section ArraysInvariant.

Variable random : nat -> R.

Variable setHSL : R -> R -> R -> Vec3.

Lemma dropLoop_arraysOk f color w n :
  arraysOk (gpu w) ->
  arraysOk (gpu (forLoop n (fun _ => dropParticle random f color) w)).
Proof.
  intros H. induction n as [|n IH]; [exact H|].
  change (forLoop (S n) (fun _ => dropParticle random f color) w)
    with (dropParticle random f color
            (forLoop n (fun _ => dropParticle random f color) w)).
  generalize dependent (forLoop n (fun _ => dropParticle random f color) w).
  intros w' IH. unfold dropParticle, Math_random. simpl.
  now apply applySplat_arraysOk.
Qed.

Lemma dropBurst_arraysOk f color w :
  arraysOk (gpu w) -> arraysOk (gpu (dropBurst random f color w)).
Proof. exact (dropLoop_arraysOk f color w dropParticleCount). Qed.

Lemma trailSplat_arraysOk f d color w :
  arraysOk (gpu w) -> arraysOk (gpu (trailSplat f d color w)).
Proof.
  intros H. unfold trailSplat. simpl.
  destruct (Rgtb (volAvgOf d) 2); simpl; [|exact H].
  now apply applySplat_arraysOk.
Qed.

Lemma automatedSplats_arraysOk f w :
  arraysOk (gpu w) -> arraysOk (gpu (automatedSplats random setHSL f w)).
Proof.
  intros H. unfold automatedSplats. destruct (isMusicActive f); [|exact H].
  destruct (truthy (ambienceMode f)).
  - destruct (ambienceMode f) as [mode|]; [|exact H]. unfold ambienceBranch.
    pose proof (forEachAgent_arraysOk (size f) mode (elapsedTime f)
                  (ambienceAgents w) 0%nat (gpu w) H) as A.
    destruct (forEachAgent _ _ _ _ _ _). exact A.
  - unfold musicBranch.
    destruct (getAudioData (spectrum f) (audioService w)) as [[d|] svc];
      [|exact H].
    unfold musicReact.
    pose proof (trailSplat_arraysOk f d
                  (musicColor setHSL (currentMode f) (elapsedTime f))
                  (moveWanderer f d (set_audioService svc w)) H) as A2.
    pose proof (dropBurst_arraysOk f
                  (musicColor setHSL (currentMode f) (elapsedTime f))
                  _ A2) as A3.
    revert A2 A3.
    generalize (dropBurst random f
                  (musicColor setHSL (currentMode f) (elapsedTime f))
                  (trailSplat f d
                     (musicColor setHSL (currentMode f) (elapsedTime f))
                     (moveWanderer f d (set_audioService svc w)))) as w3.
    generalize (trailSplat f d
                  (musicColor setHSL (currentMode f) (elapsedTime f))
                  (moveWanderer f d (set_audioService svc w))) as w2.
    intros w2 w3 A2 A3.
    destruct (isDrop (bassAvgOf d) (lastBass w2)); assumption.
Qed.

Lemma inputInteraction_arraysOk f w :
  arraysOk (gpu w) -> arraysOk (gpu (inputInteraction random f w)).
Proof.
  intros H. unfold inputInteraction. destruct (ptr_moved (pointer w)); simpl.
  - now apply applySplat_arraysOk.
  - exact H.
Qed.

(** Every frame keeps the arrays well formed; they are when the component
    mounts. *)
Lemma useFrame_arraysOk f w :
  arraysOk (gpu w) -> arraysOk (gpu (useFrame random setHSL f w)).
Proof.
  intros H. unfold useFrame.
  pose proof (inputInteraction_arraysOk f _ (automatedSplats_arraysOk f w H))
    as A.
  generalize dependent (inputInteraction random f
                          (automatedSplats random setHSL f w)).
  intros w' A. cbv zeta. change (gpu (set_gpu ?g ?x)) with g.
  now apply solverStep_arraysOk.
Qed.

Lemma world0_arraysOk svc : arraysOk (gpu (world0 random svc)).
Proof. exact arraysOk_gpu0. Qed.

End ArraysInvariant.

(* ===================================================================== *)
(** ** States the initialised service reaches *)
(* ===================================================================== *)

Lemma update_keeps (v : R) (s : AudioService) :
  ctx (update v s) = ctx s /\ delayNode (update v s) = delayNode s /\
  delayFeedback (update v s) = delayFeedback s /\
  delayGain (update v s) = delayGain s /\
  globalGain (update v s) = globalGain s /\
  isInitialized (update v s) = isInitialized s /\
  (mainFilter s <> None -> mainFilter (update v s) <> None) /\
  (mainGain s <> None -> mainGain (update v s) <> None).
Proof.
  unfold update.
  destruct (ctx s) eqn:Ec, (mainFilter s) eqn:Ef, (mainGain s) eqn:Eg;
    try (repeat split; intros; congruence).
  destruct (isInitialized s) eqn:Ei; simpl; repeat split; intros; congruence.
Qed.

Lemma setMute_keeps (m : bool) (s : AudioService) :
  ctx (setMute m s) = ctx s /\ delayNode (setMute m s) = delayNode s /\
  delayFeedback (setMute m s) = delayFeedback s /\
  delayGain (setMute m s) = delayGain s /\
  mainFilter (setMute m s) = mainFilter s /\
  mainGain (setMute m s) = mainGain s /\
  isInitialized (setMute m s) = isInitialized s /\
  (globalGain s <> None -> globalGain (setMute m s) <> None).
Proof.
  unfold setMute. simpl.
  destruct (globalGain s) eqn:Eg, (ctx s) eqn:Ec; simpl;
    repeat split; intros; congruence.
Qed.

Lemma setMasterVolume_keeps (v : R) (s : AudioService) :
  ctx (setMasterVolume v s) = ctx s /\
  delayNode (setMasterVolume v s) = delayNode s /\
  delayFeedback (setMasterVolume v s) = delayFeedback s /\
  delayGain (setMasterVolume v s) = delayGain s /\
  mainFilter (setMasterVolume v s) = mainFilter s /\
  mainGain (setMasterVolume v s) = mainGain s /\
  isInitialized (setMasterVolume v s) = isInitialized s /\
  (globalGain s <> None -> globalGain (setMasterVolume v s) <> None).
Proof.
  unfold setMasterVolume. simpl.
  destruct (globalGain s) eqn:Eg, (ctx s) eqn:Ec; simpl;
    try (repeat split; intros; congruence).
  destruct (isMuted s); simpl; repeat split; intros; congruence.
Qed.

Lemma getAudioData_keeps sp (s : AudioService) :
  let s' := snd (getAudioData sp s) in
  ctx s' = ctx s /\ delayNode s' = delayNode s /\
  delayFeedback s' = delayFeedback s /\ delayGain s' = delayGain s /\
  mainFilter s' = mainFilter s /\ mainGain s' = mainGain s /\
  isInitialized s' = isInitialized s /\ globalGain s' = globalGain s.
Proof.
  unfold getAudioData. destruct (analyser s), (dataArray s); simpl;
    repeat split; reflexivity.
Qed.

(** Every reachable state has its audio graph and a settled delay line, which
    is what [setInstrument] needs to put a preset in force. *)
Lemma reachable_invariant (s : AudioService) :
  reachable s -> initialized s /\ delaySettled s.
Proof.
  induction 1 as [ | dt s Hdt _ [I S] | type s s' _ [I S] E
                   | v s _ [I S] | m s _ [I S] | v s _ [I S] | sp s _ [I S] ].
  - split; [exact initialized_audio0 | exact delaySettled_audio0].
  - split; [now apply advanceClock_initialized
           | now apply advanceClock_delaySettled].
  - destruct (setInstrument_applies type s I) as (s1 & E1 & I1 & _ & _ & _ & D).
    rewrite E in E1. inversion E1; subst. split; [exact I1|]. now apply D.
  - destruct (update_keeps v s) as (K1 & K2 & K3 & K4 & K5 & K6 & K7 & K8).
    destruct I as (I1 & I2 & I3 & I4 & I5 & I6 & I7 & I8). split.
    + unfold initialized. rewrite K1, K2, K3, K4, K5, K6. repeat split; auto.
    + intros c dn df dg. rewrite K1, K2, K3, K4. apply S.
  - destruct (setMute_keeps m s) as (K1 & K2 & K3 & K4 & K5 & K6 & K7 & K8).
    destruct I as (I1 & I2 & I3 & I4 & I5 & I6 & I7 & I8). split.
    + unfold initialized. rewrite K1, K2, K3, K4, K5, K6, K7.
      repeat split; auto.
    + intros c dn df dg. rewrite K1, K2, K3, K4. apply S.
  - destruct (setMasterVolume_keeps v s)
      as (K1 & K2 & K3 & K4 & K5 & K6 & K7 & K8).
    destruct I as (I1 & I2 & I3 & I4 & I5 & I6 & I7 & I8). split.
    + unfold initialized. rewrite K1, K2, K3, K4, K5, K6, K7.
      repeat split; auto.
    + intros c dn df dg. rewrite K1, K2, K3, K4. apply S.
  - destruct (getAudioData_keeps sp s)
      as (K1 & K2 & K3 & K4 & K5 & K6 & K7 & K8). cbv zeta in *.
    destruct I as (I1 & I2 & I3 & I4 & I5 & I6 & I7 & I8). split.
    + unfold initialized. rewrite K1, K2, K3, K4, K5, K6, K7, K8.
      repeat split; auto.
    + intros c dn df dg. rewrite K1, K2, K3, K4. apply S.
Qed.

(* ********************************************************************* *)
(** * Part III: further properties of the code *)
(* ********************************************************************* *)

(* ===================================================================== *)
(** ** The draws of a frame *)
(* ===================================================================== *)

Lemma reverse_reverse (p : PingPong) : reverse (reverse p) = p.
Proof. destruct p; reflexivity. Qed.

Lemma isPair_distinct a b p : a <> b -> isPair a b p -> fst p <> snd p.
Proof. intros H [-> | ->]; simpl; congruence. Qed.

Lemma Forall_snoc {A : Type} (P : A -> Prop) (l : list A) (a : A) :
  Forall P l -> P a -> Forall P (l ++ [a]).
Proof. intros Hl Ha. apply Forall_app. split; [exact Hl|]. now constructor. Qed.

Lemma drawBalance_eq g g' (n m : nat) :
  List.length (renders g') = (List.length (renders g) + n)%nat ->
  List.length (splats g') = (List.length (splats g) + m)%nat ->
  drawBalance g' = (drawBalance g + Z.of_nat n - 2 * Z.of_nat m)%Z.
Proof. intros H1 H2. unfold drawBalance. rewrite H1, H2. lia. Qed.

(** A splat: two separated draws. *)
Lemma applySplat_gpuOk size x y dx dy color radius g :
  gpuOk g -> gpuOk (applySplat size x y dx dy color radius g).
Proof.
  intros [A S]. split.
  - now apply applySplat_arraysOk.
  - destruct A as (Hv & Hd & _). unfold applySplat. simpl.
    apply Forall_snoc; [apply Forall_snoc; [exact S|]|]; unfold separated; simpl.
    + destruct Hv as [-> | ->]; simpl; intros [E|[]]; discriminate.
    + destruct Hd as [-> | ->]; simpl; intros [E|[]]; discriminate.
Qed.

Lemma applySplat_balance size x y dx dy color radius g :
  drawBalance (applySplat size x y dx dy color radius g) = drawBalance g.
Proof.
  rewrite (drawBalance_eq g _ 2 1); [lia | |];
    unfold applySplat; simpl; rewrite !List.length_app; simpl; lia.
Qed.

Lemma pressureLoopState_fields g k :
  splats (pressureLoopState g k) = splats g /\
  velocity (pressureLoopState g k) = velocity g /\
  density (pressureLoopState g k) = density g /\
  displayMat (pressureLoopState g k) = displayMat g /\
  List.length (renders (pressureLoopState g k))
  = (List.length (renders g) + k)%nat /\
  pressure (pressureLoopState g k) = Nat.iter k reverse (pressure g).
Proof.
  induction k as [|k (I1 & I2 & I3 & I4 & I5 & I6)].
  - repeat split. simpl. lia.
  - rewrite pressureLoopState_S.
    change (splats (pressureIteration ?h)) with (splats h).
    change (velocity (pressureIteration ?h)) with (velocity h).
    change (density (pressureIteration ?h)) with (density h).
    change (displayMat (pressureIteration ?h)) with (displayMat h).
    change (pressure (pressureIteration ?h)) with (reverse (pressure h)).
    repeat split; try assumption.
    + unfold pressureIteration, renderPass.
      generalize dependent (pressureLoopState g k). intros h; intros.
      simpl. rewrite List.length_app. simpl. lia.
    + rewrite I6. reflexivity.
Qed.

Lemma pressureLoopState_separated g k :
  isPair Pressure0 Pressure1 (pressure g) ->
  Forall separated (renders g) ->
  Forall separated (renders (pressureLoopState g k)).
Proof.
  intros Hp S. induction k as [|k IH]; [exact S|].
  destruct (pressureLoop_invariant g k Hp) as (Hk & Hd & Ht & _).
  rewrite pressureLoopState_S.
  destruct (pressureIteration_spec _ Hk Hd Ht) as (R1 & _).
  rewrite R1. apply Forall_snoc; [exact IH|].
  unfold separated. simpl.
  destruct Hk as [-> | ->]; simpl; intros [E|[E|[]]]; discriminate.
Qed.

(** The solver step: 24 separated draws. *)
Lemma solverStep_gpuOk mode g : gpuOk g -> gpuOk (solverStep mode g).
Proof.
  intros [A0 S0]. split; [now apply solverStep_arraysOk|].
  unfold solverStep.
  set (g1 := advectVelocity mode g).
  assert (H1 : gpuOk g1).
  { destruct A0 as (Hv & Hd & Hp). split.
    - unfold g1, advectVelocity, arraysOk. simpl.
      repeat split; try assumption. now apply isPair_reverse.
    - unfold g1, advectVelocity. simpl. apply Forall_snoc; [exact S0|].
      unfold separated. simpl.
      destruct Hv as [-> | ->]; simpl; intros [E|[E|[]]]; discriminate. }
  clearbody g1. set (g2 := advectDensity mode g1).
  assert (H2 : gpuOk g2).
  { destruct H1 as [(Hv & Hd & Hp) S]. split.
    - unfold g2, advectDensity, arraysOk. simpl.
      repeat split; try assumption. now apply isPair_reverse.
    - unfold g2, advectDensity. simpl. apply Forall_snoc; [exact S|].
      unfold separated. simpl.
      destruct Hv as [-> | ->], Hd as [-> | ->]; simpl;
        intros [E|[E|[]]]; discriminate. }
  clearbody g2. set (g3 := divergencePass g2).
  assert (H3 : gpuOk g3).
  { destruct H2 as [(Hv & Hd & Hp) S]. split.
    - unfold g3, divergencePass, arraysOk. simpl. repeat split; assumption.
    - unfold g3, divergencePass. simpl. apply Forall_snoc; [exact S|].
      unfold separated. simpl.
      destruct Hv as [-> | ->]; simpl; intros [E|[]]; discriminate. }
  clearbody g3. change (pressurePass g3) with (pressureLoopState g3 20).
  destruct H3 as [(Hv & Hd & Hp) S].
  pose proof (pressureLoopState_separated g3 20 Hp S) as S4.
  destruct (pressureLoopState_fields g3 20) as (_ & F2 & _).
  destruct (pressureLoopState_arrays g3 20) as (_ & _ & PP).
  specialize (PP Hp).
  generalize dependent (pressureLoopState g3 20). intros g4 S4 F2 PP.
  unfold bindDisplay, gradientSubtract. simpl.
  apply Forall_snoc; [exact S4|]. unfold separated. simpl. rewrite F2.
  destruct Hv as [-> | ->], PP as [-> | ->]; simpl;
    intros [E|[E|[]]]; discriminate.
Qed.

Lemma solverStep_balance mode g :
  drawBalance (solverStep mode g) = (drawBalance g + 24)%Z.
Proof.
  rewrite (drawBalance_eq g _ 24 0); [lia | | rewrite solverStep_splats; lia].
  unfold solverStep.
  set (g3 := divergencePass (advectDensity mode (advectVelocity mode g))).
  assert (L3 : List.length (renders g3) = (List.length (renders g) + 3)%nat).
  { unfold g3, divergencePass, advectDensity, advectVelocity. simpl.
    rewrite !List.length_app. simpl. lia. }
  clearbody g3. change (pressurePass g3) with (pressureLoopState g3 20).
  destruct (pressureLoopState_fields g3 20) as (_ & _ & _ & _ & L4 & _).
  generalize dependent (pressureLoopState g3 20). intros g4 L4.
  unfold bindDisplay, gradientSubtract. simpl.
  rewrite List.length_app. simpl. lia.
Qed.

(** What every splat preserves, every driver stage preserves. *)
Section SplatInvariant.

Variable random : nat -> R.
Variable setHSL : R -> R -> R -> Vec3.
Variable Q : Gpu -> Prop.
Hypothesis Q_splat :
  forall size x y dx dy color radius g,
    Q g -> Q (applySplat size x y dx dy color radius g).

Lemma forEachAgent_keeps size mode t agents i g :
  Q g -> Q (snd (forEachAgent size mode t agents i g)).
Proof.
  revert i g. induction agents as [|agent rest IH]; intros i g Hg; simpl.
  - exact Hg.
  - destruct (ambienceTarget t agent) as [tx ty] eqn:E.
    match goal with
    | |- context [forEachAgent size mode t rest ?j ?h] =>
        assert (Hh : Q h) by (now apply Q_splat);
        specialize (IH j h Hh); destruct (forEachAgent size mode t rest j h)
    end.
    exact IH.
Qed.

Lemma dropLoop_keeps f color w n :
  Q (gpu w) -> Q (gpu (forLoop n (fun _ => dropParticle random f color) w)).
Proof.
  intros H. induction n as [|n IH]; [exact H|].
  change (forLoop (S n) (fun _ => dropParticle random f color) w)
    with (dropParticle random f color
            (forLoop n (fun _ => dropParticle random f color) w)).
  generalize dependent (forLoop n (fun _ => dropParticle random f color) w).
  intros w' IH. unfold dropParticle, Math_random. simpl.
  now apply Q_splat.
Qed.

Lemma dropBurst_keeps f color w :
  Q (gpu w) -> Q (gpu (dropBurst random f color w)).
Proof. exact (dropLoop_keeps f color w dropParticleCount). Qed.

Lemma trailSplat_keeps f d color w :
  Q (gpu w) -> Q (gpu (trailSplat f d color w)).
Proof.
  intros H. unfold trailSplat. simpl.
  destruct (Rgtb (volAvgOf d) 2); simpl; [|exact H].
  now apply Q_splat.
Qed.

Lemma automatedSplats_keeps f w :
  Q (gpu w) -> Q (gpu (automatedSplats random setHSL f w)).
Proof.
  intros H. unfold automatedSplats. destruct (isMusicActive f); [|exact H].
  destruct (truthy (ambienceMode f)).
  - destruct (ambienceMode f) as [mode|]; [|exact H]. unfold ambienceBranch.
    pose proof (forEachAgent_keeps (size f) mode (elapsedTime f)
                  (ambienceAgents w) 0%nat (gpu w) H) as A.
    destruct (forEachAgent _ _ _ _ _ _). exact A.
  - unfold musicBranch.
    destruct (getAudioData (spectrum f) (audioService w)) as [[d|] svc];
      [|exact H].
    unfold musicReact.
    pose proof (trailSplat_keeps f d
                  (musicColor setHSL (currentMode f) (elapsedTime f))
                  (moveWanderer f d (set_audioService svc w)) H) as A2.
    pose proof (dropBurst_keeps f
                  (musicColor setHSL (currentMode f) (elapsedTime f))
                  _ A2) as A3.
    revert A2 A3.
    generalize (dropBurst random f
                  (musicColor setHSL (currentMode f) (elapsedTime f))
                  (trailSplat f d
                     (musicColor setHSL (currentMode f) (elapsedTime f))
                     (moveWanderer f d (set_audioService svc w)))) as w3.
    generalize (trailSplat f d
                  (musicColor setHSL (currentMode f) (elapsedTime f))
                  (moveWanderer f d (set_audioService svc w))) as w2.
    intros w2 w3 A2 A3.
    destruct (isDrop (bassAvgOf d) (lastBass w2)); assumption.
Qed.

Lemma inputInteraction_keeps f w :
  Q (gpu w) -> Q (gpu (inputInteraction random f w)).
Proof.
  intros H. unfold inputInteraction. destruct (ptr_moved (pointer w)); simpl.
  - now apply Q_splat.
  - exact H.
Qed.

(** The GPU state the solver step of a frame starts from satisfies whatever
    every splat preserves. *)
Lemma beforeSolver_keeps f w :
  Q (gpu w) ->
  Q (gpu (inputInteraction random f (automatedSplats random setHSL f w))).
Proof. intros H. now apply inputInteraction_keeps, automatedSplats_keeps. Qed.

Lemma useFrame_gpu f w :
  gpu (useFrame random setHSL f w)
  = solverStep (currentMode f)
      (gpu (inputInteraction random f (automatedSplats random setHSL f w))).
Proof.
  unfold useFrame.
  generalize (inputInteraction random f (automatedSplats random setHSL f w)).
  intros w'. reflexivity.
Qed.

End SplatInvariant.

(** X1. Ping-pong discipline: if no draw so far sampled the target it wrote
    and the arrays are well formed, the same holds after a frame, whatever the
    frame does (ambience, music, burst, pointer, solver).  The state at mount
    qualifies. *)
Theorem frame_draws_are_separated (random : nat -> R)
    (setHSL : R -> R -> R -> Vec3) (f : Frame) (w : World) :
  gpuOk (gpu w) -> gpuOk (gpu (useFrame random setHSL f w)).
Proof.
  intros H. rewrite (useFrame_gpu random setHSL). apply solverStep_gpuOk.
  apply (beforeSolver_keeps random setHSL gpuOk); [|exact H].
  intros. now apply applySplat_gpuOk.
Qed.

Lemma frame_draws_are_separated_witness :
  gpuOk (gpu (world0 halves audio0)) /\
  gpuOk (gpu (useFrame halves greyHSL (toneFrame x82) (world0 halves audio0))).
Proof.
  assert (H : gpuOk (gpu (world0 halves audio0))).
  { split; [repeat split; left; reflexivity | constructor]. }
  split; [exact H|].
  exact (frame_draws_are_separated halves greyHSL (toneFrame x82)
           (world0 halves audio0) H).
Defined.

(** X2. A frame issues exactly 24 draws for the solver step (two advections,
    the divergence, twenty pressure iterations, the gradient subtraction) and
    two for every splat it applies, and nothing else. *)
Theorem frame_draw_balance (random : nat -> R)
    (setHSL : R -> R -> R -> Vec3) (f : Frame) (w : World) :
  drawBalance (gpu (useFrame random setHSL f w))
  = (drawBalance (gpu w) + 24)%Z.
Proof.
  rewrite (useFrame_gpu random setHSL), solverStep_balance. f_equal.
  apply (beforeSolver_keeps random setHSL
           (fun g => drawBalance g = drawBalance (gpu w))); [|reflexivity].
  intros. rewrite applySplat_balance. assumption.
Qed.

(* ===================================================================== *)
(** ** Bilinear sampling stays between the texels *)
(* ===================================================================== *)

Lemma clampZ_inGrid n i j : (0 < n)%Z -> inGrid n (clampZ n i) (clampZ n j).
Proof. unfold inGrid, clampZ. lia. Qed.

Lemma mix_between lo hi a b t :
  lo <= a <= hi -> lo <= b <= hi -> 0 <= t <= 1 ->
  lo <= a * (1 - t) + b * t <= hi.
Proof. intros [? ?] [? ?] [? ?]. split; nra. Qed.

Lemma Rabs_le_between a b : Rabs a <= b -> - b <= a <= b.
Proof. unfold Rabs. destruct (Rcase_abs a); lra. Qed.

Lemma frac_unit x : 0 <= x - IZR (Zfloor x) <= 1.
Proof. pose proof (Zfloor_bound x). lra. Qed.

(** A channel of a sample lies between the least and the greatest value of
    that channel over the texture, wherever the sample is taken. *)
Lemma texture2D_between (pr : Vec4 -> R) (s : Sampler) (uv : Vec2) lo hi :
  (forall a b t, pr (mix4 a b t) = pr a * (1 - t) + pr b * t) ->
  (0 < s_res s)%Z ->
  (forall i j, inGrid (s_res s) i j -> lo <= pr (s_img s i j) <= hi) ->
  lo <= pr (texture2D s uv) <= hi.
Proof.
  intros Hpr Hres Hb. unfold texture2D. cbv zeta. rewrite !Hpr.
  repeat apply mix_between; try apply frac_unit;
    apply Hb; now apply clampZ_inGrid.
Qed.

Lemma texture2D_within (s : Sampler) (uv : Vec2) (M : R) :
  (0 < s_res s)%Z -> imageWithin (s_res s) M (s_img s) ->
  within M (texture2D s uv).
Proof.
  intros Hres Hb.
  assert (B : forall pr : Vec4 -> R,
             (forall a b t, pr (mix4 a b t) = pr a * (1 - t) + pr b * t) ->
             (forall v, within M v -> Rabs (pr v) <= M) ->
             Rabs (pr (texture2D s uv)) <= M).
  { intros pr Hpr Hw. apply Rabs_le.
    apply texture2D_between; [exact Hpr | exact Hres |].
    intros i j Hij. apply Rabs_le_between. apply Hw. now apply Hb. }
  repeat split; apply B; try reflexivity; intros v (? & ? & ? & ?); assumption.
Qed.

Lemma scale4_within d M v :
  0 <= d -> within M v -> within (d * M) (scale4 d v).
Proof.
  intros Hd (X & Y & Z & W). unfold within, scale4. simpl.
  rewrite !Rabs_mult, (Rabs_pos_eq d) by exact Hd.
  repeat split; apply Rmult_le_compat_l; assumption.
Qed.

Lemma dissipation_range mode :
  0 < velocityDissipation mode <= 1 /\ 0 < densityDissipation mode <= 1.
Proof. destruct mode; simpl; lra. Qed.

(* ===================================================================== *)
(** ** Advection *)
(* ===================================================================== *)

Lemma targetRes_pos t : (0 < targetRes t)%Z.
Proof. destruct t; reflexivity. Qed.

(** X3. Advection never amplifies: whatever the velocity field, if every
    channel of every texel of the advected field has magnitude at most [M],
    then after the advection pass every channel of every texel of the new
    active buffer has magnitude at most [dissipation * M], hence at most [M].
    This holds for the density pass and for the velocity pass, and both
    dissipation factors lie in (0, 1] in every mode. *)
Theorem advection_never_amplifies (mode : FluidMode.t) (g : Gpu) (M : R) :
  arraysOk g ->
  (imageWithin dyeRes M (store g (fst (density g))) ->
   forall i j,
     within (densityDissipation mode * M)
       (store (advectDensity mode g) (fst (density (advectDensity mode g)))
          i j)) /\
  (imageWithin simRes M (store g (fst (velocity g))) ->
   forall i j,
     within (velocityDissipation mode * M)
       (store (advectVelocity mode g) (fst (velocity (advectVelocity mode g)))
          i j)) /\
  0 < densityDissipation mode <= 1 /\
  0 < velocityDissipation mode <= 1 /\
  densityDissipation mode * Rabs M <= Rabs M /\
  velocityDissipation mode * Rabs M <= Rabs M.
Proof.
  intros (Hv & Hd & _).
  destruct (dissipation_range mode) as [[V0 V1] [D0 D1]].
  split; [|split; [|split; [|split; [|split]]]].
  - intros HM i j. unfold advectDensity, renderPass. simpl.
    rewrite upd_same. unfold renderQuad, ADVECTION_SHADER. simpl.
    apply scale4_within; [lra|].
    destruct Hd as [E | E]; rewrite E in *;
      (apply texture2D_within; [reflexivity | exact HM]).
  - intros HM i j. unfold advectVelocity, renderPass. simpl.
    rewrite upd_same. unfold renderQuad, ADVECTION_SHADER. simpl.
    apply scale4_within; [lra|].
    destruct Hv as [E | E]; rewrite E in *;
      (apply texture2D_within; [reflexivity | exact HM]).
  - split; assumption.
  - split; assumption.
  - pose proof (Rabs_pos M). nra.
  - pose proof (Rabs_pos M). nra.
Qed.

Lemma advection_never_amplifies_witness :
  arraysOk gpuDyed /\
  imageWithin dyeRes 1 (store gpuDyed (fst (density gpuDyed))) /\
  imageWithin simRes 1 (store gpuDyed (fst (velocity gpuDyed))) /\
  within (densityDissipation FluidMode.ignite * 1)
    (store (advectDensity FluidMode.ignite gpuDyed)
       (fst (density (advectDensity FluidMode.ignite gpuDyed))) 3%Z 4%Z) /\
  within (velocityDissipation FluidMode.ignite * 1)
    (store (advectVelocity FluidMode.ignite gpuDyed)
       (fst (velocity (advectVelocity FluidMode.ignite gpuDyed))) 3%Z 4%Z).
Proof.
  assert (H : arraysOk gpuDyed) by (repeat split; left; reflexivity).
  assert (D : imageWithin dyeRes 1 (store gpuDyed (fst (density gpuDyed)))).
  { intros i j _. unfold within. simpl. repeat split; apply Rabs_le; lra. }
  assert (V : imageWithin simRes 1 (store gpuDyed (fst (velocity gpuDyed)))).
  { intros i j _. unfold within. simpl. repeat split; apply Rabs_le; lra. }
  repeat (split; [assumption|]).
  destruct (advection_never_amplifies FluidMode.ignite gpuDyed 1 H)
    as (AD & AV & _).
  split; [exact (AD D 3%Z 4%Z) | exact (AV V 3%Z 4%Z)].
Defined.

(* ===================================================================== *)
(** ** Bounds on the projection passes *)
(* ===================================================================== *)

Lemma jacobiStep_bound (d p : Image) (M D : R) :
  xWithin simRes M p -> xWithin simRes D d ->
  forall i j, Rabs (v4x (jacobiStep d p i j)) <= M + D / 4.
Proof.
  intros Hp Hd i j. unfold jacobiStep. cbv zeta. simpl.
  assert (G : forall a b, inGrid simRes (clampZ simRes a) (clampZ simRes b))
    by (intros; apply clampZ_inGrid; reflexivity).
  pose proof (Rabs_le_between _ _ (Hp _ _ (G (i - 1)%Z j))).
  pose proof (Rabs_le_between _ _ (Hp _ _ (G (i + 1)%Z j))).
  pose proof (Rabs_le_between _ _ (Hp _ _ (G i (j + 1)%Z))).
  pose proof (Rabs_le_between _ _ (Hp _ _ (G i (j - 1)%Z))).
  pose proof (Rabs_le_between _ _ (Hd _ _ (G i j))).
  apply Rabs_le. lra.
Qed.

Lemma iter_jacobi_bound (d p : Image) (M D : R) (k : nat) :
  xWithin simRes M p -> xWithin simRes D d ->
  xWithin simRes (M + INR k * (D / 4)) (Nat.iter k (jacobiStep d) p).
Proof.
  intros Hp Hd. induction k as [|k IH].
  - simpl. intros i j Hij. rewrite Rmult_0_l, Rplus_0_r. now apply Hp.
  - rewrite Nat.iter_succ, S_INR. intros i j _.
    pose proof (jacobiStep_bound d _ _ D IH Hd i j). lra.
Qed.

(** X4. The pressure pass is bounded: if the active pressure buffer has
    magnitude at most [M] and the divergence target at most [D] on the grid,
    then after the twenty iterations the active pressure buffer has magnitude
    at most [M + 5 * D] at every texel; its other channels are 0, 0 and 1. *)
Theorem pressure_pass_bounded (g : Gpu) (M D : R) :
  arraysOk g ->
  xWithin simRes M (store g (fst (pressure g))) ->
  xWithin simRes D (store g Divergence) ->
  forall i j,
    let p := store (pressurePass g) (fst (pressure (pressurePass g))) i j in
    Rabs (v4x p) <= M + 5 * D /\ v4y p = 0 /\ v4z p = 0 /\ v4w p = 1.
Proof.
  intros (_ & _ & Hp) HM HD i j.
  change (pressurePass g) with (pressureLoopState g 20).
  destruct (pressureLoop_invariant g 20 Hp) as (_ & _ & _ & _ & _ & _ & Hi).
  cbv zeta. rewrite (Hi i j).
  rewrite (Nat.iter_succ 19).
  split; [|repeat split].
  pose proof (jacobiStep_bound (store g Divergence) _ _ D
                (iter_jacobi_bound _ _ M D 19 HM HD) HD i j) as B.
  replace (INR 19) with 19 in B by (simpl; lra). lra.
Qed.

Lemma pressure_pass_bounded_witness :
  arraysOk gpuPressed /\
  xWithin simRes 1 (store gpuPressed (fst (pressure gpuPressed))) /\
  xWithin simRes 2 (store gpuPressed Divergence) /\
  Rabs (v4x (store (pressurePass gpuPressed)
               (fst (pressure (pressurePass gpuPressed))) 3%Z 4%Z))
  <= 1 + 5 * 2.
Proof.
  assert (H : arraysOk gpuPressed) by (repeat split; left; reflexivity).
  assert (P : xWithin simRes 1 (store gpuPressed (fst (pressure gpuPressed)))).
  { intros i j _. simpl. apply Rabs_le. lra. }
  assert (D : xWithin simRes 2 (store gpuPressed Divergence)).
  { intros i j _. simpl. apply Rabs_le. lra. }
  repeat (split; [assumption|]).
  exact (proj1 (pressure_pass_bounded gpuPressed 1 2 H P D 3%Z 4%Z)).
Defined.

(** Twenty iterations on constant fields: each adds a quarter of the
    divergence, with the sign changed. *)
Lemma iter_jacobi_const (d p : R) (k : nat) (i j : Z) :
  Nat.iter k (jacobiStep (fun _ _ => vec4 d 0 0 1)) (fun _ _ => vec4 p 0 0 1)
    i j
  = vec4 (p - INR k * (d / 4)) 0 0 1.
Proof.
  revert i j. induction k as [|k IH]; intros i j.
  - simpl. f_equal. lra.
  - rewrite Nat.iter_succ. unfold jacobiStep at 1. cbv zeta.
    rewrite !IH. cbn [v4x]. rewrite S_INR. f_equal. lra.
Qed.

(** The bound of the pressure pass is attained: from pressure 1 and
    divergence -2 everywhere, the twenty iterations end at 1 + 5 * 2. *)
Lemma pressure_bound_attained_example (i j : Z) :
  v4x (store (pressurePass gpuPressed)
         (fst (pressure (pressurePass gpuPressed))) i j)
  = 1 + 5 * 2.
Proof.
  change (pressurePass gpuPressed) with (pressureLoopState gpuPressed 20).
  assert (Hp : isPair Pressure0 Pressure1 (pressure gpuPressed))
    by (left; reflexivity).
  destruct (pressureLoop_invariant gpuPressed 20 Hp)
    as (_ & _ & _ & _ & _ & _ & Hi).
  rewrite (Hi i j).
  change (store gpuPressed Divergence) with (fun _ _ : Z => vec4 (-2) 0 0 1).
  change (store gpuPressed (fst (pressure gpuPressed)))
    with (fun _ _ : Z => vec4 1 0 0 1).
  rewrite iter_jacobi_const. cbn [v4x].
  replace (INR 20) with 20 by (simpl; lra). lra.
Qed.

(** X5. The divergence pass is bounded: if both velocity components have
    magnitude at most [V] on the grid, the divergence written at every texel
    of the grid has magnitude at most [2 * V]; its other channels are 0, 0
    and 1. *)
Theorem divergence_pass_bounded (g : Gpu) (V : R) :
  arraysOk g ->
  speedWithin simRes V (store g (fst (velocity g))) ->
  forall i j, inGrid simRes i j ->
    let d := store (divergencePass g) Divergence i j in
    Rabs (v4x d) <= 2 * V /\ v4y d = 0 /\ v4z d = 0 /\ v4w d = 1.
Proof.
  intros (Hv & _) HV i j [Hi Hj]. cbv zeta.
  rewrite (divergencePass_store g i j Hv Hi Hj).
  unfold divergenceClamped. cbv zeta. simpl.
  assert (G : forall a b, inGrid simRes (clampZ simRes a) (clampZ simRes b))
    by (intros; apply clampZ_inGrid; reflexivity).
  destruct (HV _ _ (G (i - 1)%Z j)) as [L _].
  destruct (HV _ _ (G (i + 1)%Z j)) as [R _].
  destruct (HV _ _ (G i (j + 1)%Z)) as [_ T].
  destruct (HV _ _ (G i (j - 1)%Z)) as [_ B].
  apply Rabs_le_between in L, R, T, B.
  split; [|repeat split]. apply Rabs_le. lra.
Qed.

Lemma divergence_pass_bounded_witness :
  arraysOk gpuUniformFlow /\
  speedWithin simRes 1
    (store gpuUniformFlow (fst (velocity gpuUniformFlow))) /\
  inGrid simRes 3 4 /\
  Rabs (v4x (store (divergencePass gpuUniformFlow) Divergence 3%Z 4%Z))
  <= 2 * 1.
Proof.
  assert (H : arraysOk gpuUniformFlow) by (repeat split; left; reflexivity).
  assert (S : speedWithin simRes 1
                (store gpuUniformFlow (fst (velocity gpuUniformFlow)))).
  { intros i j _. simpl. rewrite Rabs_R1, Rabs_R0. lra. }
  assert (G : inGrid simRes 3 4) by (unfold inGrid, simRes; lia).
  repeat (split; [assumption|]).
  exact (proj1 (divergence_pass_bounded gpuUniformFlow 1 H S 3%Z 4%Z G)).
Defined.

(* ===================================================================== *)
(** ** A fluid at rest *)
(* ===================================================================== *)

Lemma GRADIENT_SUBTRACT_SHADER_texel (P V : Image) (i j : Z) :
  GRADIENT_SUBTRACT_SHADER (mkSampler simRes P) (mkSampler simRes V)
    (texel simRes) (fragCoord simRes i j) = gradientClamped P V i j.
Proof.
  unfold GRADIENT_SUBTRACT_SHADER, gradientClamped. cbv zeta.
  rewrite sample_L, sample_R, sample_T, sample_B, sample_C
    by exact simRes_pos.
  reflexivity.
Qed.

(** Where the advecting velocity sample is zero, advection reads the source
    at the fragment's own coordinate. *)
Lemma ADVECTION_SHADER_still (uV uS : Sampler) ts dt d (vUv : Vec2) :
  v4x (texture2D uV vUv) = 0 -> v4y (texture2D uV vUv) = 0 ->
  ADVECTION_SHADER uV uS ts dt d vUv = scale4 d (texture2D uS vUv).
Proof.
  intros Hx Hy. unfold ADVECTION_SHADER, xy. cbv zeta.
  cbn [v2x v2y]. rewrite Hx, Hy.
  replace (vec2 (v2x vUv - dt * 0 * v2x ts) (v2y vUv - dt * 0 * v2y ts))
    with vUv; [reflexivity|].
  destruct vUv as [a b]. cbn [v2x v2y]. f_equal; ring.
Qed.

(** A sample of a texture whose channel is zero on the grid is zero in that
    channel. *)
Lemma texture2D_zero (pr : Vec4 -> R) (s : Sampler) (uv : Vec2) :
  (forall a b t, pr (mix4 a b t) = pr a * (1 - t) + pr b * t) ->
  (0 < s_res s)%Z ->
  (forall i j, inGrid (s_res s) i j -> pr (s_img s i j) = 0) ->
  pr (texture2D s uv) = 0.
Proof.
  intros Hpr Hres Hz.
  assert (B : 0 <= pr (texture2D s uv) <= 0).
  { apply texture2D_between; [exact Hpr | exact Hres |].
    intros i j Hij. rewrite (Hz i j Hij). lra. }
  lra.
Qed.

Lemma iter_jacobi_still (d p : Image) (k : nat) :
  (forall i j, inGrid simRes i j -> v4x (d i j) = 0) ->
  (forall i j, inGrid simRes i j -> v4x (p i j) = 0) ->
  forall i j, Nat.iter (S k) (jacobiStep d) p i j = vec4 0 0 0 1.
Proof.
  intros Hd Hp.
  assert (G : forall a b, inGrid simRes (clampZ simRes a) (clampZ simRes b))
    by (intros; apply clampZ_inGrid; reflexivity).
  assert (J : forall q : Image,
             (forall i j, inGrid simRes i j -> v4x (q i j) = 0) ->
             forall i j, jacobiStep d q i j = vec4 0 0 0 1).
  { intros q Hq i j. unfold jacobiStep. cbv zeta.
    rewrite !Hq, Hd by apply G. f_equal. lra. }
  induction k as [|k IH]; intros i j.
  - simpl. now apply J.
  - rewrite Nat.iter_succ. apply J. intros a b _. now rewrite IH.
Qed.

Lemma pressureLoopState_store_other g k t :
  isPair Pressure0 Pressure1 (pressure g) ->
  t <> Pressure0 -> t <> Pressure1 ->
  store (pressureLoopState g k) t = store g t.
Proof.
  intros Hp H0 H1. induction k as [|k IH]; [reflexivity|].
  destruct (pressureLoop_invariant g k Hp) as (Hk & Hd & Ht & _).
  rewrite pressureLoopState_S.
  destruct (pressureIteration_spec _ Hk Hd Ht) as (_ & _ & R3 & _).
  rewrite R3; [exact IH|]. destruct Hk as [-> | ->]; simpl; congruence.
Qed.

Lemma iter_reverse_even (p : PingPong) : Nat.iter 20 reverse p = p.
Proof. destruct p; reflexivity. Qed.

(** The solver passes one at a time: the arrays and the store after each. *)
Lemma advectVelocity_stage mode g :
  velocity (advectVelocity mode g) = reverse (velocity g) /\
  density (advectVelocity mode g) = density g /\
  pressure (advectVelocity mode g) = pressure g /\
  store (advectVelocity mode g)
  = upd (store g) (snd (velocity g))
      (renderQuad (targetRes (snd (velocity g)))
         (ADVECTION_SHADER
            (samplerOf (store g) (Some (fst (velocity g))))
            (samplerOf (store g) (Some (fst (velocity g))))
            (texel simRes) (adv_dt (advectionMat g))
            (velocityDissipation mode))).
Proof. repeat split. Qed.

Lemma advectDensity_stage mode g :
  velocity (advectDensity mode g) = velocity g /\
  density (advectDensity mode g) = reverse (density g) /\
  pressure (advectDensity mode g) = pressure g /\
  store (advectDensity mode g)
  = upd (store g) (snd (density g))
      (renderQuad (targetRes (snd (density g)))
         (ADVECTION_SHADER
            (samplerOf (store g) (Some (fst (velocity g))))
            (samplerOf (store g) (Some (fst (density g))))
            (texel dyeRes) (adv_dt (advectionMat g))
            (densityDissipation mode))).
Proof. repeat split. Qed.

Lemma divergencePass_stage g :
  velocity (divergencePass g) = velocity g /\
  density (divergencePass g) = density g /\
  pressure (divergencePass g) = pressure g /\
  store (divergencePass g)
  = upd (store g) Divergence
      (renderQuad simRes
         (DIVERGENCE_SHADER (samplerOf (store g) (Some (fst (velocity g))))
            (texel simRes))).
Proof. repeat split. Qed.

Lemma gradientSubtract_stage g :
  velocity (gradientSubtract g) = reverse (velocity g) /\
  density (gradientSubtract g) = density g /\
  pressure (gradientSubtract g) = pressure g /\
  store (gradientSubtract g)
  = upd (store g) (snd (velocity g))
      (renderQuad (targetRes (snd (velocity g)))
         (GRADIENT_SUBTRACT_SHADER
            (samplerOf (store g) (Some (fst (pressure g))))
            (samplerOf (store g) (Some (fst (velocity g))))
            (texel simRes))).
Proof. repeat split. Qed.

Lemma bindDisplay_stage g :
  velocity (bindDisplay g) = velocity g /\
  density (bindDisplay g) = density g /\
  pressure (bindDisplay g) = pressure g /\
  store (bindDisplay g) = store g /\
  ds_uTexture (displayMat (bindDisplay g)) = Some (fst (density g)).
Proof. repeat split. Qed.

Lemma pressurePass_stage g :
  isPair Pressure0 Pressure1 (pressure g) ->
  velocity (pressurePass g) = velocity g /\
  density (pressurePass g) = density g /\
  pressure (pressurePass g) = pressure g /\
  (forall t, t <> Pressure0 -> t <> Pressure1 ->
     store (pressurePass g) t = store g t) /\
  imgEq (store (pressurePass g) (fst (pressure g)))
    (Nat.iter 20 (jacobiStep (store g Divergence))
       (store g (fst (pressure g)))).
Proof.
  intros Hp. change (pressurePass g) with (pressureLoopState g 20).
  destruct (pressureLoopState_fields g 20) as (_ & V & D & _ & _ & P).
  rewrite iter_reverse_even in P.
  destruct (pressureLoop_invariant g 20 Hp) as (_ & _ & _ & _ & _ & _ & Hi).
  rewrite P in Hi.
  repeat split; try assumption.
  intros t H0 H1. now apply pressureLoopState_store_other.
Qed.

Ltac concrete_arrays H :=
  let Hv := fresh "Hv" in
  let Hd := fresh "Hd" in
  let Hp := fresh "Hp" in
  destruct H as (Hv & Hd & Hp);
  destruct Hv as [Hv | Hv], Hd as [Hd | Hd], Hp as [Hp | Hp];
  rewrite ?Hv, ?Hd, ?Hp in *; cbn [fst snd reverse targetRes] in *.

Ltac frame_store :=
  repeat first
    [ rewrite upd_same
    | rewrite upd_other by discriminate ].

Lemma advectVelocity_still mode g :
  arraysOk g ->
  (forall i j, inGrid simRes i j ->
     v4x (store g (fst (velocity g)) i j) = 0 /\
     v4y (store g (fst (velocity g)) i j) = 0) ->
  let g' := advectVelocity mode g in
  arraysOk g' /\
  (forall i j, v4x (store g' (fst (velocity g')) i j) = 0 /\
               v4y (store g' (fst (velocity g')) i j) = 0) /\
  store g' (fst (pressure g')) = store g (fst (pressure g)) /\
  store g' (fst (density g')) = store g (fst (density g)).
Proof.
  intros Ok Hz. cbv zeta.
  destruct (advectVelocity_stage mode g) as (V & D & P & S).
  unfold arraysOk. rewrite V, D, P, S. clear V D P S.
  generalize (adv_dt (advectionMat g)) as dt.
  generalize (velocityDissipation mode) as d.
  revert Ok Hz. generalize (store g) as st. intros st Ok Hz d dt.
  concrete_arrays Ok; frame_store;
    (split; [repeat split; (left; reflexivity) || (right; reflexivity)|]);
    (split; [|split; reflexivity]);
    intros i j; unfold renderQuad; rewrite ADVECTION_SHADER_still;
    unfold scale4; cbn [v4x v4y samplerOf targetRes];
    rewrite ?(texture2D_zero v4x), ?(texture2D_zero v4y);
    try (split; ring); try reflexivity;
    cbn [s_res s_img]; intros; apply Hz; assumption.
Qed.

Lemma advectDensity_still mode g :
  arraysOk g ->
  (forall i j, v4x (store g (fst (velocity g)) i j) = 0 /\
               v4y (store g (fst (velocity g)) i j) = 0) ->
  let g' := advectDensity mode g in
  arraysOk g' /\
  store g' (fst (velocity g')) = store g (fst (velocity g)) /\
  store g' (fst (pressure g')) = store g (fst (pressure g)) /\
  (forall i j,
     store g' (fst (density g')) i j
     = scale4 (densityDissipation mode)
         (store g (fst (density g)) (clampZ dyeRes i) (clampZ dyeRes j))).
Proof.
  intros Ok Hz. cbv zeta.
  destruct (advectDensity_stage mode g) as (V & D & P & S).
  unfold arraysOk. rewrite V, D, P, S. clear V D P S.
  generalize (adv_dt (advectionMat g)) as dt.
  generalize (densityDissipation mode) as d.
  revert Ok Hz. generalize (store g) as st. intros st Ok Hz d dt.
  concrete_arrays Ok; frame_store;
    (split; [repeat split; (left; reflexivity) || (right; reflexivity)|]);
    (split; [reflexivity|]); (split; [reflexivity|]);
    intros i j; unfold renderQuad; rewrite ADVECTION_SHADER_still;
    cbn [samplerOf targetRes];
    rewrite ?(texture2D_zero v4x), ?(texture2D_zero v4y), ?sample_C;
    try reflexivity;
    cbn [s_res s_img]; intros; apply Hz.
Qed.

Lemma divergencePass_still g :
  arraysOk g ->
  (forall i j, v4x (store g (fst (velocity g)) i j) = 0 /\
               v4y (store g (fst (velocity g)) i j) = 0) ->
  let g' := divergencePass g in
  arraysOk g' /\
  store g' (fst (velocity g')) = store g (fst (velocity g)) /\
  store g' (fst (pressure g')) = store g (fst (pressure g)) /\
  store g' (fst (density g')) = store g (fst (density g)) /\
  (forall i j, inGrid simRes i j -> v4x (store g' Divergence i j) = 0).
Proof.
  intros Ok Hz. cbv zeta.
  assert (Hdiv : forall i j, inGrid simRes i j ->
            v4x (store (divergencePass g) Divergence i j) = 0).
  { intros i j [Hi Hj].
    rewrite (divergencePass_store g i j (proj1 Ok) Hi Hj).
    unfold divergenceClamped. cbv zeta. cbn [v4x].
    rewrite !(proj1 (Hz _ _)), !(proj2 (Hz _ _)). lra. }
  split; [|split; [|split; [|split; [|exact Hdiv]]]]; clear Hdiv;
    destruct (divergencePass_stage g) as (V & D & P & S);
    unfold arraysOk; rewrite ?V, ?D, ?P, ?S; clear V D P S;
    [exact Ok | | | ]; revert Ok; clear Hz; generalize (store g) as st;
    intros st Ok; concrete_arrays Ok; frame_store; reflexivity.
Qed.

Lemma pressurePass_still g :
  arraysOk g ->
  (forall i j, inGrid simRes i j -> v4x (store g Divergence i j) = 0) ->
  (forall i j, inGrid simRes i j ->
     v4x (store g (fst (pressure g)) i j) = 0) ->
  let g' := pressurePass g in
  arraysOk g' /\
  store g' (fst (velocity g')) = store g (fst (velocity g)) /\
  store g' (fst (density g')) = store g (fst (density g)) /\
  (forall i j, store g' (fst (pressure g')) i j = vec4 0 0 0 1).
Proof.
  intros Ok Hd Hp. cbv zeta.
  destruct (pressurePass_stage g (proj2 (proj2 Ok))) as (V & D & P & S & I).
  unfold arraysOk. rewrite V, D, P.
  split; [exact Ok|]. split; [|split].
  - apply S; destruct Ok as ([E | E] & _); rewrite E; discriminate.
  - apply S; destruct Ok as (_ & [E | E] & _); rewrite E; discriminate.
  - intros i j. rewrite (I i j). now apply (iter_jacobi_still _ _ 19).
Qed.

Lemma gradientSubtract_still g :
  arraysOk g ->
  (forall i j, v4x (store g (fst (velocity g)) i j) = 0 /\
               v4y (store g (fst (velocity g)) i j) = 0) ->
  (forall i j, store g (fst (pressure g)) i j = vec4 0 0 0 1) ->
  let g' := gradientSubtract g in
  arraysOk g' /\
  (forall i j, store g' (fst (velocity g')) i j = vec4 0 0 0 1) /\
  store g' (fst (pressure g')) = store g (fst (pressure g)) /\
  store g' (fst (density g')) = store g (fst (density g)).
Proof.
  intros Ok Hz Hp. cbv zeta.
  destruct (gradientSubtract_stage g) as (V & D & P & S).
  unfold arraysOk. rewrite V, D, P, S. clear V D P S.
  revert Ok Hz Hp. generalize (store g) as st. intros st Ok Hz Hp.
  concrete_arrays Ok; frame_store;
    (split; [repeat split; (left; reflexivity) || (right; reflexivity)|]);
    (split; [|split; reflexivity]);
    intros i j; unfold renderQuad; cbn [samplerOf targetRes];
    rewrite GRADIENT_SUBTRACT_SHADER_texel; unfold gradientClamped;
    cbv zeta; rewrite !Hp, !(proj1 (Hz _ _)), !(proj2 (Hz _ _));
    cbn [v4x]; f_equal; lra.
Qed.

(** X6. A fluid at rest stays at rest: if the active velocity and pressure
    buffers are zero on the grid, then after the solver step of a frame the
    active velocity and pressure buffers hold (0, 0, 0, 1) at every texel, so
    the fluid is still again, and the dye has not moved: every texel of the
    active density buffer is its old value times the density dissipation. *)
Theorem fluid_at_rest_stays_at_rest (mode : FluidMode.t) (g : Gpu) :
  arraysOk g -> still g ->
  let g' := solverStep mode g in
  still g' /\
  (forall i j, store g' (fst (velocity g')) i j = vec4 0 0 0 1) /\
  (forall i j, store g' (fst (pressure g')) i j = vec4 0 0 0 1) /\
  (forall i j,
     store g' (fst (density g')) i j
     = scale4 (densityDissipation mode)
         (store g (fst (density g)) (clampZ dyeRes i) (clampZ dyeRes j))).
Proof.
  intros Ok [Hv Hp]. cbv zeta.
  assert (G : (forall i j, store (solverStep mode g)
                 (fst (velocity (solverStep mode g))) i j = vec4 0 0 0 1) /\
              (forall i j, store (solverStep mode g)
                 (fst (pressure (solverStep mode g))) i j = vec4 0 0 0 1) /\
              (forall i j,
                 store (solverStep mode g)
                   (fst (density (solverStep mode g))) i j
                 = scale4 (densityDissipation mode)
                     (store g (fst (density g))
                        (clampZ dyeRes i) (clampZ dyeRes j)))).
  { unfold solverStep.
    destruct (advectVelocity_still mode g Ok Hv) as (O1 & V1 & P1 & D1).
    rewrite <- P1 in Hp. rewrite <- D1. clear P1 D1 Hv Ok.
    revert O1 V1 Hp. generalize (advectVelocity mode g) as g1.
    intros g1 O1 V1 P1.
    destruct (advectDensity_still mode g1 O1 V1) as (O2 & V2 & P2 & D2).
    rewrite <- V2 in V1. rewrite <- P2 in P1. clear V2 P2 O1.
    revert O2 V1 P1 D2. generalize (advectDensity mode g1) as g2.
    generalize (store g1 (fst (density g1))) as dye.
    generalize (densityDissipation mode) as dd. clear g1.
    intros dd dye g2 O2 V2 P2 D2.
    destruct (divergencePass_still g2 O2 V2) as (O3 & V3 & P3 & D3 & Z3).
    rewrite <- V3 in V2. rewrite <- P3 in P2. rewrite <- D3 in D2.
    clear V3 P3 D3 O2.
    revert O3 V2 P2 D2 Z3. generalize (divergencePass g2) as g3. clear g2.
    intros g3 O3 V3 P3 D3 Z3.
    destruct (pressurePass_still g3 O3 Z3 P3) as (O4 & V4 & D4 & P4).
    rewrite <- V4 in V3. rewrite <- D4 in D3. clear V4 D4 O3 Z3 P3.
    revert O4 V3 D3 P4. generalize (pressurePass g3) as g4. clear g3.
    intros g4 O4 V4 D4 P4.
    destruct (gradientSubtract_still g4 O4 V4 P4) as (O5 & V5 & P5 & D5).
    rewrite <- P5 in P4. rewrite <- D5 in D4. clear P5 D5 O4 V4.
    revert O5 V5 D4 P4. generalize (gradientSubtract g4) as g5. clear g4.
    intros g5 O5 V5 D5 P5.
    destruct (bindDisplay_stage g5) as (V & D & P & S & _).
    rewrite V, D, P, S. repeat split; assumption. }
  destruct G as (GV & GP & GD).
  split; [|repeat split; assumption].
  split; intros i j _; rewrite ?GV, ?GP; repeat split; reflexivity.
Qed.

Lemma fluid_at_rest_stays_at_rest_witness :
  arraysOk gpu0 /\ still gpu0 /\
  store (solverStep FluidMode.flux gpu0)
    (fst (velocity (solverStep FluidMode.flux gpu0))) 3%Z 4%Z
  = vec4 0 0 0 1.
Proof.
  assert (H : arraysOk gpu0) by (repeat split; left; reflexivity).
  assert (S : still gpu0) by (split; intros; repeat split; reflexivity).
  split; [exact H|]. split; [exact S|].
  exact (proj1 (proj2 (fluid_at_rest_stays_at_rest FluidMode.flux gpu0 H S))
           3%Z 4%Z).
Defined.

(* ===================================================================== *)
(** ** The buffers across a solver step, and how splats compose *)
(* ===================================================================== *)

(** X7. Buffer roles across the solver step: the velocity array is swapped
    twice and the pressure array twenty times, so both end in the order they
    started in; the density array is swapped once; the display material is
    bound to the density target the density advection wrote; and the step
    applies no splat. *)
Theorem solver_step_buffer_roles (mode : FluidMode.t) (g : Gpu) :
  let g' := solverStep mode g in
  velocity g' = velocity g /\
  pressure g' = pressure g /\
  density g' = reverse (density g) /\
  ds_uTexture (displayMat g') = Some (snd (density g)) /\
  splats g' = splats g.
Proof.
  cbv zeta. split; [|split; [|split; [|split]]];
    try apply solverStep_splats; unfold solverStep.
  all: destruct (bindDisplay_stage
                   (gradientSubtract
                      (pressurePass
                         (divergencePass
                            (advectDensity mode (advectVelocity mode g))))))
         as (V6 & D6 & P6 & _ & T6);
       rewrite ?V6, ?D6, ?P6, ?T6; clear V6 D6 P6 T6.
  all: destruct (gradientSubtract_stage
                   (pressurePass
                      (divergencePass
                         (advectDensity mode (advectVelocity mode g)))))
         as (V5 & D5 & P5 & _);
       rewrite ?V5, ?D5, ?P5; clear V5 D5 P5.
  all: change (pressurePass ?x) with (pressureLoopState x 20);
       destruct (pressureLoopState_fields
                   (divergencePass
                      (advectDensity mode (advectVelocity mode g))) 20)
         as (_ & V4 & D4 & _ & _ & P4);
       rewrite ?V4, ?D4, ?P4, ?iter_reverse_even; clear V4 D4 P4.
  - apply reverse_reverse.
  - reflexivity.
  - reflexivity.
  - reflexivity.
Qed.

(** What a splat leaves in the three active buffers. *)
Lemma applySplat_active size x y dx dy color radius g :
  arraysOk g ->
  let g' := applySplat size x y dx dy color radius g in
  imgEq (store g' (fst (velocity g')))
        (addGaussian simRes (gaussianWeight size simRes x y radius)
           (vec3 dx (- dy) 1) (store g (fst (velocity g)))) /\
  imgEq (store g' (fst (density g')))
        (addGaussian dyeRes (gaussianWeight size dyeRes x y radius)
           color (store g (fst (density g)))) /\
  store g' (fst (pressure g')) = store g (fst (pressure g)).
Proof.
  intros Ok. cbv zeta. unfold applySplat. simpl.
  revert Ok. generalize (store g) as st. intros st Ok.
  concrete_arrays Ok; frame_store;
    (split; [|split; [|reflexivity]]); intros i j;
    unfold renderQuad; cbn [samplerOf targetRes];
    apply SPLAT_SHADER_texel; reflexivity.
Qed.

Lemma gaussianWeight_range size res x y radius i j :
  0 < radius -> 0 < gaussianWeight size res x y radius i j <= 1.
Proof.
  intros Hr. unfold gaussianWeight. split; [apply exp_pos|].
  rewrite <- exp_0.
  assert (D : 0 <= splatDistance2 size res x y i j).
  { unfold splatDistance2. cbv zeta.
    apply Rplus_le_le_0_compat; apply Rle_0_sqr. }
  assert (E : - splatDistance2 size res x y i j / radius <= 0).
  { unfold Rdiv. rewrite <- Ropp_mult_distr_l.
    apply Ropp_le_cancel. rewrite Ropp_involutive, Ropp_0.
    apply Rmult_le_pos; [exact D|]. left. now apply Rinv_0_lt_compat. }
  destruct E as [E | E]; [left; now apply exp_increasing | right; now rewrite E].
Qed.

Lemma addGaussian_twice res (wa wb : Z -> Z -> R) (ca cb : Vec3)
    (base X : Image) i j :
  inGrid res i j ->
  imgEq X (addGaussian res wa ca base) ->
  addGaussian res wb cb X i j
  = vec4 (v4x (base i j) + wa i j * v3x ca + wb i j * v3x cb)
         (v4y (base i j) + wa i j * v3y ca + wb i j * v3y cb)
         (v4z (base i j) + wa i j * v3z ca + wb i j * v3z cb) 1.
Proof.
  intros [Hi Hj] HX. unfold addGaussian at 1. cbv zeta.
  rewrite !clampZ_id by assumption. rewrite (HX i j).
  unfold addGaussian. cbv zeta. rewrite !clampZ_id by assumption.
  reflexivity.
Qed.

(** X8. Splats commute: applying two splats in either order leaves the same
    value in every texel of the active velocity buffer and of the active
    density buffer (each holds the old value plus both Gaussian deposits), and
    the arrays in the same order.  Sums are those of the real numbers. *)
Theorem splats_commute (size : Size) (a b : Splat) (g : Gpu) :
  arraysOk g ->
  let gab := applySplatOf size b (applySplatOf size a g) in
  let gba := applySplatOf size a (applySplatOf size b g) in
  (forall i j, inGrid simRes i j ->
     store gab (fst (velocity gab)) i j = store gba (fst (velocity gba)) i j) /\
  (forall i j, inGrid dyeRes i j ->
     store gab (fst (density gab)) i j = store gba (fst (density gba)) i j) /\
  velocity gab = velocity g /\ velocity gba = velocity g /\
  density gab = density g /\ density gba = density g.
Proof.
  intros Ok. cbv zeta. unfold applySplatOf.
  destruct a as [xa ya dxa dya ca ra], b as [xb yb dxb dyb cb rb].
  cbn [splat_x splat_y splat_dx splat_dy splat_color splat_radius].
  pose proof (applySplat_arraysOk size xa ya dxa dya ca ra g Ok) as Oa.
  pose proof (applySplat_arraysOk size xb yb dxb dyb cb rb g Ok) as Ob.
  destruct (applySplat_active size xa ya dxa dya ca ra g Ok) as (Va & Da & _).
  destruct (applySplat_active size xb yb dxb dyb cb rb g Ok) as (Vb & Db & _).
  destruct (applySplat_active size xb yb dxb dyb cb rb _ Oa) as (Vab & Dab & _).
  destruct (applySplat_active size xa ya dxa dya ca ra _ Ob) as (Vba & Dba & _).
  assert (Ra : velocity (applySplat size xa ya dxa dya ca ra g)
               = reverse (velocity g) /\
               density (applySplat size xa ya dxa dya ca ra g)
               = reverse (density g)) by (split; reflexivity).
  assert (Rb : velocity (applySplat size xb yb dxb dyb cb rb g)
               = reverse (velocity g) /\
               density (applySplat size xb yb dxb dyb cb rb g)
               = reverse (density g)) by (split; reflexivity).
  revert Oa Ob Va Da Vb Db Vab Dab Vba Dba Ra Rb.
  generalize (applySplat size xa ya dxa dya ca ra g) as ga.
  generalize (applySplat size xb yb dxb dyb cb rb g) as gb.
  intros gb ga Oa Ob Va Da Vb Db Vab Dab Vba Dba [Rva Rda] [Rvb Rdb].
  assert (Rab : velocity (applySplat size xb yb dxb dyb cb rb ga)
                = reverse (velocity ga) /\
                density (applySplat size xb yb dxb dyb cb rb ga)
                = reverse (density ga)) by (split; reflexivity).
  assert (Rba : velocity (applySplat size xa ya dxa dya ca ra gb)
                = reverse (velocity gb) /\
                density (applySplat size xa ya dxa dya ca ra gb)
                = reverse (density gb)) by (split; reflexivity).
  revert Vab Dab Vba Dba Rab Rba.
  generalize (applySplat size xb yb dxb dyb cb rb ga) as gab.
  generalize (applySplat size xa ya dxa dya ca ra gb) as gba.
  intros gba gab Vab Dab Vba Dba [Rvab Rdab] [Rvba Rdba].
  split; [|split].
  - intros i j Hij. rewrite (Vab i j), (Vba i j).
    rewrite (addGaussian_twice _ _ _ _ _ _ _ i j Hij Va).
    rewrite (addGaussian_twice _ _ _ _ _ _ _ i j Hij Vb).
    f_equal; ring.
  - intros i j Hij. rewrite (Dab i j), (Dba i j).
    rewrite (addGaussian_twice _ _ _ _ _ _ _ i j Hij Da).
    rewrite (addGaussian_twice _ _ _ _ _ _ _ i j Hij Db).
    f_equal; ring.
  - rewrite Rvab, Rvba, Rva, Rvb, Rdab, Rdba, Rda, Rdb.
    rewrite !reverse_reverse. repeat split.
Qed.

Lemma splats_commute_witness :
  arraysOk gpu0 /\
  velocity (applySplatOf (mkSize 800 600)
              (mkSplat 0.25 0.75 0 1 (vec3 0 1 0) 0.002)
              (applySplatOf (mkSize 800 600)
                 (mkSplat 0.5 0.5 50 0 (vec3 1 0 0) 0.001) gpu0))
  = velocity gpu0.
Proof.
  assert (H : arraysOk gpu0) by (repeat split; left; reflexivity).
  split; [exact H|].
  exact (proj1 (proj2 (proj2
    (splats_commute (mkSize 800 600)
       (mkSplat 0.5 0.5 50 0 (vec3 1 0 0) 0.001)
       (mkSplat 0.25 0.75 0 1 (vec3 0 1 0) 0.002) gpu0 H)))).
Defined.

(** X9. A splat of non-negative colour and positive radius never removes dye
    and never adds more than its colour: on the grid, each of the three
    colour channels of the active density buffer ends between its old value
    and its old value plus the colour's channel, and alpha is 1. *)
Theorem splat_deposit_bounded (size : Size) (x y dx dy : R) (color : Vec3)
    (radius : R) (g : Gpu) :
  arraysOk g -> 0 < radius ->
  0 <= v3x color -> 0 <= v3y color -> 0 <= v3z color ->
  let g' := applySplat size x y dx dy color radius g in
  forall i j, inGrid dyeRes i j ->
    let old := store g (fst (density g)) i j in
    let new := store g' (fst (density g')) i j in
    v4x old <= v4x new <= v4x old + v3x color /\
    v4y old <= v4y new <= v4y old + v3y color /\
    v4z old <= v4z new <= v4z old + v3z color /\
    v4w new = 1.
Proof.
  intros Ok Hr Cx Cy Cz. cbv zeta. intros i j [Hi Hj].
  destruct (applySplat_active size x y dx dy color radius g Ok) as (_ & D & _).
  rewrite (D i j). unfold addGaussian. cbv zeta.
  rewrite !clampZ_id by assumption. cbn [v4x v4y v4z v4w].
  pose proof (gaussianWeight_range size dyeRes x y radius i j Hr) as [W0 W1].
  revert W0 W1. generalize (gaussianWeight size dyeRes x y radius i j) as wt.
  intros wt W0 W1. repeat split; nra.
Qed.

Lemma splat_deposit_bounded_witness :
  arraysOk gpu0 /\ 0 < 0.001 /\ inGrid dyeRes 3 4 /\
  v4w (store (applySplat (mkSize 800 600) 0.5 0.5 50 0 (vec3 1 0 0) 0.001 gpu0)
         (fst (density
                 (applySplat (mkSize 800 600) 0.5 0.5 50 0 (vec3 1 0 0) 0.001
                    gpu0))) 3%Z 4%Z) = 1.
Proof.
  assert (H : arraysOk gpu0) by (repeat split; left; reflexivity).
  assert (G : inGrid dyeRes 3 4) by (unfold inGrid, dyeRes; lia).
  assert (R1 : 0 < 0.001) by lra.
  split; [exact H|]. split; [exact R1|]. split; [exact G|].
  refine (proj2 (proj2 (proj2
    (splat_deposit_bounded (mkSize 800 600) 0.5 0.5 50 0 (vec3 1 0 0) 0.001
       gpu0 H R1 _ _ _ 3%Z 4%Z G)))); simpl; lra.
Defined.

(* ===================================================================== *)
(** ** The pointer driver *)
(* ===================================================================== *)

Lemma Rmin_between a b : 0 <= a -> 0 <= b -> 0 <= Rmin a b <= b.
Proof. intros Ha Hb. unfold Rmin. destruct (Rle_dec a b); lra. Qed.

Lemma pointerColor_unit mode time r :
  0 <= r < 1 ->
  0 <= v3x (pointerColor mode time r) <= 1 /\
  0 <= v3y (pointerColor mode time r) <= 1 /\
  0 <= v3z (pointerColor mode time r) <= 1.
Proof.
  intros Hr. destruct mode; cbn [pointerColor v3x v3y v3z].
  - pose proof (SIN_bound (time * 0.5)).
    pose proof (SIN_bound (time * 0.5 + 2.0)).
    pose proof (SIN_bound (time * 0.5 + 4.0)). lra.
  - lra.
  - lra.
  - lra.
Qed.

(** X10. Whatever the pointer did, the splat a pointer frame applies has a
    radius between 0.001 and 0.006 and, [Math.random()] returning numbers of
    [0, 1), a colour whose three channels lie in [0, 1]; the intensity passed
    to the synthesiser lies in [0, 1]. *)
Theorem pointer_splat_bounded (random : nat -> R) (f : Frame) (w : World) :
  (forall n, 0 <= random n < 1) ->
  ptr_moved (pointer w) = true ->
  let w' := inputInteraction random f w in
  exists s i,
    splats (gpu w') = splats (gpu w) ++ [s] /\
    0.001 <= splat_radius s <= 0.006 /\
    0 <= v3x (splat_color s) <= 1 /\
    0 <= v3y (splat_color s) <= 1 /\
    0 <= v3z (splat_color s) <= 1 /\
    audioService w' = update i (audioService w) /\ 0 <= i <= 1.
Proof.
  intros Hr Hm. cbv zeta. unfold inputInteraction. rewrite Hm.
  cbn [Math_random fst snd].
  set (mag := sqrt (ptr_dx (pointer w) * ptr_dx (pointer w)
                    + ptr_dy (pointer w) * ptr_dy (pointer w))).
  assert (Hmag : 0 <= mag) by apply sqrt_pos.
  simpl.
  eexists. exists (Rmin (mag / 20) 1).
  split; [reflexivity|]. cbn [splat_radius splat_color].
  pose proof (Rmin_between mag 100 Hmag ltac:(lra)) as B.
  split; [lra|].
  destruct (pointerColor_unit (currentMode f) (elapsedTime f)
              (random (randomDraws w)) (Hr _)) as (Cx & Cy & Cz).
  repeat (split; [assumption|]).
  split; [reflexivity|]. apply Rmin_between; lra.
Qed.

Lemma pointer_splat_bounded_witness :
  (forall n, 0 <= halves n < 1) /\
  ptr_moved (pointer worldAfterMove) = true /\
  exists s i,
    splats (gpu (inputInteraction halves quietFrame worldAfterMove))
    = splats (gpu worldAfterMove) ++ [s] /\
    0.001 <= splat_radius s <= 0.006 /\
    0 <= v3x (splat_color s) <= 1 /\
    0 <= v3y (splat_color s) <= 1 /\
    0 <= v3z (splat_color s) <= 1 /\
    audioService (inputInteraction halves quietFrame worldAfterMove)
    = update i (audioService worldAfterMove) /\ 0 <= i <= 1.
Proof.
  assert (H : forall n, 0 <= halves n < 1) by (intros n; unfold halves; lra).
  split; [exact H|]. split; [reflexivity|].
  exact (pointer_splat_bounded halves quietFrame worldAfterMove H eq_refl).
Defined.

(** X11. Pointer moves between two frames are not accumulated: after two
    moves, to (x1, y1) and then to (x2, y2), and a release, the next frame
    applies one splat, at (x2, y2) in canvas units, whose force is five times
    the last step (x2 - x1, y2 - y1) alone; the release does not cancel it, and
    the frame leaves the pointer at (x2, y2) with no pending motion. *)
Theorem pointer_moves_coalesce (random : nat -> R) (f : Frame) (w : World)
    (x1 y1 x2 y2 : R) :
  let w' := inputInteraction random f
              (handleUp (handleMove x2 y2 (handleMove x1 y1 w))) in
  (exists color radius,
     splats (gpu w')
     = splats (gpu w)
       ++ [mkSplat (x2 / width (size f)) (y2 / height (size f))
             ((x2 - x1) * 5) ((y2 - y1) * 5) color radius]) /\
  pointer w' = mkPointer x2 y2 0 0 false false.
Proof.
  cbv zeta. unfold inputInteraction, handleUp, handleMove. simpl. split.
  - do 2 eexists. f_equal. f_equal. f_equal; lra.
  - reflexivity.
Qed.

(* ===================================================================== *)
(** ** The ambience driver *)
(* ===================================================================== *)

Lemma forEachAgent_emits size mode t agents i g :
  splats (snd (forEachAgent size mode t agents i g))
  = splats g ++ mapi (agentSplat mode t) agents i.
Proof.
  revert i g. induction agents as [|agent rest IH]; intros i g; simpl.
  - now rewrite app_nil_r.
  - match goal with
    | |- context [forEachAgent size mode t rest ?j ?h] =>
        specialize (IH j h); destruct (forEachAgent size mode t rest j h)
    end.
    cbn [snd] in *. rewrite IH. unfold applySplat. simpl.
    rewrite <- app_assoc. simpl. do 3 f_equal.
    unfold agentSplat, followTarget, ambienceTarget. simpl. f_equal; lra.
Qed.

(** X12. In an ambience frame the automated driver applies exactly one splat
    per agent, in array order, at the agent's new position, with force fifteen
    times the agent's step towards its target and radius 0.0035; the agents
    follow their targets; and the music driver's state (wanderer, last bass,
    phase), the audio service, the pointer and the random stream are left
    untouched. *)
Theorem ambience_frame_splats (random : nat -> R)
    (setHSL : R -> R -> R -> Vec3) (mode : string) (f : Frame) (w : World) :
  ambienceFrame mode f ->
  let w' := automatedSplats random setHSL f w in
  splats (gpu w')
  = splats (gpu w) ++ mapi (agentSplat mode (elapsedTime f)) (ambienceAgents w) 0 /\
  ambienceAgents w' = map (followTarget (elapsedTime f)) (ambienceAgents w) /\
  wanderer w' = wanderer w /\ lastBass w' = lastBass w /\
  movementRef w' = movementRef w /\ audioService w' = audioService w /\
  pointer w' = pointer w /\ randomDraws w' = randomDraws w.
Proof.
  intros (Hm & Ha & He). cbv zeta. unfold automatedSplats.
  rewrite Hm, Ha. cbn [truthy]. rewrite He. cbn [negb].
  unfold ambienceBranch.
  pose proof (forEachAgent_emits (size f) mode (elapsedTime f)
                (ambienceAgents w) 0%nat (gpu w)) as S.
  pose proof (forEachAgent_agents (size f) mode (elapsedTime f)
                (ambienceAgents w) 0%nat (gpu w)) as A.
  destruct (forEachAgent (size f) mode (elapsedTime f) (ambienceAgents w)
              0%nat (gpu w)) as [agents g].
  cbn [fst snd] in S, A. repeat split; assumption.
Qed.

Lemma ambience_frame_splats_witness :
  ambienceFrame "river" riverFrame /\
  wanderer (automatedSplats halves greyHSL riverFrame (world0 halves audio0))
  = wanderer (world0 halves audio0).
Proof.
  assert (H : ambienceFrame "river" riverFrame) by (repeat split).
  split; [exact H|].
  exact (proj1 (proj2 (proj2
    (ambience_frame_splats halves greyHSL "river" riverFrame
       (world0 halves audio0) H)))).
Defined.

(* ===================================================================== *)
(** ** The music driver: numbers it derives from the snapshot *)
(* ===================================================================== *)

Lemma Math_pow_nonneg x y : 0 <= Math_pow x y.
Proof.
  unfold Math_pow. destruct (Req_dec_T x 0); [lra|].
  unfold Rpower. left. apply exp_pos.
Qed.

Lemma Math_pow_unit x y : 0 <= x <= 1 -> 0 < y -> Math_pow x y <= 1.
Proof.
  intros [H0 H1] Hy. unfold Math_pow. destruct (Req_dec_T x 0); [lra|].
  unfold Rpower. rewrite <- exp_0.
  assert (L : ln x <= 0).
  { rewrite <- ln_1. destruct H1 as [H1 | ->]; [|lra].
    left. apply ln_increasing; lra. }
  assert (E : y * ln x <= 0) by nra.
  destruct E as [E | E]; [left; now apply exp_increasing | right; now rewrite E].
Qed.

Lemma byteR_range b : 0 <= byteR b <= 255.
Proof.
  unfold byteR. pose proof (Byte.to_N_bounded b) as H.
  split; [apply IZR_le | apply IZR_le]; lia.
Qed.

Lemma sumBins_S n d :
  sumBins (S n) d = sumBins n d + byteR (nth n d x00).
Proof. reflexivity. Qed.

Lemma sumBins_range n d : 0 <= sumBins n d <= 255 * INR n.
Proof.
  induction n as [|n IH].
  - unfold sumBins. simpl. lra.
  - rewrite sumBins_S, S_INR. pose proof (byteR_range (nth n d x00)). lra.
Qed.

Lemma sumBins_mono n m d : (n <= m)%nat -> sumBins n d <= sumBins m d.
Proof.
  induction 1 as [|m _ IH]; [lra|].
  rewrite sumBins_S. pose proof (byteR_range (nth m d x00)). lra.
Qed.

Lemma volAvgOf_range d : d <> [] -> 0 <= volAvgOf d <= 255.
Proof.
  intros Hd. unfold volAvgOf.
  pose proof (sumBins_range (List.length d) d) as H.
  assert (L : 0 < INR (List.length d)).
  { apply lt_0_INR. destruct d; [congruence | simpl; lia]. }
  split.
  - apply Rmult_le_pos; [lra|]. left. now apply Rinv_0_lt_compat.
  - apply Rmult_le_reg_r with (INR (List.length d)); [exact L|].
    unfold Rdiv. rewrite Rmult_assoc, Rinv_l by lra. lra.
Qed.

Lemma excitementOf_unit d : d <> [] -> 0 <= excitementOf d <= 1.
Proof.
  intros Hd. unfold excitementOf. split; [apply Math_pow_nonneg|].
  pose proof (volAvgOf_range d Hd). apply Math_pow_unit; lra.
Qed.

Lemma wanderTarget_band t :
  inWanderBand (fst (wanderTarget t)) /\ inWanderBand (snd (wanderTarget t)).
Proof.
  unfold wanderTarget, inWanderBand. cbn [fst snd].
  pose proof (SIN_bound (t * 0.5)). pose proof (SIN_bound (t * 1.42)).
  pose proof (COS_bound (t * 0.36)). pose proof (COS_bound (t * 1.73)).
  split; lra.
Qed.

(** The wanderer after [moveWanderer]: a tenth of the way to its target,
    the phase advanced by at least [0.96 * delta]. *)
Lemma moveWanderer_spec f d w :
  let w' := moveWanderer f d w in
  let t := wanderTarget (movementRef w') in
  wan_x (wanderer w')
  = wan_x (wanderer w) + (fst t - wan_x (wanderer w)) * 0.1 /\
  wan_y (wanderer w')
  = wan_y (wanderer w) + (snd t - wan_y (wanderer w)) * 0.1 /\
  (0 <= delta f -> movementRef w + 0.96 * delta f <= movementRef w').
Proof.
  cbv zeta. unfold moveWanderer. cbn.
  split; [reflexivity|]. split; [reflexivity|]. intros Hd.
  pose proof (Math_pow_nonneg (volAvgOf d / 255.0) 2.5) as E.
  fold (excitementOf d) in E.
  match goal with
  | |- _ <= _ + _ * ((0.8 + _ * 4.0) * (1.2 + Math_pow ?c 2.5 * 4.0)) =>
      pose proof (Math_pow_nonneg c 2.5) as C;
      revert C; generalize (Math_pow c 2.5) as sp
  end.
  revert E. generalize (excitementOf d) as e. intros e E sp C.
  assert (S : 0.96 <= (0.8 + e * 4.0) * (1.2 + sp * 4.0)) by nra.
  revert S. generalize ((0.8 + e * 4.0) * (1.2 + sp * 4.0)) as speed.
  intros speed S. nra.
Qed.

Section MusicFacts.

Variable random : nat -> R.
Variable setHSL : R -> R -> R -> Vec3.

Lemma trailSplat_exact f d color w :
  splats (gpu (trailSplat f d color w))
  = splats (gpu w)
    ++ (if Rgtb (volAvgOf d) 2 then [trailOf d color w] else []).
Proof.
  unfold trailSplat, trailOf.
  destruct (wanderTarget (movementRef w)) as [tx ty].
  destruct (Rgtb (volAvgOf d) 2).
  - unfold applySplat. simpl. do 2 f_equal. f_equal; lra.
  - now rewrite app_nil_r.
Qed.

(** The music branch on a snapshot [d]: where the wanderer ends, and the
    splats applied. *)
Lemma musicReact_full f d w :
  let w1 := moveWanderer f d w in
  let color := musicColor setHSL (currentMode f) (elapsedTime f) in
  let w' := musicReact random setHSL f d w in
  wanderer w' = wanderer w1 /\ movementRef w' = movementRef w1 /\
  splats (gpu w')
  = splats (gpu w)
    ++ (if Rgtb (volAvgOf d) 2 then [trailOf d color w1] else [])
    ++ (if isDrop (bassAvgOf d) (lastBass w)
        then map (fun k => burstSplat random color (randomDraws w + 5 * k))
               (seq 0 dropParticleCount)
        else []).
Proof.
  cbv zeta. unfold musicReact.
  pose proof (moveWanderer_frame f d w) as M.
  pose proof (trailSplat_spec f d
                (musicColor setHSL (currentMode f) (elapsedTime f))
                (moveWanderer f d w)) as T.
  pose proof (trailSplat_exact f d
                (musicColor setHSL (currentMode f) (elapsedTime f))
                (moveWanderer f d w)) as X.
  pose proof (dropBurst_spec random f
                (musicColor setHSL (currentMode f) (elapsedTime f))
                (trailSplat f d
                   (musicColor setHSL (currentMode f) (elapsedTime f))
                   (moveWanderer f d w))) as D.
  revert M T X D.
  generalize (dropBurst random f
                (musicColor setHSL (currentMode f) (elapsedTime f))
                (trailSplat f d
                   (musicColor setHSL (currentMode f) (elapsedTime f))
                   (moveWanderer f d w))) as w3.
  generalize (trailSplat f d
                (musicColor setHSL (currentMode f) (elapsedTime f))
                (moveWanderer f d w)) as w2.
  generalize (trailOf d (musicColor setHSL (currentMode f) (elapsedTime f))
                (moveWanderer f d w)) as tr.
  generalize (moveWanderer f d w) as w1.
  generalize (musicColor setHSL (currentMode f) (elapsedTime f)) as color.
  intros color w1 tr w2 w3 (M1 & M2 & M3 & M4 & M5 & M6)
    (_ & T3 & T4 & T5 & T6 & T7 & T8 & T9) X
    (D1 & D2 & D3 & D4 & D5 & D6 & D7 & D8).
  rewrite T5, M3.
  destruct (isDrop (bassAvgOf d) (lastBass w)).
  - change (wanderer (set_lastBass ?b ?x)) with (wanderer x).
    change (movementRef (set_lastBass ?b ?x)) with (movementRef x).
    change (gpu (set_lastBass ?b ?x)) with (gpu x).
    rewrite D4, D6, T4, T6, D1, X, M1, T9, M6, <- app_assoc.
    repeat split.
  - change (wanderer (set_lastBass ?b ?x)) with (wanderer x).
    change (movementRef (set_lastBass ?b ?x)) with (movementRef x).
    change (gpu (set_lastBass ?b ?x)) with (gpu x).
    rewrite T4, T6, X, M1, app_nil_r. repeat split.
Qed.

Lemma automatedSplats_wanderer f w :
  let w' := automatedSplats random setHSL f w in
  (wanderer w' = wanderer w /\ movementRef w' = movementRef w) \/
  (exists d, wanderer w' = wanderer (moveWanderer f d w) /\
             movementRef w' = movementRef (moveWanderer f d w)).
Proof.
  cbv zeta. unfold automatedSplats.
  destruct (isMusicActive f); [|left; split; reflexivity].
  destruct (truthy (ambienceMode f)).
  - left. destruct (ambienceMode f) as [mode|]; [|split; reflexivity].
    unfold ambienceBranch. destruct (forEachAgent _ _ _ _ _ _).
    split; reflexivity.
  - unfold musicBranch.
    destruct (getAudioData (spectrum f) (audioService w)) as [[d|] svc];
      [|left; split; reflexivity].
    right. exists d.
    destruct (musicReact_full f d (set_audioService svc w)) as (W & M & _).
    rewrite W, M. split; reflexivity.
Qed.

Lemma useFrame_wanderer f w :
  wanderer (useFrame random setHSL f w)
  = wanderer (automatedSplats random setHSL f w) /\
  movementRef (useFrame random setHSL f w)
  = movementRef (automatedSplats random setHSL f w).
Proof.
  destruct (inputInteraction_frame random f
              (automatedSplats random setHSL f w)) as (W & _ & M & _).
  rewrite <- W, <- M. unfold useFrame.
  generalize (inputInteraction random f (automatedSplats random setHSL f w)).
  intros w'. split; reflexivity.
Qed.

End MusicFacts.

(** X13. The wanderer of the music driver never leaves the band
    [-0.1, 1.1]: if both its coordinates lie in the band before a frame, they
    do after it, whatever the frame does; and with a non-negative frame time
    the phase [movementRef] never runs backwards.  At mount the wanderer is at
    (0.5, 0.5). *)
Theorem wanderer_stays_in_band (random : nat -> R)
    (setHSL : R -> R -> R -> Vec3) (f : Frame) (w : World) :
  0 <= delta f ->
  inWanderBand (wan_x (wanderer w)) -> inWanderBand (wan_y (wanderer w)) ->
  let w' := useFrame random setHSL f w in
  inWanderBand (wan_x (wanderer w')) /\ inWanderBand (wan_y (wanderer w')) /\
  movementRef w <= movementRef w'.
Proof.
  intros Hd Hx Hy. cbv zeta.
  destruct (useFrame_wanderer random setHSL f w) as [W M]. rewrite W, M.
  destruct (automatedSplats_wanderer random setHSL f w)
    as [[EW EM] | (d & EW & EM)]; rewrite EW, EM.
  - repeat split; try assumption; try apply Hx; try apply Hy. lra.
  - destruct (moveWanderer_spec f d w) as (X & Y & P). rewrite X, Y.
    destruct (wanderTarget_band (movementRef (moveWanderer f d w)))
      as [Tx Ty].
    specialize (P Hd). unfold inWanderBand in *. repeat split; lra.
Qed.

Lemma wanderer_stays_in_band_witness :
  0 <= delta (toneFrame x82) /\
  inWanderBand (wan_x (wanderer (world0 halves audio0))) /\
  inWanderBand (wan_y (wanderer (world0 halves audio0))) /\
  inWanderBand
    (wan_x (wanderer (useFrame halves greyHSL (toneFrame x82)
                        (world0 halves audio0)))).
Proof.
  assert (D : 0 <= delta (toneFrame x82)) by (simpl; lra).
  assert (B : inWanderBand (wan_x (wanderer (world0 halves audio0))))
    by (unfold inWanderBand; simpl; lra).
  assert (B' : inWanderBand (wan_y (wanderer (world0 halves audio0))))
    by (unfold inWanderBand; simpl; lra).
  repeat (split; [assumption|]).
  exact (proj1 (wanderer_stays_in_band halves greyHSL (toneFrame x82)
                  (world0 halves audio0) D B B')).
Defined.

(* ===================================================================== *)
(** ** The music driver: what it splats *)
(* ===================================================================== *)

Lemma burstSplat_ok (random : nat -> R) (color : Vec3) (n : nat) :
  (forall k, 0 <= random k < 1) ->
  burstParticleOk color (burstSplat random color n).
Proof.
  intros Hr. unfold burstParticleOk, burstSplat.
  cbn [splat_x splat_y splat_dx splat_dy splat_radius splat_color].
  pose proof (Hr n). pose proof (Hr (n + 1)%nat).
  pose proof (Hr (n + 3)%nat) as H3. pose proof (Hr (n + 4)%nat).
  repeat split; try lra.
  - pose proof (sin2_cos2 (random (n + 2)%nat * PI * 2)) as E.
    unfold Rsqr in E.
    revert E. generalize (sin (random (n + 2)%nat * PI * 2)) as sn.
    generalize (cos (random (n + 2)%nat * PI * 2)) as cs.
    revert H3. generalize (random (n + 3)%nat) as r. intros r H3 cs sn E.
    replace (20.0 + r * 60.0) with (20 + r * 60) by lra.
    replace (cs * (20 + r * 60) * (cs * (20 + r * 60))
             + sn * (20 + r * 60) * (sn * (20 + r * 60)))
      with ((sn * sn + cs * cs) * ((20 + r * 60) * (20 + r * 60))) by ring.
    rewrite E. nra.
  - pose proof (sin2_cos2 (random (n + 2)%nat * PI * 2)) as E.
    unfold Rsqr in E.
    revert E. generalize (sin (random (n + 2)%nat * PI * 2)) as sn.
    generalize (cos (random (n + 2)%nat * PI * 2)) as cs.
    revert H3. generalize (random (n + 3)%nat) as r. intros r H3 cs sn E.
    replace (20.0 + r * 60.0) with (20 + r * 60) by lra.
    replace (cs * (20 + r * 60) * (cs * (20 + r * 60))
             + sn * (20 + r * 60) * (sn * (20 + r * 60)))
      with ((sn * sn + cs * cs) * ((20 + r * 60) * (20 + r * 60))) by ring.
    rewrite E. nra.
  - f_equal; lra.
Qed.

(** X14. A drop burst applies exactly thirty splats and draws 150 random
    numbers; [Math.random()] returning numbers of [0, 1), every particle lies
    in the unit square, is pushed with a force of magnitude in [20, 80), has a
    radius in [0.005, 0.02) and carries four times the frame's base colour. *)
Theorem drop_burst_bounded (random : nat -> R) (f : Frame) (color : Vec3)
    (w : World) :
  (forall k, 0 <= random k < 1) ->
  let w' := dropBurst random f color w in
  exists l,
    splats (gpu w') = splats (gpu w) ++ l /\
    List.length l = 30%nat /\
    Forall (burstParticleOk color) l /\
    randomDraws w' = (randomDraws w + 150)%nat.
Proof.
  intros Hr. cbv zeta.
  destruct (dropBurst_spec random f color w) as (S & D & _).
  eexists. split; [exact S|]. split; [|split].
  - rewrite length_map, length_seq. reflexivity.
  - apply Forall_forall. intros s Hs. apply in_map_iff in Hs.
    destruct Hs as (k & <- & _). now apply burstSplat_ok.
  - rewrite D. reflexivity.
Qed.

Lemma drop_burst_bounded_witness :
  (forall k, 0 <= halves k < 1) /\
  exists l,
    splats (gpu (dropBurst halves (toneFrame x82) (vec3 1 0.2 0)
                   (world0 halves audio0)))
    = splats (gpu (world0 halves audio0)) ++ l /\
    List.length l = 30%nat /\
    Forall (burstParticleOk (vec3 1 0.2 0)) l /\
    randomDraws (dropBurst halves (toneFrame x82) (vec3 1 0.2 0)
                   (world0 halves audio0))
    = (randomDraws (world0 halves audio0) + 150)%nat.
Proof.
  assert (H : forall k, 0 <= halves k < 1) by (intros k; unfold halves; lra).
  split; [exact H|].
  exact (drop_burst_bounded halves (toneFrame x82) (vec3 1 0.2 0)
           (world0 halves audio0) H).
Defined.

(** X15. The trailing splat of the music driver is bounded: on a snapshot
    with at least one bin and a wanderer inside its band, the branch applies
    at most one splat, where the wanderer is, with a radius in
    [0.004, 0.009] and a push of at most 48 along each axis. *)
Theorem trail_splat_bounded (f : Frame) (d : list byte) (color : Vec3)
    (w : World) :
  d <> [] ->
  inWanderBand (wan_x (wanderer w)) -> inWanderBand (wan_y (wanderer w)) ->
  exists l,
    splats (gpu (trailSplat f d color w)) = splats (gpu w) ++ l /\
    (List.length l <= 1)%nat /\
    Forall (trailOk w) l.
Proof.
  intros Hd Hx Hy. rewrite trailSplat_exact. eexists. split; [reflexivity|].
  destruct (Rgtb (volAvgOf d) 2); [|split; [simpl; lia | constructor]].
  split; [simpl; lia|]. constructor; [|constructor].
  unfold trailOk, trailOf. cbv zeta.
  cbn [splat_x splat_y splat_dx splat_dy splat_radius].
  destruct (excitementOf_unit d Hd) as [E0 E1].
  destruct (wanderTarget_band (movementRef w)) as [Tx Ty].
  revert E0 E1 Tx Ty. generalize (excitementOf d) as e.
  generalize (fst (wanderTarget (movementRef w))) as tx.
  generalize (snd (wanderTarget (movementRef w))) as ty.
  unfold inWanderBand in *. intros ty tx e E0 E1 Tx Ty.
  repeat split; try lra; apply Rabs_le; split; nra.
Qed.

Lemma trail_splat_bounded_witness :
  [x82] <> [] /\
  inWanderBand (wan_x (wanderer (world0 halves audio0))) /\
  inWanderBand (wan_y (wanderer (world0 halves audio0))) /\
  exists l,
    splats (gpu (trailSplat (toneFrame x82) [x82] (vec3 1 0.2 0)
                   (world0 halves audio0)))
    = splats (gpu (world0 halves audio0)) ++ l /\
    (List.length l <= 1)%nat /\
    Forall (trailOk (world0 halves audio0)) l.
Proof.
  assert (D : [x82] <> []) by discriminate.
  assert (B : inWanderBand (wan_x (wanderer (world0 halves audio0))))
    by (unfold inWanderBand; simpl; lra).
  assert (B' : inWanderBand (wan_y (wanderer (world0 halves audio0))))
    by (unfold inWanderBand; simpl; lra).
  repeat (split; [assumption|]).
  exact (trail_splat_bounded (toneFrame x82) [x82] (vec3 1 0.2 0)
           (world0 halves audio0) D B B').
Defined.

Lemma In_zrange (z : Z) (n : nat) :
  (0 <= z < Z.of_nat n)%Z -> In z (zrange n).
Proof.
  intros H. unfold zrange. apply in_map_iff. exists (Z.to_nat z).
  split; [lia|]. apply in_seq. lia.
Qed.

Lemma forallb2_spec {A B : Type} (f : A -> B -> bool) (la : list A)
    (lb : list B) :
  forallb (fun a => forallb (f a) lb) la = true ->
  forall a b, In a la -> In b lb -> f a b = true.
Proof.
  intros H a b Ha Hb. rewrite forallb_forall in H. specialize (H a Ha).
  rewrite forallb_forall in H. exact (H b Hb).
Qed.

(** Every running sum of at most fourteen bins and every bin: checked one
    pair at a time. *)
Lemma addOk_table :
  forallb (fun s => forallb (addOk s) (zrange 256)) (zrange 3571) = true.
Proof. vm_compute. reflexivity. Qed.

(** Every low-band sum: checked one at a time. *)
Lemma loudOk_table : forallb loudOk (zrange 3826) = true.
Proof. vm_compute. reflexivity. Qed.

(** Adding a bin to a running sum of at most fourteen bins is exact in
    binary64. *)
Lemma add_exact (s b : Z) :
  (0 <= s <= 3570)%Z -> (0 <= b <= 255)%Z ->
  (ofZ s + ofZ b)%float = ofZ (s + b).
Proof.
  intros Hs Hb. apply FloatAxioms.Leibniz.eqb_spec.
  apply (forallb2_spec addOk _ _ addOk_table s b); apply In_zrange; lia.
Qed.

Lemma byteZ_range b : (0 <= byteZ b <= 255)%Z.
Proof. unfold byteZ. pose proof (Byte.to_N_bounded b). lia. Qed.

Lemma sumZ_S n d : sumZ (S n) d = (sumZ n d + byteZ (nth n d x00))%Z.
Proof. reflexivity. Qed.

Lemma sumZ_range n d : (0 <= sumZ n d <= 255 * Z.of_nat n)%Z.
Proof.
  induction n as [|n IH]; [unfold sumZ; simpl; lia|].
  rewrite sumZ_S. pose proof (byteZ_range (nth n d x00)). lia.
Qed.

Lemma sumBins_sumZ n d : sumBins n d = IZR (sumZ n d).
Proof.
  induction n as [|n IH]; [reflexivity|].
  rewrite sumBins_S, sumZ_S, plus_IZR, IH. reflexivity.
Qed.

(** The low-band sum the program accumulates in doubles is the double of the
    integer sum. *)
Lemma bassSumOf_exact d : bassSumOf d = ofZ (sumZ 15 d).
Proof.
  unfold bassSumOf.
  assert (G : forall k, (k <= 15)%nat ->
            forLoop k (fun i s => (s + byteF (nth i d x00))%float) 0%float
            = ofZ (sumZ k d)).
  { induction k as [|k IH]; intros Hk; [reflexivity|].
    change (forLoop (S k) ?body ?s0) with (body k (forLoop k body s0)).
    cbv beta. rewrite IH by lia. rewrite sumZ_S.
    apply add_exact; [|apply byteZ_range].
    pose proof (sumZ_range k d). lia. }
  apply G. lia.
Qed.

Lemma loud_exact (z : Z) :
  (0 <= z <= 3825)%Z -> (110 <? ofZ z / 15)%float = true -> (1650 < z)%Z.
Proof.
  intros Hz H.
  assert (I : In z (zrange 3826)) by (apply In_zrange; lia).
  pose proof (proj1 (forallb_forall loudOk (zrange 3826)) loudOk_table z I)
    as T.
  unfold loudOk in T. rewrite H in T. now apply Z.ltb_lt.
Qed.

Lemma sumZ_15_range d : (0 <= sumZ 15 d <= 3825)%Z.
Proof. exact (sumZ_range 15 d). Qed.

(** A low-band average above 110 takes a low-band sum above 1650. *)
Lemma loud_sum d : (110 <? bassAvgOf d)%float = true -> 1650 < sumBins 15 d.
Proof.
  unfold bassAvgOf. rewrite bassSumOf_exact, sumBins_sumZ. intros H.
  apply IZR_lt. exact (loud_exact _ (sumZ_15_range d) H).
Qed.

(** A drop is loud: on a snapshot of 128 bins, a low-band average above 110
    puts the overall average above 2. *)
Lemma drop_is_loud (d : list byte) (l : float) :
  List.length d = 128%nat ->
  isDrop (bassAvgOf d) l = true -> Rgtb (volAvgOf d) 2 = true.
Proof.
  intros Hl Hd. apply isDrop_iff in Hd. destruct Hd as [Hb _].
  apply loud_sum in Hb.
  unfold Rgtb. apply Rltb_true. unfold volAvgOf. rewrite Hl.
  pose proof (sumBins_mono 15 128 d ltac:(lia)) as M.
  replace (INR 128) with 128 by (simpl; lra). lra.
Qed.

(** X16. A burst never comes without the trail.  Once the service is
    initialised (the snapshot has 128 bins), a music frame applies no splat,
    the trailing splat alone, or the trailing splat followed by the thirty of
    a burst: 0, 1 or 31 splats, never 30; and it applies 31 exactly when the
    drop test, computed in binary64 as the program computes it, succeeds. *)
Theorem burst_never_without_trail (random : nat -> R)
    (setHSL : R -> R -> R -> Vec3) (f : Frame) (w : World) a d :
  musicFrame f ->
  analyser (audioService w) = Some a ->
  dataArray (audioService w) = Some d -> List.length d = 128%nat ->
  let w' := automatedSplats random setHSL f w in
  let snapshot := map (spectrum f) (seq 0 128) in
  exists n,
    List.length (splats (gpu w')) = (List.length (splats (gpu w)) + n)%nat /\
    (n = 0%nat \/ n = 1%nat \/ n = 31%nat) /\
    (n = 31%nat <-> isDrop (bassAvgOf snapshot) (lastBass w) = true).
Proof.
  intros Hm Ha Hd Hl. cbv zeta.
  rewrite (automatedSplats_music random setHSL f w a d Hm Ha Hd), Hl.
  destruct (musicReact_full random setHSL f
              (map (spectrum f) (seq 0 128))
              (set_audioService
                 (set_dataArray (Some (map (spectrum f) (seq 0 128)))
                    (audioService w)) w)) as (_ & _ & S).
  rewrite S. clear S.
  change (lastBass (set_audioService ?s ?x)) with (lastBass x).
  change (gpu (set_audioService ?s ?x)) with (gpu x).
  assert (L : List.length (map (spectrum f) (seq 0 128)) = 128%nat)
    by (rewrite length_map, length_seq; reflexivity).
  pose proof (drop_is_loud (map (spectrum f) (seq 0 128)) (lastBass w) L) as Q.
  revert Q. generalize (map (spectrum f) (seq 0 128)) as snap. intros snap Q.
  rewrite !List.length_app.
  destruct (isDrop (bassAvgOf snap) (lastBass w)).
  - rewrite (Q eq_refl), length_map, length_seq. exists 31%nat.
    split; [reflexivity|]. split; [auto|]. split; reflexivity.
  - destruct (Rgtb (volAvgOf snap) 2).
    + exists 1%nat. split; [reflexivity|]. split; [auto|].
      split; discriminate.
    + exists 0%nat. split; [reflexivity|]. split; [auto|].
      split; discriminate.
Qed.

(** The witness is a frame on which the last bit decides: the low-band sums
    1351 and then 1651 have exact averages exactly 20 apart, the doubles the
    program holds are not more than 20 apart, and the drop test fails. *)
Lemma burst_never_without_trail_witness :
  let f := stepFrame 1 x6f x6e in
  let w := worldAfterBass1351 in
  musicFrame f /\
  analyser (audioService w) = Some (mkAnalyserNode 256) /\
  dataArray (audioService w) = Some (repeat x00 128) /\
  List.length (repeat x00 128) = 128%nat /\
  bassSumOf (map (spectrum f) (seq 0 128)) = 1651%float /\
  (1651 - 1351) / 15 = 20 /\
  isDrop (bassAvgOf (map (spectrum f) (seq 0 128))) (lastBass w) = false /\
  exists n,
    List.length (splats (gpu (automatedSplats halves greyHSL f w)))
    = (List.length (splats (gpu w)) + n)%nat /\
    (n = 0%nat \/ n = 1%nat \/ n = 31%nat) /\
    (n = 31%nat <->
     isDrop (bassAvgOf (map (spectrum f) (seq 0 128))) (lastBass w) = true).
Proof.
  intros f w.
  assert (M : musicFrame f) by (split; reflexivity).
  split; [exact M|]. split; [reflexivity|]. split; [reflexivity|].
  split; [reflexivity|]. split; [vm_compute; reflexivity|].
  split; [lra|]. split; [vm_compute; reflexivity|].
  exact (burst_never_without_trail halves greyHSL f w (mkAnalyserNode 256)
           (repeat x00 128) M eq_refl eq_refl eq_refl).
Defined.

(* ===================================================================== *)
(** ** The audio service over its runs *)
(* ===================================================================== *)

Lemma setInstrument_flags type s s' :
  setInstrument type s = Some s' ->
  currentType s' = type /\ isMuted s' = isMuted s /\
  masterVolume s' = masterVolume s /\ analyser s' = analyser s /\
  dataArray s' = dataArray s /\ globalGain s' = globalGain s /\
  ctx s' = ctx s /\ isInitialized s' = isInitialized s.
Proof.
  unfold setInstrument.
  destruct (ctx s) as [c|] eqn:Ec;
    [destruct (isInitialized s) eqn:Ei; cbn [negb]|].
  - cbn. destruct (mainFilter s), (mainGain s), (delayNode s),
      (delayFeedback s), (delayGain s); try discriminate.
    intros [= <-]. cbn. repeat split; congruence.
  - intros [= <-]. cbn. repeat split; congruence.
  - intros [= <-]. cbn. repeat split; congruence.
Qed.

Lemma update_flags v s :
  currentType (update v s) = currentType s /\
  isMuted (update v s) = isMuted s /\
  masterVolume (update v s) = masterVolume s /\
  analyser (update v s) = analyser s /\
  dataArray (update v s) = dataArray s.
Proof.
  unfold update.
  destruct (ctx s), (mainFilter s), (mainGain s);
    try (repeat split; reflexivity).
  destruct (isInitialized s); cbn; repeat split; reflexivity.
Qed.

Lemma map_mapi {A B C : Type} (g : B -> C) (h : A -> C) (f : A -> nat -> B)
    (l : list A) (i : nat) :
  (forall a k, g (f a k) = h a) -> map g (mapi f l i) = map h l.
Proof.
  intros H. revert i. induction l as [|a l IH]; intros i; simpl.
  - reflexivity.
  - now rewrite H, IH.
Qed.

Lemma update_notes v s : notes (update v s) = notes s.
Proof.
  unfold notes, update.
  destruct (ctx s), (mainFilter s), (mainGain s); try reflexivity.
  destruct (isInitialized s); [|reflexivity]. cbn.
  apply map_mapi. reflexivity.
Qed.

Lemma last_snoc {A : Type} (l : list A) (a d : A) : last (l ++ [a]) d = a.
Proof. apply last_last. Qed.

Lemma finalTarget_ramp v now tc p :
  settledBy now p ->
  finalTarget (setTargetAtTime v now tc p) = v /\
  settledBy now (setTargetAtTime v now tc p).
Proof.
  intros Hs. unfold finalTarget, setTargetAtTime, settledBy in *. cbn.
  rewrite insertEvent_last by exact Hs. rewrite last_snoc. split; [reflexivity|].
  apply Forall_snoc; [exact Hs|]. cbn. lra.
Qed.

Lemma reachable_output (s : AudioService) :
  reachable s ->
  exists c gg,
    ctx s = Some c /\ globalGain s = Some gg /\
    settledBy (currentTime c) (gain gg) /\
    finalTarget (gain gg) = (if isMuted s then 0 else masterVolume s).
Proof.
  induction 1 as [ | dt s Hdt _ IH | type s s' _ IH E
                   | v s _ IH | m s _ IH | v s _ IH | sp s _ IH ];
    try destruct IH as (c & gg & Hc & Hg & Hs & Hf).
  - exists (mkAudioContext 0), (mkGainNode (mkParam 0.5 [])).
    repeat split. constructor.
  - unfold advanceClock. rewrite Hc. cbn. do 2 eexists.
    split; [reflexivity|]. split; [exact Hg|]. split; [|exact Hf].
    eapply settledBy_mono; [|exact Hs]. cbn. lra.
  - destruct (setInstrument_flags type s s' E)
      as (_ & K2 & K3 & _ & _ & K6 & K7 & _).
    exists c, gg. rewrite K2, K3, K6, K7. repeat split; assumption.
  - destruct (update_keeps v s) as (K1 & _ & _ & _ & K5 & _).
    destruct (update_flags v s) as (_ & F2 & F3 & _).
    exists c, gg. rewrite K1, K5, F2, F3. repeat split; assumption.
  - unfold setMute. cbn. rewrite Hg, Hc.
    destruct (finalTarget_ramp (if m then 0 else masterVolume s)
                (currentTime c) 0.1 (gain gg) Hs) as [T S].
    exists c. eexists. cbn. split; [exact Hc|]. split; [reflexivity|].
    cbn. split; [exact S|]. exact T.
  - unfold setMasterVolume. cbn. rewrite Hg, Hc.
    destruct (isMuted s) eqn:Em; cbn.
    + exists c, gg. rewrite Em. repeat split; assumption.
    + destruct (finalTarget_ramp v (currentTime c) 0.1 (gain gg) Hs) as [T S].
      exists c. eexists. cbn. rewrite Em.
      split; [exact Hc|]. split; [reflexivity|]. cbn. split; [exact S|exact T].
  - destruct (getAudioData_keeps sp s) as (K1 & _ & _ & _ & _ & _ & _ & K8).
    cbv zeta in K1, K8.
    assert (F : isMuted (snd (getAudioData sp s)) = isMuted s /\
                masterVolume (snd (getAudioData sp s)) = masterVolume s).
    { unfold getAudioData. destruct (analyser s), (dataArray s);
        split; reflexivity. }
    destruct F as [F1 F2].
    exists c, gg. rewrite K1, K8, F1, F2. repeat split; assumption.
Qed.

(** X17. Mute and volume stay in charge of the output: in every state the
    initialised service reaches, the automation scheduled last on the output
    gain heads to 0 if the service is muted and to the master volume if it is
    not, whatever the order of the calls and the times between them. *)
Theorem output_gain_follows_controls (s : AudioService) :
  reachable s -> outputFollowsControls s.
Proof.
  intros H. destruct (reachable_output s H) as (c & gg & _ & Hg & _ & Hf).
  exists gg. split; assumption.
Qed.

Lemma output_gain_follows_controls_witness :
  reachable (setMute false (setMasterVolume 0.8 (setMute true audio0))) /\
  outputFollowsControls
    (setMute false (setMasterVolume 0.8 (setMute true audio0))).
Proof.
  assert (H : reachable
                (setMute false (setMasterVolume 0.8 (setMute true audio0)))).
  { apply reach_setMute, reach_setMasterVolume, reach_setMute, reach_init. }
  split; [exact H|].
  exact (output_gain_follows_controls _ H).
Defined.

Lemma reachable_bank (s : AudioService) :
  reachable s -> notes s = presetNotes (currentType s).
Proof.
  induction 1 as [ | dt s Hdt Hr IH | type s s' Hr IH E
                   | v s _ IH | m s _ IH | v s _ IH | sp s _ IH ].
  - reflexivity.
  - unfold advanceClock. destruct (ctx s); exact IH.
  - destruct (reachable_invariant s Hr) as [I _].
    destruct (setInstrument_applies type s I) as (s1 & E1 & _ & P & _).
    rewrite E in E1. inversion E1; subst s1.
    destruct P as (T & B & _). rewrite T.
    unfold notes, presetNotes. unfold bank, presetBank in B.
    apply (f_equal (map (fun x : OscillatorType * AudioParam * AudioParam =>
                           (fst (fst x), snd (fst x))))) in B.
    rewrite !map_map in B. exact B.
  - destruct (update_flags v s) as (F1 & _). rewrite update_notes, F1. exact IH.
  - unfold setMute. cbn. destruct (globalGain s), (ctx s); exact IH.
  - unfold setMasterVolume. cbn.
    destruct (globalGain s), (ctx s), (isMuted s); exact IH.
  - unfold getAudioData. destruct (analyser s), (dataArray s); exact IH.
Qed.

(** X18. The bank plays the selected preset: in every state the initialised
    service reaches, the oscillators are three, and their waveforms and
    frequencies are those the table prescribes for the preset selected last;
    [update] bends detunes only. *)
Theorem bank_plays_selected_preset (s : AudioService) :
  reachable s ->
  notes s = presetNotes (currentType s) /\ List.length (oscs s) = 3%nat.
Proof.
  intros H. pose proof (reachable_bank s H) as N. split; [exact N|].
  apply (f_equal (@List.length _)) in N. unfold notes, presetNotes in N.
  rewrite !length_map in N. rewrite N. destruct (currentType s); reflexivity.
Qed.

Lemma bank_plays_selected_preset_witness :
  reachable (update 0.7 audioOrbit) /\
  notes (update 0.7 audioOrbit) = presetNotes InstrumentType.orbit.
Proof.
  assert (H : reachable (update 0.7 audioOrbit)).
  { apply reach_update.
    apply (reach_setInstrument InstrumentType.orbit audio0);
      [apply reach_init | exact setInstrument_orbit_audio0]. }
  split; [exact H|].
  exact (proj1 (bank_plays_selected_preset _ H)).
Defined.

Lemma reachable_snapshot (s : AudioService) :
  reachable s ->
  analyser s = Some (mkAnalyserNode 256) /\
  exists d, dataArray s = Some d /\ List.length d = 128%nat.
Proof.
  induction 1 as [ | dt s Hdt Hr IH | type s s' Hr IH E
                   | v s _ IH | m s _ IH | v s _ IH | sp s _ IH ];
    try destruct IH as (A & d & D & L).
  - split; [reflexivity|]. eexists. split; [reflexivity|]. reflexivity.
  - unfold advanceClock. destruct (ctx s); cbn; eauto.
  - destruct (setInstrument_flags type s s' E) as (_ & _ & _ & K4 & K5 & _).
    rewrite K4, K5. eauto.
  - destruct (update_flags v s) as (_ & _ & _ & F4 & F5). rewrite F4, F5. eauto.
  - unfold setMute. cbn. destruct (globalGain s), (ctx s); cbn; eauto.
  - unfold setMasterVolume. cbn.
    destruct (globalGain s), (ctx s), (isMuted s); cbn; eauto.
  - unfold getAudioData. rewrite A, D. cbn. split; [exact A|].
    eexists. split; [reflexivity|]. now rewrite length_map, length_seq.
Qed.

(** X19. Once the service is initialised the snapshot is never null: in
    every state it reaches, [getAudioData()] returns an array of exactly 128
    bins holding what the analyser reports, and stores it as the buffer. *)
Theorem snapshot_has_128_bins (sp : nat -> byte) (s : AudioService) :
  reachable s ->
  getAudioData sp s
  = (Some (map sp (seq 0 128)), set_dataArray (Some (map sp (seq 0 128))) s).
Proof.
  intros H. destruct (reachable_snapshot s H) as (A & d & D & L).
  unfold getAudioData. rewrite A, D, L. reflexivity.
Qed.

Lemma snapshot_has_128_bins_witness :
  reachable (setMute true audio0) /\
  fst (getAudioData (fun _ => x82) (setMute true audio0))
  = Some (map (fun _ => x82) (seq 0 128)).
Proof.
  assert (H : reachable (setMute true audio0))
    by (apply reach_setMute, reach_init).
  split; [exact H|].
  exact (f_equal fst (snapshot_has_128_bins (fun _ => x82) _ H)).
Defined.

(* ===================================================================== *)
(** ** Before and at [init()] *)
(* ===================================================================== *)

Lemma init_graphBuilt (s : AudioService) :
  isInitialized s = false ->
  init s = setInstrument (currentType s) (graphBuilt s).
Proof. intros H. unfold init. rewrite H. reflexivity. Qed.

Lemma graphBuilt_initialized s : initialized (graphBuilt s).
Proof. repeat split; discriminate. Qed.

Lemma graphBuilt_delaySettled s : delaySettled (graphBuilt s).
Proof.
  intros c dn df dg A B C D. cbn in A, B, C, D.
  inversion A; inversion B; inversion C; inversion D; subst. cbn.
  repeat split; constructor.
Qed.

(** What [init()] does on a service that is not initialised. *)
Lemma init_uninitialised (s : AudioService) :
  isInitialized s = false ->
  exists s',
    init s = Some s' /\
    initialized s' /\ presetApplied (currentType s) s' /\
    delayApplied (currentType s) s' /\
    globalGain s'
    = Some (mkGainNode
              (mkParam (if isMuted s then 0 else masterVolume s) [])) /\
    dataArray s' = Some (repeat x00 128) /\
    isMuted s' = isMuted s /\ masterVolume s' = masterVolume s /\
    init s' = Some s'.
Proof.
  intros Hi. rewrite (init_graphBuilt s Hi).
  destruct (setInstrument_applies (currentType s) (graphBuilt s)
              (graphBuilt_initialized s))
    as (s' & E & I' & P & _ & _ & D).
  destruct (D (graphBuilt_delaySettled s)) as [_ DA].
  destruct (setInstrument_flags _ _ _ E)
    as (_ & K2 & K3 & _ & K5 & K6 & _ & _).
  exists s'.
  split; [exact E|]. split; [exact I'|]. split; [exact P|].
  split; [exact DA|]. split; [exact K6|]. split; [exact K5|].
  split; [exact K2|]. split; [exact K3|].
  unfold init. destruct I' as (T & _). rewrite T. reflexivity.
Qed.

(** Before the context exists the three setters only record their argument
    and [update] does nothing. *)
Lemma setters_before_init (m : bool) (v x : R) (t : InstrumentType.t)
    (s : AudioService) :
  ctx s = None ->
  setInstrument t (setMasterVolume v (setMute m s))
  = Some (set_currentType t (set_masterVolume v (set_isMuted m s))) /\
  update x (set_currentType t (set_masterVolume v (set_isMuted m s)))
  = set_currentType t (set_masterVolume v (set_isMuted m s)).
Proof.
  intros Hc.
  assert (E1 : setMasterVolume v (setMute m s)
               = set_masterVolume v (set_isMuted m s)).
  { unfold setMasterVolume, setMute. cbn. rewrite Hc.
    destruct (globalGain s); cbn; rewrite ?Hc; destruct (globalGain s);
      reflexivity. }
  rewrite E1. unfold setInstrument, update. cbn. rewrite Hc. split; reflexivity.
Qed.

(** X20. Settings made before [init()] are honoured by it.  On a service
    whose context does not exist yet, [setMute], [setMasterVolume] and
    [setInstrument] only record their argument and [update] does nothing;
    [init()] then succeeds, builds the graph with the recorded preset in
    force (bank, filter, gain at 0, delay line), gives the output gain the
    value 0 if muted and the recorded volume otherwise, with no automation
    scheduled, allocates a snapshot buffer of 128 zero bins, and a second
    [init()] changes nothing. *)
Theorem settings_before_init_are_honoured (m : bool) (v x : R)
    (t : InstrumentType.t) (s : AudioService) :
  ctx s = None -> isInitialized s = false ->
  exists s1 s',
    setInstrument t (setMasterVolume v (setMute m s)) = Some s1 /\
    s1 = set_currentType t (set_masterVolume v (set_isMuted m s)) /\
    update x s1 = s1 /\
    init s1 = Some s' /\
    initialized s' /\ presetApplied t s' /\ delayApplied t s' /\
    globalGain s' = Some (mkGainNode (mkParam (if m then 0 else v) [])) /\
    dataArray s' = Some (repeat x00 128) /\
    isMuted s' = m /\ masterVolume s' = v /\
    init s' = Some s'.
Proof.
  intros Hc Hi.
  destruct (setters_before_init m v x t s Hc) as [E U].
  destruct (init_uninitialised
              (set_currentType t (set_masterVolume v (set_isMuted m s))) Hi)
    as (s' & I & R).
  exists (set_currentType t (set_masterVolume v (set_isMuted m s))), s'.
  split; [exact E|]. split; [reflexivity|]. split; [exact U|].
  split; [exact I|]. exact R.
Qed.

Lemma settings_before_init_are_honoured_witness :
  ctx newAudioService = None /\ isInitialized newAudioService = false /\
  exists s1 s',
    setInstrument InstrumentType.spark
      (setMasterVolume 0.8 (setMute true newAudioService)) = Some s1 /\
    s1 = set_currentType InstrumentType.spark
           (set_masterVolume 0.8 (set_isMuted true newAudioService)) /\
    update 1 s1 = s1 /\
    init s1 = Some s' /\
    initialized s' /\ presetApplied InstrumentType.spark s' /\
    delayApplied InstrumentType.spark s' /\
    globalGain s' = Some (mkGainNode (mkParam (if true then 0 else 0.8) [])) /\
    dataArray s' = Some (repeat x00 128) /\
    isMuted s' = true /\ masterVolume s' = 0.8 /\
    init s' = Some s'.
Proof.
  split; [reflexivity|]. split; [reflexivity|].
  exact (settings_before_init_are_honoured true 0.8 1 InstrumentType.spark
           newAudioService eq_refl eq_refl).
Defined.

(* ===================================================================== *)
(** ** [update]: the targets it schedules *)
(* ===================================================================== *)

Lemma Rmin_cases a b : (Rmin a b = a /\ a <= b) \/ (Rmin a b = b /\ b <= a).
Proof. unfold Rmin. destruct (Rle_dec a b); [left | right]; split; lra. Qed.

Lemma Rgtb_cases a b : (Rgtb a b = true /\ b < a) \/ (Rgtb a b = false /\ a <= b).
Proof.
  unfold Rgtb, Rltb. destruct (Rlt_dec b a); [left | right]; split;
    try reflexivity; lra.
Qed.

(** X21. Whatever [velocity] is passed, [update] schedules a gain target
    between 0 and 0.53 with a time constant between 0.05 and 0.5, and a
    cutoff target between 80 and 3200 Hz.  The cutoff target is the preset's
    base frequency, plus intensity times its modulation depth when the
    intensity is above the threshold: the clamp to [20, 20000] never changes
    it. *)
Theorem update_targets_bounded (v : R) (s : AudioService) c mf mg :
  ctx s = Some c -> mainFilter s = Some mf -> mainGain s = Some mg ->
  isInitialized s = true ->
  let config := INSTRUMENTS (currentType s) in
  let intensity := Rmin v 1.2 in
  let targetFreq :=
    if Rgtb intensity 0.001
    then fc_baseFreq (filter_ config) + intensity * fc_modFreq (filter_ config)
    else fc_baseFreq (filter_ config) in
  exists G tc,
    mainGain (update v s)
    = Some (mkGainNode (setTargetAtTime G (currentTime c) tc (gain mg))) /\
    mainFilter (update v s)
    = Some (mkBiquadFilterNode (bq_type mf)
              (setTargetAtTime targetFreq (currentTime c) 0.2
                 (bq_frequency mf))
              (bq_Q mf)) /\
    0 <= G <= 0.53 /\ 0.05 <= tc <= 0.5 /\ 80 <= targetFreq <= 3200.
Proof.
  intros Hc Hf Hg Hi. cbv zeta.
  assert (B : let config := INSTRUMENTS (currentType s) in
              let intensity := Rmin v 1.2 in
              let targetFreq :=
                if Rgtb intensity 0.001
                then fc_baseFreq (filter_ config)
                     + intensity * fc_modFreq (filter_ config)
                else fc_baseFreq (filter_ config) in
              80 <= targetFreq <= 3200 /\
              Rmax 20 (Rmin 20000 targetFreq) = targetFreq /\
              0 <= (if Rgtb intensity 0.001
                    then gc_base (gain_ config)
                         + intensity * gc_mod (gain_ config)
                    else 0) <= 0.53 /\
              0.05 <= (if Rgtb intensity 0.001
                       then gc_attack (gain_ config) else releaseTime)
              <= 0.5).
  { cbv zeta.
    assert (C : forall F, 80 <= F <= 3200 -> Rmax 20 (Rmin 20000 F) = F).
    { intros F HF. rewrite Rmin_right by lra. apply Rmax_right. lra. }
    destruct (Rmin_cases v 1.2) as [[-> L] | [-> L]];
      match goal with
      | |- context [Rgtb ?a 0.001] =>
          destruct (Rgtb_cases a 0.001) as [[-> G] | [-> G]]
      end;
      unfold releaseTime;
      destruct (currentType s); cbn [INSTRUMENTS filter_ gain_ fc_baseFreq
        fc_modFreq gc_base gc_mod gc_attack];
      (split; [lra|]); (split; [apply C; lra|]); split; lra. }
  cbv zeta in B. destruct B as (BF & BC & BG & BT).
  do 2 eexists.
  split; [exact (update_mainGain v s c mf mg Hc Hf Hg Hi)|].
  split; [|split; [exact BG | split; [exact BT | exact BF]]].
  unfold update. rewrite Hc, Hf, Hg, Hi. cbn. rewrite BC. reflexivity.
Qed.

Lemma update_targets_bounded_witness :
  ctx audioOrbit = Some (mkAudioContext 0) /\
  isInitialized audioOrbit = true /\
  exists G tc,
    mainGain (update 7 audioOrbit)
    = Some (mkGainNode
              (setTargetAtTime G 0 tc (mkParam 1 [SetValueAtTime 0 0]))) /\
    0 <= G <= 0.53 /\ 0.05 <= tc <= 0.5.
Proof.
  split; [reflexivity|]. split; [reflexivity|].
  destruct (update_targets_bounded 7 audioOrbit (mkAudioContext 0)
              (mkBiquadFilterNode bandpass
                 (mkParam 350 [SetValueAtTime 300 0]) (mkParam 5.0 []))
              (mkGainNode (mkParam 1 [SetValueAtTime 0 0]))
              eq_refl eq_refl eq_refl eq_refl)
    as (G & tc & E & _ & BG & BT & _).
  exists G, tc. split; [exact E|]. split; [exact BG | exact BT].
Defined.

(* ===================================================================== *)
(** ** The application's synthesiser controls *)
(* ===================================================================== *)

Lemma outputSettled_setMute m s :
  outputSettled s -> outputSettled (setMute m s).
Proof.
  intros (c & gg & Hc & Hg & Hs & Hf). unfold setMute. cbn. rewrite Hg, Hc.
  destruct (finalTarget_ramp (if m then 0 else masterVolume s)
              (currentTime c) 0.1 (gain gg) Hs) as [T S].
  exists c. eexists. cbn. split; [exact Hc|]. split; [reflexivity|].
  cbn. split; [exact S|]. exact T.
Qed.

Lemma outputSettled_setMasterVolume v s :
  outputSettled s -> outputSettled (setMasterVolume v s).
Proof.
  intros (c & gg & Hc & Hg & Hs & Hf). unfold setMasterVolume. cbn.
  rewrite Hg, Hc. destruct (isMuted s) eqn:Em; cbn.
  - exists c, gg. cbn. rewrite Em. repeat split; assumption.
  - destruct (finalTarget_ramp v (currentTime c) 0.1 (gain gg) Hs) as [T S].
    exists c. eexists. cbn. rewrite Em.
    split; [exact Hc|]. split; [reflexivity|]. cbn. split; [exact S|exact T].
Qed.

Lemma outputSettled_advanceClock dt s :
  0 <= dt -> outputSettled s -> outputSettled (advanceClock dt s).
Proof.
  intros Hdt (c & gg & Hc & Hg & Hs & Hf). unfold advanceClock. rewrite Hc.
  do 2 eexists. cbn. split; [reflexivity|]. split; [exact Hg|].
  split; [|exact Hf]. eapply settledBy_mono; [|exact Hs]. cbn. lra.
Qed.

Lemma outputSettled_setInstrument type s s' :
  setInstrument type s = Some s' -> outputSettled s -> outputSettled s'.
Proof.
  intros E (c & gg & Hc & Hg & Hs & Hf).
  destruct (setInstrument_flags type s s' E)
    as (_ & K2 & K3 & _ & _ & K6 & K7 & _).
  exists c, gg. rewrite K2, K3, K6, K7. repeat split; assumption.
Qed.

Lemma outputSettled_init s s' :
  isInitialized s = false -> init s = Some s' -> outputSettled s'.
Proof.
  intros Hi E.
  destruct (init_uninitialised s Hi)
    as (s1 & E1 & I & _ & _ & G & _ & M & V & _).
  rewrite E in E1. inversion E1; subst s1.
  destruct I as (_ & C & _). apply not_None_Some in C. destruct C as [c C].
  exists c. eexists. split; [exact C|]. split; [exact G|].
  split; [constructor|]. rewrite M, V. reflexivity.
Qed.

Lemma initialized_setMute m s : initialized s -> initialized (setMute m s).
Proof.
  intros (I1 & I2 & I3 & I4 & I5 & I6 & I7 & I8).
  destruct (setMute_keeps m s) as (K1 & K2 & K3 & K4 & K5 & K6 & K7 & K8).
  unfold initialized. rewrite K1, K2, K3, K4, K5, K6, K7. repeat split; auto.
Qed.

Lemma initialized_setMasterVolume v s :
  initialized s -> initialized (setMasterVolume v s).
Proof.
  intros (I1 & I2 & I3 & I4 & I5 & I6 & I7 & I8).
  destruct (setMasterVolume_keeps v s)
    as (K1 & K2 & K3 & K4 & K5 & K6 & K7 & K8).
  unfold initialized. rewrite K1, K2, K3, K4, K5, K6, K7. repeat split; auto.
Qed.

Lemma setMute_flags m s :
  isMuted (setMute m s) = m /\ masterVolume (setMute m s) = masterVolume s /\
  currentType (setMute m s) = currentType s.
Proof.
  unfold setMute. cbn.
  destruct (globalGain s), (ctx s); cbn; repeat split; reflexivity.
Qed.

Lemma setMasterVolume_flags v s :
  isMuted (setMasterVolume v s) = isMuted s /\
  masterVolume (setMasterVolume v s) = v /\
  currentType (setMasterVolume v s) = currentType s.
Proof.
  unfold setMasterVolume. cbn.
  destruct (globalGain s), (ctx s), (isMuted s) eqn:E; cbn;
    repeat split; try reflexivity; exact E.
Qed.

Lemma advanceClock_flags dt s :
  isMuted (advanceClock dt s) = isMuted s /\
  masterVolume (advanceClock dt s) = masterVolume s /\
  currentType (advanceClock dt s) = currentType s /\
  isInitialized (advanceClock dt s) = isInitialized s /\
  (ctx s = None -> ctx (advanceClock dt s) = None).
Proof.
  unfold advanceClock. destruct (ctx s) eqn:E; cbn; repeat split; intros;
    congruence.
Qed.

(** What holds in every state the application reaches. *)
Lemma appReach_invariant (a : App) :
  appReach a ->
  uiAgrees a /\
  (started a = false -> ctx (service a) = None) /\
  (started a = true -> initialized (service a) /\ outputSettled (service a)).
Proof.
  induction 1 as [ | dt a Hdt _ IH | a a' _ IH E | a _ IH | val a _ IH
                   | inst a a' _ IH E ];
    try destruct IH as ((U1 & U2 & U3 & U4) & N & Y).
  - split; [repeat split|]. split; [reflexivity | discriminate].
  - destruct (advanceClock_flags dt (service a)) as (F1 & F2 & F3 & F4 & F5).
    unfold uiAgrees, elapse. cbn [service started muted volume instrument].
    rewrite F1, F2, F3, F4.
    split; [repeat split; assumption|]. split; [auto|].
    intros S. destruct (Y S) as [I O].
    split; [now apply advanceClock_initialized
           | now apply outputSettled_advanceClock].
  - unfold handleStart in E. destruct (init (service a)) as [s|] eqn:Ei;
      [|discriminate].
    inversion E; subst a'. clear E.
    destruct (setMasterVolume_flags (volume a) s) as (F1 & F2 & F3).
    unfold uiAgrees. cbn [service started muted volume instrument].
    rewrite F1, F2, F3.
    destruct (started a) eqn:Es.
    + destruct (Y eq_refl) as [I O].
      assert (s = service a).
      { unfold init in Ei. rewrite U4 in Ei. congruence. }
      subst s. split; [|split; [discriminate|]].
      * destruct (setMasterVolume_keeps (volume a) (service a))
          as (_ & _ & _ & _ & _ & _ & K7 & _).
        rewrite K7. repeat split; assumption.
      * intros _. split; [now apply initialized_setMasterVolume
                         | now apply outputSettled_setMasterVolume].
    + destruct (init_uninitialised (service a) U4)
        as (s1 & E1 & I & P & _ & _ & _ & M & V & _).
      rewrite Ei in E1. inversion E1; subst s1.
      destruct P as (T & _). split; [|split; [discriminate|]].
      * destruct (setMasterVolume_keeps (volume a) s)
          as (_ & _ & _ & _ & _ & _ & K7 & _).
        rewrite K7. destruct I as (I1 & _).
        repeat split; congruence.
      * intros _. split; [now apply initialized_setMasterVolume|].
        apply outputSettled_setMasterVolume.
        now apply (outputSettled_init (service a)).
  - destruct (setMute_flags (negb (muted a)) (service a)) as (F1 & F2 & F3).
    destruct (setMute_keeps (negb (muted a)) (service a))
      as (K1 & _ & _ & _ & _ & _ & K7 & _).
    unfold uiAgrees, toggleMute. cbn [service started muted volume instrument].
    rewrite F1, F2, F3, K1, K7.
    split; [repeat split; assumption|]. split; [exact N|].
    intros S. destruct (Y S) as [I O].
    split; [now apply initialized_setMute | now apply outputSettled_setMute].
  - destruct (setMasterVolume_flags val (service a)) as (F1 & F2 & F3).
    destruct (setMasterVolume_keeps val (service a))
      as (K1 & _ & _ & _ & _ & _ & K7 & _).
    unfold uiAgrees, handleVolumeChange.
    cbn [service started muted volume instrument].
    rewrite F1, F2, F3, K1, K7.
    split; [repeat split; assumption|]. split; [exact N|].
    intros S. destruct (Y S) as [I O].
    split; [now apply initialized_setMasterVolume
           | now apply outputSettled_setMasterVolume].
  - unfold handleInstrumentChange in E.
    destruct (setInstrument inst (service a)) as [s|] eqn:Es; [|discriminate].
    inversion E; subst a'. clear E.
    destruct (setInstrument_flags inst (service a) s Es)
      as (K1 & K2 & K3 & _ & _ & _ & K7 & K8).
    unfold uiAgrees. cbn [service started muted volume instrument].
    rewrite K1, K2, K3, K7, K8.
    split; [repeat split; assumption|]. split; [exact N|].
    intros S. destruct (Y S) as [I O].
    destruct (setInstrument_applies inst (service a) I) as (s1 & E1 & I1 & _).
    rewrite Es in E1. inversion E1; subst s1.
    split; [exact I1 | now apply (outputSettled_setInstrument inst (service a))].
Qed.

(** X22. The controls and the service agree.  In every state the
    application reaches by its start, mute, volume and instrument handlers,
    in any order and also with the mute button used before the start, the
    service's mute flag, master volume and preset are those the interface
    shows, and the service is initialised exactly when the application has
    started; once started, the output gain heads to 0 if the interface shows
    muted and to the volume shown otherwise; and neither the start handler
    nor the instrument handler can hit a missing node. *)
Theorem controls_and_service_agree (a : App) :
  appReach a ->
  uiAgrees a /\
  (started a = true ->
   exists gg, globalGain (service a) = Some gg /\
              finalTarget (gain gg) = (if muted a then 0 else volume a)) /\
  handleStart a <> None /\
  (forall inst, handleInstrumentChange inst a <> None).
Proof.
  intros H. destruct (appReach_invariant a H) as (U & N & Y).
  split; [exact U|]. destruct U as (U1 & U2 & U3 & U4).
  split; [|split].
  - intros S. destruct (Y S) as [_ (c & gg & _ & G & _ & F)].
    exists gg. split; [exact G|]. now rewrite <- U1, <- U2.
  - unfold handleStart. destruct (started a) eqn:Es.
    + unfold init. rewrite U4. discriminate.
    + destruct (init_uninitialised (service a) U4) as (s' & E & _).
      rewrite E. discriminate.
  - intros inst. unfold handleInstrumentChange. destruct (started a) eqn:Es.
    + destruct (Y eq_refl) as [I _].
      destruct (setInstrument_applies inst (service a) I) as (s' & E & _).
      rewrite E. discriminate.
    + unfold setInstrument. rewrite (N eq_refl). discriminate.
Qed.

Lemma controls_and_service_agree_witness :
  appReach (toggleMute app0) /\ uiAgrees (toggleMute app0).
Proof.
  assert (H : appReach (toggleMute app0)) by (apply app_mute, app_mount).
  split; [exact H|].
  exact (proj1 (controls_and_service_agree _ H)).
Defined.

(* ===================================================================== *)
(** ** The advection time step *)
(* ===================================================================== *)

Lemma pressureLoopState_advectionMat g k :
  advectionMat (pressureLoopState g k) = advectionMat g.
Proof.
  induction k as [|k IH]; [reflexivity|].
  rewrite pressureLoopState_S, <- IH. reflexivity.
Qed.

Lemma advections_dt mode g :
  adv_dt (advectionMat
            (divergencePass (advectDensity mode (advectVelocity mode g))))
  = adv_dt (advectionMat g).
Proof. reflexivity. Qed.

Lemma projection_tail_advectionMat g :
  advectionMat (bindDisplay (gradientSubtract g)) = advectionMat g.
Proof. reflexivity. Qed.

Lemma solverStep_dt mode g :
  adv_dt (advectionMat (solverStep mode g)) = adv_dt (advectionMat g).
Proof.
  unfold solverStep. rewrite projection_tail_advectionMat.
  change (pressurePass ?x) with (pressureLoopState x 20).
  rewrite pressureLoopState_advectionMat. apply advections_dt.
Qed.

(** X23. The advection step never follows the frame time: the [dt] uniform
    of the advection material is written by no frame, whatever the frame's
    [delta] and whatever the drivers do, so both advections of every frame
    step by the value the material was constructed with, 0.016. *)
Theorem advection_dt_is_constant (random : nat -> R)
    (setHSL : R -> R -> R -> Vec3) (f : Frame) (w : World) :
  adv_dt (advectionMat (gpu (useFrame random setHSL f w)))
  = adv_dt (advectionMat (gpu w)) /\
  adv_dt (advectionMat gpu0) = 0.016.
Proof.
  split; [|reflexivity].
  rewrite (useFrame_gpu random setHSL), solverStep_dt.
  apply (beforeSolver_keeps random setHSL
           (fun g => adv_dt (advectionMat g) = adv_dt (advectionMat (gpu w))));
    [|reflexivity].
  intros size x y dx dy color radius g H. exact H.
Qed.

(* ===================================================================== *)
(** ** The dye is never negative *)
(* ===================================================================== *)

Lemma mix_lower lo a b t :
  lo <= a -> lo <= b -> 0 <= t <= 1 -> lo <= a * (1 - t) + b * t.
Proof. intros ? ? [? ?]. nra. Qed.

(** A channel of a sample is at least the least value of that channel over
    the texture. *)
Lemma texture2D_lower (pr : Vec4 -> R) (s : Sampler) (uv : Vec2) lo :
  (forall a b t, pr (mix4 a b t) = pr a * (1 - t) + pr b * t) ->
  (0 < s_res s)%Z ->
  (forall i j, inGrid (s_res s) i j -> lo <= pr (s_img s i j)) ->
  lo <= pr (texture2D s uv).
Proof.
  intros Hpr Hres Hb. unfold texture2D. cbv zeta. rewrite !Hpr.
  repeat apply mix_lower; try apply frac_unit;
    apply Hb; now apply clampZ_inGrid.
Qed.

Lemma applySplat_dyeOk size x y dx dy color radius g :
  nonneg3 color -> dyeOk g ->
  dyeOk (applySplat size x y dx dy color radius g).
Proof.
  intros (Cx & Cy & Cz) [Ok D]. split; [now apply applySplat_arraysOk|].
  destruct (applySplat_active size x y dx dy color radius g Ok) as (_ & E & _).
  intros i j Hij. rewrite (E i j). unfold addGaussian. cbv zeta.
  destruct Hij as [Hi Hj]. rewrite !clampZ_id by assumption.
  cbn [v4x v4y v4z].
  destruct (D i j (conj Hi Hj)) as (Dx & Dy & Dz).
  assert (W : 0 < gaussianWeight size dyeRes x y radius i j)
    by (unfold gaussianWeight; apply exp_pos).
  revert W. generalize (gaussianWeight size dyeRes x y radius i j) as wt.
  intros wt W. repeat split; nra.
Qed.

(** The active density buffer after the solver step is the one the density
    advection wrote: every texel is a sample of the old buffer, scaled. *)
Lemma solverStep_density mode g :
  arraysOk g ->
  forall i j, exists uv,
    store (solverStep mode g) (fst (density (solverStep mode g))) i j
    = scale4 (densityDissipation mode)
        (texture2D (mkSampler dyeRes (store g (fst (density g)))) uv).
Proof.
  intros Ok i j. unfold solverStep.
  assert (A : arraysOk (advectVelocity mode g) /\
              store (advectVelocity mode g)
                (fst (density (advectVelocity mode g)))
              = store g (fst (density g))).
  { destruct (advectVelocity_stage mode g) as (V & D & P & S).
    unfold arraysOk. rewrite V, D, P, S. revert Ok.
    generalize (store g) as st. intros st Ok.
    concrete_arrays Ok; frame_store;
      (split; [repeat split; (left; reflexivity) || (right; reflexivity)
              | reflexivity]). }
  destruct A as [O1 E1]. rewrite <- E1. clear E1 Ok.
  revert O1. generalize (advectVelocity mode g) as g1. intros g1 O1.
  assert (B : arraysOk (advectDensity mode g1) /\
              exists uv,
                store (advectDensity mode g1)
                  (fst (density (advectDensity mode g1))) i j
                = scale4 (densityDissipation mode)
                    (texture2D
                       (mkSampler dyeRes (store g1 (fst (density g1)))) uv)).
  { destruct (advectDensity_stage mode g1) as (V & D & P & S).
    unfold arraysOk. rewrite V, D, P, S. revert O1.
    generalize (store g1) as st. intros st Ok.
    concrete_arrays Ok; frame_store;
      (split; [repeat split; (left; reflexivity) || (right; reflexivity)|]);
      unfold renderQuad, ADVECTION_SHADER; cbv zeta;
      cbn [samplerOf targetRes]; eexists; reflexivity. }
  destruct B as [O2 [uv E2]]. exists uv. rewrite <- E2. clear E2 O1.
  revert O2. generalize (advectDensity mode g1) as g2. clear g1.
  intros g2 O2.
  assert (C : arraysOk (divergencePass g2) /\
              store (divergencePass g2) (fst (density (divergencePass g2)))
              = store g2 (fst (density g2))).
  { destruct (divergencePass_stage g2) as (V & D & P & S).
    unfold arraysOk. rewrite V, D, P, S. split; [exact O2|]. revert O2.
    generalize (store g2) as st. intros st Ok.
    concrete_arrays Ok; frame_store; reflexivity. }
  destruct C as [O3 E3]. rewrite <- E3. clear E3 O2.
  revert O3. generalize (divergencePass g2) as g3. clear g2. intros g3 O3.
  destruct (pressurePass_stage g3 (proj2 (proj2 O3))) as (V & D & P & S & _).
  assert (E4 : store (pressurePass g3) (fst (density (pressurePass g3)))
               = store g3 (fst (density g3))).
  { rewrite D. apply S; destruct O3 as (_ & [E | E] & _); rewrite E;
      discriminate. }
  assert (O4 : arraysOk (pressurePass g3))
    by (unfold arraysOk; rewrite V, D, P; exact O3).
  rewrite <- E4. clear E4 O3 V D P S.
  revert O4. generalize (pressurePass g3) as g4. clear g3. intros g4 O4.
  destruct (gradientSubtract_stage g4) as (V & D & P & S).
  destruct (bindDisplay_stage (gradientSubtract g4)) as (_ & D' & _ & S' & _).
  rewrite D', S', D, S. clear V D P S D' S'. revert O4.
  generalize (store g4) as st. intros st Ok.
  concrete_arrays Ok; frame_store; reflexivity.
Qed.

Lemma solverStep_dyeOk mode g : dyeOk g -> dyeOk (solverStep mode g).
Proof.
  intros [Ok D]. split; [now apply solverStep_arraysOk|].
  intros i j _. destruct (solverStep_density mode g Ok i j) as [uv E].
  rewrite E. unfold scale4. cbn [v4x v4y v4z].
  destruct (dissipation_range mode) as [_ [D0 _]].
  assert (L : forall pr : Vec4 -> R,
             (forall a b t, pr (mix4 a b t) = pr a * (1 - t) + pr b * t) ->
             (forall a b, inGrid dyeRes a b ->
                0 <= pr (store g (fst (density g)) a b)) ->
             0 <= densityDissipation mode
                  * pr (texture2D
                          (mkSampler dyeRes (store g (fst (density g)))) uv)).
  { intros pr Hpr Hb. apply Rmult_le_pos; [lra|].
    apply texture2D_lower; [exact Hpr | reflexivity | exact Hb]. }
  repeat split; apply L; try reflexivity; intros a b Hab; now apply D.
Qed.

Section DyeInvariant.

Variable random : nat -> R.
Variable setHSL : R -> R -> R -> Vec3.

Hypothesis random_unit : forall n, 0 <= random n < 1.
Hypothesis setHSL_nonneg : forall h, nonneg3 (setHSL h 0.8 0.5).

Lemma ambienceColor_nonneg mode t i : nonneg3 (ambienceColor mode t i).
Proof.
  unfold ambienceColor, nonneg3. cbv zeta.
  pose proof (SIN_bound (t + INR i)). pose proof (COS_bound (t + INR i)).
  destruct (String.eqb mode "forest");
    destruct (i mod 4)%nat as [|[|[|?]]]; cbn [v3x v3y v3z]; lra.
Qed.

Lemma musicColor_nonneg mode t : nonneg3 (musicColor setHSL mode t).
Proof.
  destruct mode; cbn [musicColor]; try apply setHSL_nonneg;
    unfold nonneg3; cbn [v3x v3y v3z]; lra.
Qed.

Lemma scale3_nonneg c : nonneg3 c -> nonneg3 (scale3 4.0 c).
Proof. intros (X & Y & Z). unfold nonneg3, scale3. cbn [v3x v3y v3z]. lra. Qed.

Lemma pointerColor_nonneg mode t n : nonneg3 (pointerColor mode t (random n)).
Proof.
  destruct (pointerColor_unit mode t (random n) (random_unit n))
    as (X & Y & Z).
  unfold nonneg3. lra.
Qed.

Lemma forEachAgent_dyeOk size mode t agents i g :
  dyeOk g -> dyeOk (snd (forEachAgent size mode t agents i g)).
Proof.
  revert i g. induction agents as [|agent rest IH]; intros i g Hg; simpl.
  - exact Hg.
  - match goal with
    | |- context [forEachAgent size mode t rest ?j ?h] =>
        assert (Hh : dyeOk h)
          by (apply applySplat_dyeOk;
              [apply ambienceColor_nonneg | exact Hg]);
        specialize (IH j h Hh); destruct (forEachAgent size mode t rest j h)
    end.
    exact IH.
Qed.

Lemma dropLoop_dyeOk f color w n :
  nonneg3 color -> dyeOk (gpu w) ->
  dyeOk (gpu (forLoop n (fun _ => dropParticle random f color) w)).
Proof.
  intros Hc H. induction n as [|n IH]; [exact H|].
  change (forLoop (S n) (fun _ => dropParticle random f color) w)
    with (dropParticle random f color
            (forLoop n (fun _ => dropParticle random f color) w)).
  generalize dependent (forLoop n (fun _ => dropParticle random f color) w).
  intros w' IH. unfold dropParticle, Math_random. simpl.
  apply applySplat_dyeOk; [now apply scale3_nonneg | exact IH].
Qed.

Lemma dropBurst_dyeOk f color w :
  nonneg3 color -> dyeOk (gpu w) -> dyeOk (gpu (dropBurst random f color w)).
Proof. exact (dropLoop_dyeOk f color w dropParticleCount). Qed.

Lemma trailSplat_dyeOk f d color w :
  nonneg3 color -> dyeOk (gpu w) -> dyeOk (gpu (trailSplat f d color w)).
Proof.
  intros Hc H. unfold trailSplat. simpl.
  destruct (Rgtb (volAvgOf d) 2); simpl; [|exact H].
  now apply applySplat_dyeOk.
Qed.

Lemma automatedSplats_dyeOk f w :
  dyeOk (gpu w) -> dyeOk (gpu (automatedSplats random setHSL f w)).
Proof.
  intros H. unfold automatedSplats. destruct (isMusicActive f); [|exact H].
  destruct (truthy (ambienceMode f)).
  - destruct (ambienceMode f) as [mode|]; [|exact H]. unfold ambienceBranch.
    pose proof (forEachAgent_dyeOk (size f) mode (elapsedTime f)
                  (ambienceAgents w) 0%nat (gpu w) H) as A.
    destruct (forEachAgent _ _ _ _ _ _). exact A.
  - unfold musicBranch.
    destruct (getAudioData (spectrum f) (audioService w)) as [[d|] svc];
      [|exact H].
    unfold musicReact.
    pose proof (musicColor_nonneg (currentMode f) (elapsedTime f)) as C.
    pose proof (trailSplat_dyeOk f d
                  (musicColor setHSL (currentMode f) (elapsedTime f))
                  (moveWanderer f d (set_audioService svc w)) C H) as A2.
    pose proof (dropBurst_dyeOk f
                  (musicColor setHSL (currentMode f) (elapsedTime f))
                  _ C A2) as A3.
    revert A2 A3.
    generalize (dropBurst random f
                  (musicColor setHSL (currentMode f) (elapsedTime f))
                  (trailSplat f d
                     (musicColor setHSL (currentMode f) (elapsedTime f))
                     (moveWanderer f d (set_audioService svc w)))) as w3.
    generalize (trailSplat f d
                  (musicColor setHSL (currentMode f) (elapsedTime f))
                  (moveWanderer f d (set_audioService svc w))) as w2.
    intros w2 w3 A2 A3.
    destruct (isDrop (bassAvgOf d) (lastBass w2)); assumption.
Qed.

Lemma inputInteraction_dyeOk f w :
  dyeOk (gpu w) -> dyeOk (gpu (inputInteraction random f w)).
Proof.
  intros H. unfold inputInteraction. destruct (ptr_moved (pointer w)); simpl.
  - apply applySplat_dyeOk; [apply pointerColor_nonneg | exact H].
  - exact H.
Qed.

Lemma useFrame_dyeOk f w :
  dyeOk (gpu w) -> dyeOk (gpu (useFrame random setHSL f w)).
Proof.
  intros H. rewrite (useFrame_gpu random setHSL). apply solverStep_dyeOk.
  now apply inputInteraction_dyeOk, automatedSplats_dyeOk.
Qed.

End DyeInvariant.

(** X24. The dye is never negative.  [Math.random()] returning numbers of
    [0, 1) and [setHSL(h, 0.8, 0.5)] a colour without a negative channel, if
    the arrays are
    well formed and no texel of the active density buffer has a negative
    colour channel before a frame, the same holds after it, whichever driver
    runs: every colour the drivers splat is non-negative, and advection
    interpolates and scales by a positive factor.  At mount the buffers are
    zero. *)
Theorem dye_never_negative (random : nat -> R)
    (setHSL : R -> R -> R -> Vec3) (f : Frame) (w : World) :
  (forall n, 0 <= random n < 1) ->
  (forall h, nonneg3 (setHSL h 0.8 0.5)) ->
  dyeOk (gpu w) -> dyeOk (gpu (useFrame random setHSL f w)).
Proof. intros Hr Hs H. now apply useFrame_dyeOk. Qed.

Lemma dye_never_negative_witness :
  (forall n, 0 <= halves n < 1) /\
  (forall h, nonneg3 (greyHSL h 0.8 0.5)) /\
  dyeOk (gpu (world0 halves audio0)) /\
  dyeOk (gpu (useFrame halves greyHSL (toneFrame x82) (world0 halves audio0))).
Proof.
  assert (R1 : forall n, 0 <= halves n < 1) by (intros n; unfold halves; lra).
  assert (G : forall h, nonneg3 (greyHSL h 0.8 0.5)).
  { intros h. unfold nonneg3, greyHSL. cbn [v3x v3y v3z]. lra. }
  assert (D : dyeOk (gpu (world0 halves audio0))).
  { split; [repeat split; left; reflexivity|].
    intros i j _. cbn. repeat split; lra. }
  repeat (split; [assumption|]).
  exact (dye_never_negative halves greyHSL (toneFrame x82)
           (world0 halves audio0) R1 G D).
Defined.

(* ===================================================================== *)
(** ** The display shader *)
(* ===================================================================== *)

Lemma glsl_pow_nonneg x y : 0 <= glsl_pow x y.
Proof. exact (Math_pow_nonneg x y). Qed.

Lemma glsl_pow_unit x y : 0 <= x <= 1 -> 0 < y -> glsl_pow x y <= 1.
Proof. exact (Math_pow_unit x y). Qed.

Lemma glsl_pow_mono a b y :
  0 <= a <= b -> 0 < y -> glsl_pow a y <= glsl_pow b y.
Proof.
  intros [Ha Hab] Hy. unfold glsl_pow at 1.
  destruct (Req_dec_T a 0); [apply glsl_pow_nonneg|].
  unfold glsl_pow. destruct (Req_dec_T b 0); [lra|].
  apply Rle_Rpower_l; lra.
Qed.

Lemma reinhard_unit c : 0 <= c -> 0 <= c / (c + 1.0) <= 1.
Proof.
  intros Hc. assert (P : 0 < c + 1.0) by lra. split.
  - apply Rmult_le_pos; [exact Hc|]. left. now apply Rinv_0_lt_compat.
  - apply Rmult_le_reg_r with (c + 1.0); [exact P|].
    unfold Rdiv. rewrite Rmult_assoc, Rinv_l by lra. lra.
Qed.

(** X25. What reaches the screen is bounded.  For a dye texture without a
    negative channel and a coordinate of the unit square, each colour channel
    the display shader writes lies between 0 and the greatest vignette factor
    [pow(1.25, 0.2)], and alpha is 1; the divisor [c + 1] of the tone mapping
    is at least 1. *)
Theorem display_is_bounded (uTexture : Sampler) (vUv : Vec2) :
  (0 < s_res uTexture)%Z ->
  (forall i j, inGrid (s_res uTexture) i j ->
     0 <= v4x (s_img uTexture i j) /\ 0 <= v4y (s_img uTexture i j) /\
     0 <= v4z (s_img uTexture i j)) ->
  0 <= v2x vUv <= 1 -> 0 <= v2y vUv <= 1 ->
  let out := DISPLAY_SHADER uTexture vUv in
  let c := texture2D uTexture vUv in
  0 <= v4x out <= vignetteMax /\ 0 <= v4y out <= vignetteMax /\
  0 <= v4z out <= vignetteMax /\ v4w out = 1 /\
  1 <= v4x c + 1 /\ 1 <= v4y c + 1 /\ 1 <= v4z c + 1.
Proof.
  intros Hres Hd Hx Hy. cbv zeta.
  assert (Cx : 0 <= v4x (texture2D uTexture vUv)).
  { apply texture2D_lower; [reflexivity | exact Hres |].
    intros i j Hij. apply (Hd i j Hij). }
  assert (Cy : 0 <= v4y (texture2D uTexture vUv)).
  { apply texture2D_lower; [reflexivity | exact Hres |].
    intros i j Hij. apply (Hd i j Hij). }
  assert (Cz : 0 <= v4z (texture2D uTexture vUv)).
  { apply texture2D_lower; [reflexivity | exact Hres |].
    intros i j Hij. apply (Hd i j Hij). }
  unfold DISPLAY_SHADER, xyz. cbv zeta. cbn [v2x v2y v3x v3y v3z v4x v4y v4z v4w].
  revert Cx Cy Cz.
  generalize (v4x (texture2D uTexture vUv)) as cx.
  generalize (v4y (texture2D uTexture vUv)) as cy.
  generalize (v4z (texture2D uTexture vUv)) as cz.
  intros cz cy cx Cx Cy Cz.
  assert (V : 0 <= glsl_pow (v2x vUv * (1.0 - v2y vUv)
                             * (v2y vUv * (1.0 - v2x vUv)) * 20.0) 0.2
              <= vignetteMax).
  { split; [apply glsl_pow_nonneg|]. unfold vignetteMax.
    apply glsl_pow_mono; [|lra].
    assert (Q : forall x, 0 <= x <= 1 -> 0 <= x * (1 - x) <= 1 / 4).
    { intros x [X0 X1]. split; [apply Rmult_le_pos; lra|].
      pose proof (Rle_0_sqr (x - 1 / 2)) as S. unfold Rsqr in S. lra. }
    pose proof (Q _ Hx) as A. pose proof (Q _ Hy) as B. clear Q.
    replace (v2x vUv * (1.0 - v2y vUv) * (v2y vUv * (1.0 - v2x vUv)) * 20.0)
      with (v2x vUv * (1 - v2x vUv) * (v2y vUv * (1 - v2y vUv)) * 20)
      by (replace 1.0 with 1 by lra; replace 20.0 with 20 by lra; ring).
    revert A B. generalize (v2x vUv * (1 - v2x vUv)) as p.
    generalize (v2y vUv * (1 - v2y vUv)) as q. intros q p A B.
    assert (L : 0 <= p * q) by (apply Rmult_le_pos; lra).
    assert (U : p * q <= 1 / 4 * (1 / 4)) by (apply Rmult_le_compat; lra).
    lra. }
  revert V.
  generalize (glsl_pow (v2x vUv * (1.0 - v2y vUv)
                        * (v2y vUv * (1.0 - v2x vUv)) * 20.0) 0.2) as vig.
  intros vig [V0 V1].
  assert (M : forall c, 0 <= c ->
                0 <= glsl_pow (c / (c + 1.0)) (1.0 / 2.2) * vig
                <= vignetteMax).
  { intros c Hc. pose proof (reinhard_unit c Hc) as U.
    pose proof (glsl_pow_nonneg (c / (c + 1.0)) (1.0 / 2.2)) as P0.
    pose proof (glsl_pow_unit (c / (c + 1.0)) (1.0 / 2.2) U ltac:(lra)) as P1.
    revert P0 P1. generalize (glsl_pow (c / (c + 1.0)) (1.0 / 2.2)) as m.
    intros m P0 P1. split; nra. }
  split; [now apply M|]. split; [now apply M|]. split; [now apply M|].
  repeat split; lra.
Qed.

Lemma display_is_bounded_witness :
  (0 < s_res dyeSample)%Z /\
  (forall i j, inGrid (s_res dyeSample) i j ->
     0 <= v4x (s_img dyeSample i j) /\ 0 <= v4y (s_img dyeSample i j) /\
     0 <= v4z (s_img dyeSample i j)) /\
  0 <= v2x (vec2 0.5 0.5) <= 1 /\ 0 <= v2y (vec2 0.5 0.5) <= 1 /\
  0 <= v4x (DISPLAY_SHADER dyeSample (vec2 0.5 0.5)) <= vignetteMax /\
  0 <= v4y (DISPLAY_SHADER dyeSample (vec2 0.5 0.5)) <= vignetteMax.
Proof.
  assert (R0 : (0 < s_res dyeSample)%Z) by reflexivity.
  assert (Z0 : forall i j, inGrid (s_res dyeSample) i j ->
             0 <= v4x (s_img dyeSample i j) /\
             0 <= v4y (s_img dyeSample i j) /\
             0 <= v4z (s_img dyeSample i j)).
  { intros i j _. cbn. repeat split; lra. }
  assert (X : 0 <= v2x (vec2 0.5 0.5) <= 1) by (cbn [v2x]; lra).
  assert (Y : 0 <= v2y (vec2 0.5 0.5) <= 1) by (cbn [v2y]; lra).
  repeat (split; [assumption|]).
  destruct (display_is_bounded dyeSample (vec2 0.5 0.5) R0 Z0 X Y)
    as (Bx & By & _).
  split; [exact Bx | exact By].
Defined.

Lemma mix4_same (a : Vec4) (t : R) : mix4 a a t = a.
Proof. destruct a. unfold mix4. cbn. f_equal; ring. Qed.

Lemma texture2D_const (res : Z) (c : Vec4) (uv : Vec2) :
  texture2D (mkSampler res (fun _ _ => c)) uv = c.
Proof. unfold texture2D. cbv zeta. cbn [s_img]. now rewrite !mix4_same. Qed.

(** At the centre of the screen the dye (1, 3, 0) is displayed with the red
    channel [pow(1/2, 1/2.2)] times the greatest vignette factor, which is
    positive, and the blue channel 0: tone mapping, gamma and vignette all
    act. *)
Lemma display_of_dye_example :
  v4x (DISPLAY_SHADER dyeSample (vec2 0.5 0.5))
  = glsl_pow (1 / 2) (1 / 2.2) * vignetteMax /\
  0 < v4x (DISPLAY_SHADER dyeSample (vec2 0.5 0.5)) /\
  v4z (DISPLAY_SHADER dyeSample (vec2 0.5 0.5)) = 0.
Proof.
  assert (E : v4x (DISPLAY_SHADER dyeSample (vec2 0.5 0.5))
              = glsl_pow (1 / 2) (1 / 2.2) * vignetteMax).
  { unfold DISPLAY_SHADER, dyeSample, vignetteMax. cbv zeta.
    rewrite texture2D_const. cbn [xyz v2x v2y v3x v3y v3z v4x v4y v4z].
    f_equal; f_equal; lra. }
  split; [exact E|]. split.
  - rewrite E. unfold vignetteMax, glsl_pow.
    destruct (Req_dec_T (1 / 2) 0); [lra|].
    destruct (Req_dec_T 1.25 0); [lra|].
    apply Rmult_lt_0_compat; unfold Rpower; apply exp_pos.
  - unfold DISPLAY_SHADER, dyeSample. cbv zeta.
    rewrite texture2D_const. cbn [xyz v2x v2y v3x v3y v3z v4x v4y v4z].
    replace (0 / (0 + 1.0)) with 0 by (unfold Rdiv; ring).
    unfold glsl_pow at 1. destruct (Req_dec_T 0 0); [ring | congruence].
Qed.

(* ===================================================================== *)
(** ** The gradient subtraction *)
(* ===================================================================== *)


